(** * Missionaries and Cannibals: the three searches of [Exercise3.9.py]

    A shallow embedding of [MissionariesAndCannibals] (state validity,
    successor generation and the breadth-first, depth-first and A* loops,
    with Python's [deque], list-as-stack and [heapq] frontiers) and the
    properties of the searches that the specification states. *)

From stdpp Require Import gmap list strings pretty.
From Stdlib Require Import ZArith Lia Floats.

Local Open Scope Z_scope.
Set Warnings "-clear-no-such-hyp".

(** * The program *)

(** ** Data model *)

(** A state is the tuple [(missionaries_left, cannibals_left, boat)];
    an action is the move [(m, c)]. Python integers are unbounded: [Z]. *)
Definition State : Type := Z * Z * Z.
Definition Action : Type := Z * Z.
Definition Path : Type := list Action.

(** The attributes set by [__init__]. *)
Record MissionariesAndCannibals : Type := {
  initial_state : State;
  goal_state : State
}.

(** [MissionariesAndCannibals()] *)
Definition problem : MissionariesAndCannibals :=
  {| initial_state := (3, 3, 1); goal_state := (0, 0, 0) |}.

(** [is_valid(self, state)] *)
Definition is_valid (state : State) : bool :=
  let '(m, c, _) := state in
  if negb ((0 <=? m) && (m <=? 3) && ((0 <=? c) && (c <=? 3))) then false
  else if (0 <? m) && (m <? c) then false
  else
    let m_right := 3 - m in
    let c_right := 3 - c in
    if (0 <? m_right) && (m_right <? c_right) then false
    else true.

Definition possible_moves : list Action :=
  [(1, 0); (2, 0); (0, 1); (0, 2); (1, 1)].

(** One iteration of the [for m_move, c_move in possible_moves] loop. *)
Definition try_move (state : State) (successors : list (State * Action))
    (move : Action) : list (State * Action) :=
  let '(missionaries, cannibals, boat) := state in
  let '(m_move, c_move) := move in
  let new_state :=
    if boat =? 1 then (missionaries - m_move, cannibals - c_move, 0)
    else (missionaries + m_move, cannibals + c_move, 1) in
  if is_valid new_state then successors ++ [(new_state, (m_move, c_move))]
  else successors.

(** [get_successors(self, state)] *)
Definition get_successors (state : State) : list (State * Action) :=
  foldl (try_move state) [] possible_moves.

(** ** The transition graph ([nx.DiGraph]) *)

(** Only [add_edge(u, v, action=...)] is used: it adds both end points to the
    node set and sets the attribute of the edge [(u, v)], replacing the
    attribute of an edge that is already there. *)
Record DiGraph : Type := {
  nodes : gset State;
  edges : gmap (State * State) string
}.

Definition empty_graph : DiGraph := {| nodes := ∅; edges := ∅ |}.

Definition add_edge (u v : State) (action : string) (g : DiGraph) : DiGraph :=
  {| nodes := {[v]} ∪ ({[u]} ∪ nodes g);
     edges := <[(u, v) := action]> (edges g) |}.

(** [str(action)] for a pair of integers: ["(1, 0)"]. *)
Definition str (action : Action) : string :=
  "(" +:+ pretty (fst action) +:+ ", " +:+ pretty (snd action) +:+ ")".

(** ** The loop *)

(** A [while] loop whose body either returns from the function or goes on
    with a new loop state; [fuel] bounds the number of iterations. *)
Inductive outcome (C R : Type) : Type :=
  | Return (r : R)
  | Continue (c : C).
Arguments Return {C R} r.
Arguments Continue {C R} c.

Fixpoint while {C R : Type} (body : C → outcome C R) (fuel : nat) (c : C)
    : option R :=
  match fuel with
  | O => None
  | S fuel =>
      match body c with
      | Return r => Some r
      | Continue c' => while body fuel c'
      end
  end.

(** What a search returns: [(solution_path, graph)], where [solution_path]
    is [None] when the frontier ran empty. *)
Definition Result : Type := option Path * DiGraph.

(** Python: [visited.add(state)]. *)
Definition set_add (state : State) (visited : gset State) : gset State :=
  {[state]} ∪ visited.

(** The local variables of a search loop: the frontier ([queue], [stack] or
    [priority_queue]), [visited] and [graph]. The last component is not a
    variable of the program: it logs the argument of every call of
    [get_successors], the latest call last. *)
Definition loop_state (F : Type) : Type :=
  F * gset State * DiGraph * list State.

Definition frontier {F : Type} (c : loop_state F) : F := c.1.1.1.
Definition visited {F : Type} (c : loop_state F) : gset State := c.1.1.2.
Definition graph {F : Type} (c : loop_state F) : DiGraph := c.1.2.
Definition calls {F : Type} (c : loop_state F) : list State := c.2.

(** ** Python containers *)

(** [deque.popleft()] on a non-empty deque; [None] stands for [IndexError]. *)
Definition popleft {A : Type} (queue : list A) : option (A * list A) :=
  match queue with
  | [] => None
  | x :: queue => Some (x, queue)
  end.

(** [list.pop()]: removes and returns the last item; [None] stands for
    [IndexError]. *)
Definition list_pop {A : Type} (stack : list A) : option (A * list A) :=
  match reverse stack with
  | [] => None
  | x :: r => Some (x, reverse r)
  end.

(** [append] of a deque or a list. *)
Definition append {A : Type} (l : list A) (x : A) : list A := l ++ [x].

(** *** [heapq]

    The binary heap of the Python library on a list, with its two sift
    procedures; [lt] is the [<] of the items. Positions are in range wherever
    the loops read the list, so the total lookup [!!!] never falls back on
    its default. *)
Section heapq.
Context {A : Type} `{!Inhabited A} (lt : A → A → bool).

(** The [while pos > startpos] loop of [_siftdown]; [pos] decreases at
    each iteration, so [pos] iterations are enough. *)
Fixpoint siftdown_loop (fuel : nat) (heap : list A) (newitem : A)
    (startpos pos : nat) : list A * nat :=
  match fuel with
  | O => (heap, pos)
  | S fuel =>
      if decide (startpos < pos)%nat then
        let parentpos := Nat.shiftr (pos - 1) 1 in
        let parent := heap !!! parentpos in
        if lt newitem parent then
          siftdown_loop fuel (<[pos := parent]> heap) newitem startpos parentpos
        else (heap, pos)
      else (heap, pos)
  end.

Definition _siftdown (heap : list A) (startpos pos : nat) : list A :=
  let newitem := heap !!! pos in
  let '(heap, pos) := siftdown_loop pos heap newitem startpos pos in
  <[pos := newitem]> heap.

(** The [while childpos < endpos] loop of [_siftup]; [childpos] grows at
    each iteration, so [endpos] iterations are enough. *)
Fixpoint siftup_loop (fuel : nat) (heap : list A) (endpos pos childpos : nat)
    : list A * nat :=
  match fuel with
  | O => (heap, pos)
  | S fuel =>
      if decide (childpos < endpos)%nat then
        let rightpos := (childpos + 1)%nat in
        let childpos :=
          if bool_decide (rightpos < endpos)%nat
             && negb (lt (heap !!! childpos) (heap !!! rightpos))
          then rightpos else childpos in
        let heap := <[pos := heap !!! childpos]> heap in
        let pos := childpos in
        siftup_loop fuel heap endpos pos (2 * pos + 1)%nat
      else (heap, pos)
  end.

Definition _siftup (heap : list A) (pos : nat) : list A :=
  let endpos := length heap in
  let startpos := pos in
  let newitem := heap !!! pos in
  let '(heap, pos) :=
    siftup_loop endpos heap endpos pos (2 * pos + 1)%nat in
  let heap := <[pos := newitem]> heap in
  _siftdown heap startpos pos.

Definition heappush (heap : list A) (item : A) : list A :=
  let heap := append heap item in
  _siftdown heap 0 (length heap - 1).

(** [None] stands for the [IndexError] of an empty heap. *)
Definition heappop (heap : list A) : option (A * list A) :=
  match list_pop heap with
  | None => None
  | Some (lastelt, heap) =>
      match heap with
      | [] => Some (lastelt, heap)
      | _ :: _ =>
          let returnitem := heap !!! 0%nat in
          let heap := <[0%nat := lastelt]> heap in
          Some (returnitem, _siftup heap 0)
      end
  end.

End heapq.

(** *** Python's [<] on the tuples and lists that are heap items *)

(** Tuples and lists compare by their first differing component; a proper
    prefix of a list is less than the list. *)
Definition action_lt (a b : Action) : bool :=
  if decide (a.1 = b.1) then a.2 <? b.2 else a.1 <? b.1.

Definition state_lt (a b : State) : bool :=
  if decide (a.1.1 = b.1.1) then
    if decide (a.1.2 = b.1.2) then a.2 <? b.2 else a.1.2 <? b.1.2
  else a.1.1 <? b.1.1.

Fixpoint path_lt (a b : Path) : bool :=
  match a, b with
  | [], [] => false
  | [], _ :: _ => true
  | _ :: _, [] => false
  | x :: a, y :: b => if decide (x = y) then path_lt a b else action_lt x y
  end.

(** A heap item of [a_star_search]: [(priority, state, path_taken)]. *)
Definition Entry : Type := Z * State * Path.

Definition entry_lt (a b : Entry) : bool :=
  if decide (a.1.1 = b.1.1) then
    if decide (a.1.2 = b.1.2) then path_lt a.2 b.2 else state_lt a.1.2 b.1.2
  else a.1.1 <? b.1.1.

(** ** Breadth-first search *)

(** The body of [for successor, action in self.get_successors(state)]. *)
Definition bfs_visit (state : State) (path : Path)
    (acc : list (State * Path) * DiGraph) (sa : State * Action)
    : list (State * Path) * DiGraph :=
  let '(queue, graph) := acc in
  let '(successor, action) := sa in
  (append queue (successor, path ++ [action]),
   add_edge state successor (str action) graph).

(** One iteration of [while queue:], the emptiness test included. *)
Definition bfs_body (self : MissionariesAndCannibals)
    (c : loop_state (list (State * Path)))
    : outcome (loop_state (list (State * Path))) Result :=
  let '(queue, visited, graph, calls) := c in
  match popleft queue with
  | None => Return (None, graph)
  | Some ((state, path), queue) =>
      if decide (state = goal_state self) then Return (Some path, graph)
      else if decide (state ∉ visited) then
        let visited := set_add state visited in
        let '(queue, graph) :=
          foldl (bfs_visit state path) (queue, graph) (get_successors state) in
        Continue (queue, visited, graph, calls ++ [state])
      else Continue (queue, visited, graph, calls)
  end.

Definition bfs_init (self : MissionariesAndCannibals)
    : loop_state (list (State * Path)) :=
  ([(initial_state self, [])], ∅, empty_graph, []).

(** [breadth_first_search(self)], with a bound on the iterations. *)
Definition breadth_first_search (fuel : nat) (self : MissionariesAndCannibals)
    : option Result :=
  while (bfs_body self) fuel (bfs_init self).

(** ** Depth-first search *)

Definition dfs_visit (state : State) (path : Path)
    (acc : list (State * Path) * DiGraph) (sa : State * Action)
    : list (State * Path) * DiGraph :=
  let '(stack, graph) := acc in
  let '(successor, action) := sa in
  (append stack (successor, path ++ [action]),
   add_edge state successor (str action) graph).

(** One iteration of [while stack:]. *)
Definition dfs_body (self : MissionariesAndCannibals)
    (c : loop_state (list (State * Path)))
    : outcome (loop_state (list (State * Path))) Result :=
  let '(stack, visited, graph, calls) := c in
  match list_pop stack with
  | None => Return (None, graph)
  | Some ((state, path), stack) =>
      if decide (state = goal_state self) then Return (Some path, graph)
      else if decide (state ∉ visited) then
        let visited := set_add state visited in
        let '(stack, graph) :=
          foldl (dfs_visit state path) (stack, graph) (get_successors state) in
        Continue (stack, visited, graph, calls ++ [state])
      else Continue (stack, visited, graph, calls)
  end.

Definition dfs_init (self : MissionariesAndCannibals)
    : loop_state (list (State * Path)) :=
  ([(initial_state self, [])], ∅, empty_graph, []).

(** [depth_first_search(self)], with a bound on the iterations. *)
Definition depth_first_search (fuel : nat) (self : MissionariesAndCannibals)
    : option Result :=
  while (dfs_body self) fuel (dfs_init self).

(** ** A* search *)

(** The local function [heuristic] of [a_star_search]. *)
Definition heuristic (state : State) : Z :=
  let '(m, c, _) := state in m + c.

Definition astar_visit (state : State) (path : Path)
    (acc : list Entry * DiGraph) (sa : State * Action)
    : list Entry * DiGraph :=
  let '(priority_queue, graph) := acc in
  let '(successor, action) := sa in
  let new_path := path ++ [action] in
  let cost := Z.of_nat (length new_path) in
  let priority := cost + heuristic successor in
  (heappush entry_lt priority_queue (priority, successor, new_path),
   add_edge state successor (str action) graph).

(** One iteration of [while priority_queue:]. *)
Definition astar_body (self : MissionariesAndCannibals)
    (c : loop_state (list Entry)) : outcome (loop_state (list Entry)) Result :=
  let '(priority_queue, visited, graph, calls) := c in
  match heappop entry_lt priority_queue with
  | None => Return (None, graph)
  | Some ((_, state, path), priority_queue) =>
      if decide (state = goal_state self) then Return (Some path, graph)
      else if decide (state ∉ visited) then
        let visited := set_add state visited in
        let '(priority_queue, graph) :=
          foldl (astar_visit state path) (priority_queue, graph)
            (get_successors state) in
        Continue (priority_queue, visited, graph, calls ++ [state])
      else Continue (priority_queue, visited, graph, calls)
  end.

Definition astar_init (self : MissionariesAndCannibals)
    : loop_state (list Entry) :=
  ([(heuristic (initial_state self), initial_state self, [])],
   ∅, empty_graph, []).

(** [a_star_search(self)], with a bound on the iterations. *)
Definition a_star_search (fuel : nat) (self : MissionariesAndCannibals)
    : option Result :=
  while (astar_body self) fuel (astar_init self).

(** ** The loop the three searches share

    The three loops are the same text but for the frontier: how the next
    entry is taken and how a successor is put in. [search_body] is that
    text over the two operations; each search is shown below to be an
    instance, so that a property of the loop is proved once. *)

(** The frontier as the loop uses it: [pop] gives the next [(state, path)]
    and the rest, [push] puts an entry in, [items] lists the entries. *)
Record frontier_ops (F : Type) : Type := {
  pop : F → option (State * Path * F);
  push : F → State * Path → F;
  items : F → list (State * Path)
}.
Arguments pop {F} _ _.
Arguments push {F} _ _ _.
Arguments items {F} _ _.

Section search_loop.
Context {F : Type} (ops : frontier_ops F).

Definition visit (state : State) (path : Path) (acc : F * DiGraph)
    (sa : State * Action) : F * DiGraph :=
  let '(fr, graph) := acc in
  let '(successor, action) := sa in
  (push ops fr (successor, path ++ [action]),
   add_edge state successor (str action) graph).

Definition search_body (self : MissionariesAndCannibals) (c : loop_state F)
    : outcome (loop_state F) Result :=
  let '(fr, visited, graph, calls) := c in
  match pop ops fr with
  | None => Return (None, graph)
  | Some ((state, path), fr) =>
      if decide (state = goal_state self) then Return (Some path, graph)
      else if decide (state ∉ visited) then
        let visited := set_add state visited in
        let '(fr, graph) :=
          foldl (visit state path) (fr, graph) (get_successors state) in
        Continue (fr, visited, graph, calls ++ [state])
      else Continue (fr, visited, graph, calls)
  end.

(** The loop state at the first iteration, for the frontier [fr]
    holding the initial entry. *)
Definition search_init (fr : F) : loop_state F :=
  (fr, ∅, empty_graph, []).

End search_loop.

(** The [deque] of [breadth_first_search]. *)
Definition deque_ops : frontier_ops (list (State * Path)) :=
  {| pop := popleft; push := append; items := id |}.

(** The list used as a stack by [depth_first_search]. *)
Definition stack_ops : frontier_ops (list (State * Path)) :=
  {| pop := list_pop; push := append; items := id |}.

(** The heap of [a_star_search]: the priority of an entry is the length of
    its path plus the heuristic of its state, also for the first entry,
    whose path is empty. *)
Definition entry_of (sp : State * Path) : Entry :=
  (Z.of_nat (length sp.2) + heuristic sp.1, sp.1, sp.2).

Definition heap_ops : frontier_ops (list Entry) :=
  {| pop := λ heap,
       match heappop entry_lt heap with
       | None => None
       | Some ((_, state, path), heap) => Some ((state, path), heap)
       end;
     push := λ heap sp, heappush entry_lt heap (entry_of sp);
     items := map (λ e : Entry, (e.1.2, e.2)) |}.

(** The loop state after [n] iterations, or at the iteration that returns
    when there are fewer. *)
Fixpoint iterate {C R : Type} (body : C → outcome C R) (n : nat) (c : C) : C :=
  match n with
  | O => c
  | S n =>
      match body c with
      | Return _ => c
      | Continue c' => iterate body n c'
      end
  end.

(** The loop states a run goes through. *)
Definition reaches {C R : Type} (body : C → outcome C R) : relation C :=
  rtc (λ c c', body c = Continue c').

(** ** The state space *)

(** The state a move leads to, as [get_successors] computes it. *)
Definition move_result (state : State) (move : Action) : State :=
  if state.2 =? 1 then (state.1.1 - move.1, state.1.2 - move.2, 0)
  else (state.1.1 + move.1, state.1.2 + move.2, 1).

(** One move of the puzzle. *)
Definition successor (s s' : State) : Prop :=
  ∃ action, (s', action) ∈ get_successors s.

(** [moves n s s']: [n] moves lead from [s] to [s']. *)
Inductive moves : nat → State → State → Prop :=
  | moves_O s : moves 0 s s
  | moves_S n s s' s'' : successor s s' → moves n s' s'' → moves (S n) s s''.

(** [d] is the minimal number of moves from [s] to [s']. *)
Definition min_moves (s s' : State) (d : nat) : Prop :=
  moves d s s' ∧ ∀ n, moves n s s' → (d ≤ n)%nat.

(** All the states that pass [is_valid] with the boat on a bank. *)
Definition bank_states : list State :=
  m ← [0; 1; 2; 3]; c ← [0; 1; 2; 3]; b ← [0; 1];
  if is_valid (m, c, b) then [(m, c, b)] else [].

(** Every state a search of [self] can meet. *)
Definition universe (self : MissionariesAndCannibals) : gset State :=
  {[initial_state self]} ∪ list_to_set bank_states.

(** A bound on the iterations of each loop: an entry is popped at each
    iteration, the [universe] has at most 21 states, each is expanded at
    most once and puts at most 5 entries in. *)
Definition search_fuel : nat := 107.

(** * Notions of the specification *)

(** The entries an expansion of [state], reached by [path], puts in. *)
Definition children (state : State) (path : Path) : list (State * Path) :=
  (λ sa : State * Action, (sa.1, path ++ [sa.2])) <$> get_successors state.

(** What the loop needs of a frontier. *)
Record frontier_laws {F : Type} (ops : frontier_ops F) : Prop := {
  pop_None fr : pop ops fr = None ↔ items ops fr = [];
  pop_Some fr x fr' :
    pop ops fr = Some (x, fr') → items ops fr ≡ₚ x :: items ops fr';
  push_items fr x : items ops (push ops fr x) ≡ₚ x :: items ops fr
}.

(** ** The shared loop *)

Section search_loop_spec.
Context {F : Type} (ops : frontier_ops F) (self : MissionariesAndCannibals).

(** The three ways an iteration goes. *)
Inductive iteration (c : loop_state F) : outcome (loop_state F) Result → Prop :=
  | it_exhausted :
      pop ops (frontier c) = None →
      iteration c (Return (None, graph c))
  | it_goal path rest :
      pop ops (frontier c) = Some ((goal_state self, path), rest) →
      iteration c (Return (Some path, graph c))
  | it_seen state path rest :
      pop ops (frontier c) = Some ((state, path), rest) →
      state ≠ goal_state self → state ∈ visited c →
      iteration c (Continue (rest, visited c, graph c, calls c))
  | it_expand state path rest c' :
      pop ops (frontier c) = Some ((state, path), rest) →
      state ≠ goal_state self → state ∉ visited c →
      visited c' = set_add state (visited c) →
      calls c' = calls c ++ [state] →
      items ops (frontier c') ≡ₚ items ops rest ++ children state path →
      iteration c (Continue c').

(** The calls of [get_successors] so far had distinct arguments, all in the
    visited set. *)
Definition calls_ok (c : loop_state F) : Prop :=
  NoDup (calls c) ∧ ∀ s, s ∈ calls c → s ∈ visited c.

(** The states on the frontier and in the visited set are in the
    [universe] of the search. *)
Definition in_universe (c : loop_state F) : Prop :=
  (∀ e, e ∈ items ops (frontier c) → e.1 ∈ universe self)
  ∧ visited c ⊆ universe self.

(** What is left to do: five entries for each state not yet expanded, and
    the entries on the frontier. *)
Definition measure (c : loop_state F) : nat :=
  5 * size (universe self ∖ visited c) + length (items ops (frontier c)).

End search_loop_spec.

(** ** The searches *)

(** The states on the frontier pass [is_valid]. *)
Definition frontier_valid {F : Type} (ops : frontier_ops F)
    (c : loop_state F) : Prop :=
  ∀ e, e ∈ items ops (frontier c) → is_valid e.1 = true.

(** The argument of a call of [get_successors] is a state that no earlier
    call had. *)
Definition expanded_once {F : Type}
    (body : loop_state F → outcome (loop_state F) Result)
    (init : loop_state F) (n : nat) : Prop :=
  NoDup (calls (iterate body n init)).

(** A run ends: it returns [(sol, g)] from a loop state [c] that it
    reaches, and [sol] is [None] exactly when the frontier of [c] is
    exhausted. *)
Definition returns_normally {F : Type} (ops : frontier_ops F)
    (body : loop_state F → outcome (loop_state F) Result)
    (init : loop_state F) (search : option Result) : Prop :=
  ∃ sol g c,
    search = Some (sol, g)
    ∧ reaches body init c
    ∧ body c = Return (sol, g)
    ∧ (sol = None ↔ items ops (frontier c) = []).

(** A problem whose goal no move leads to: the three searches return
    [None]. *)
Definition no_goal : MissionariesAndCannibals :=
  {| initial_state := (3, 3, 1); goal_state := (0, 0, 1) |}.

(** What an iteration does with the entry it pops: it returns a path only
    for a popped goal state, [None] only for an empty frontier, and it goes
    on for any other popped state; when it expands the state, every child,
    the goal state or not, is in the next frontier. *)
Definition goal_tested_at_pop {F : Type} (ops : frontier_ops F)
    (self : MissionariesAndCannibals) (c : loop_state F)
    (o : outcome (loop_state F) Result) : Prop :=
  match o with
  | Return (Some path, _) =>
      ∃ rest, pop ops (frontier c) = Some ((goal_state self, path), rest)
  | Return (None, _) => pop ops (frontier c) = None
  | Continue c' =>
      ∃ state path rest,
        pop ops (frontier c) = Some ((state, path), rest)
        ∧ state ≠ goal_state self
        ∧ (state ∈ visited c
           ∨ ∀ successor action,
               (successor, action) ∈ get_successors state →
               (successor, path ++ [action]) ∈ items ops (frontier c'))
  end.

(** The reading of the specification: a child whose state is in the visited
    set or on the frontier is not put on the frontier. *)
Definition seen_child_not_inserted {F : Type} (ops : frontier_ops F)
    (body : loop_state F → outcome (loop_state F) Result)
    (init : loop_state F) : Prop :=
  ∀ c c' state path rest child,
    reaches body init c →
    pop ops (frontier c) = Some ((state, path), rest) →
    body c = Continue c' →
    child ∈ children state path →
    child.1 ∈ visited c ∨ child.1 ∈ (items ops rest).*1 →
    child ∉ items ops (frontier c').

(** What the loops do: an entry whose state is in the visited set is dropped
    when it is popped; the children of a state that is expanded are all put
    on the frontier, with no test. *)
Definition filtered_at_pop {F : Type} (ops : frontier_ops F)
    (c : loop_state F) (o : outcome (loop_state F) Result) : Prop :=
  match o with
  | Return _ => True
  | Continue c' =>
      ∃ state path rest,
        pop ops (frontier c) = Some ((state, path), rest)
        ∧ ((state ∈ visited c ∧ frontier c' = rest ∧ visited c' = visited c)
           ∨ ((state ∉ visited c)
              ∧ visited c' = set_add state (visited c)
              ∧ items ops (frontier c')
                ≡ₚ items ops rest ++ children state path))
  end.

(** ** The heap *)

(** The parent of position [j], as [_siftdown] computes it. *)
Definition parent (j : nat) : nat := Nat.shiftr (j - 1) 1.

Section heap_order.
Context {A : Type} `{!Inhabited A} (lt : A → A → bool).

(** [a <= b]: not [b < a]. *)
Definition le (a b : A) : Prop := lt b a = false.

(** The heap invariant of the library: [heap[k] <= heap[2*k+1]] and
    [heap[k] <= heap[2*k+2]]. *)
Definition heap_ordered (h : list A) : Prop :=
  ∀ j, (0 < j < length h)%nat → le (h !!! parent j) (h !!! j).

(** The heap with a hole at [pos]: the pairs of a parent and a child that
    do not involve [pos] are ordered, and so are the parent of [pos] and
    the children of [pos]. *)
Definition hole_ok (h : list A) (pos : nat) : Prop :=
  (∀ j, (0 < j < length h)%nat → j ≠ pos → parent j ≠ pos →
        le (h !!! parent j) (h !!! j))
  ∧ (∀ j, (0 < j < length h)%nat → parent j = pos → (0 < pos)%nat →
          le (h !!! parent pos) (h !!! j)).

(** [x] is at most the children of [pos]. *)
Definition above_children (h : list A) (pos : nat) (x : A) : Prop :=
  ∀ j, (0 < j < length h)%nat → parent j = pos → le x (h !!! j).

End heap_order.

(** A strict total order, as a boolean comparison. *)
Record strict_total {X : Type} (lt : X → X → bool) : Prop := {
  st_irrefl a : lt a a = false;
  st_trans a b c : lt a b = true → lt b c = true → lt a c = true;
  st_total a b : lt a b = false → lt b a = false → a = b
}.

(** Comparison by the first component, then by the second. *)
Definition lex {X Y : Type} `{!EqDecision X}
    (ltx : X → X → bool) (lty : Y → Y → bool) (a b : X * Y) : bool :=
  if decide (a.1 = b.1) then lty a.2 b.2 else ltx a.1 b.1.

(** The entries that the first iteration of [a_star_search] on [problem]
    puts in the priority queue, in the order of their insertion. *)
Definition first_entries : list Entry :=
  [(6, (3, 2, 0), [(0, 1)]); (5, (3, 1, 0), [(0, 2)]); (5, (2, 2, 0), [(1, 1)])].

(** The reading of the specification, for entries [es] pushed in this order
    on an empty queue: of two entries of equal priority, the one pushed
    later is not the first to be popped. *)
Definition ties_by_insertion_order (es : list Entry) : Prop :=
  ∀ i j e1 e2 e rest,
    es !! i = Some e1 → es !! j = Some e2 → (i < j)%nat →
    e1.1.1 = e2.1.1 →
    heappop entry_lt (foldl (heappush entry_lt) [] es) = Some (e, rest) →
    e ≠ e2.

(** ** The puzzle *)

(** The solution of [breadth_first_search]. *)
Definition bfs_solution : Path :=
  [(0, 2); (0, 1); (0, 2); (0, 1); (2, 0); (1, 1);
   (2, 0); (0, 1); (0, 2); (1, 0); (1, 1)].

(** The solution of [a_star_search]. *)
Definition astar_solution : Path :=
  [(0, 2); (0, 1); (0, 2); (0, 1); (2, 0); (1, 1);
   (2, 0); (0, 1); (0, 2); (0, 1); (0, 2)].

(** [goal_within goal n s]: some sequence of at most [n] moves leads from
    [s] to [goal]. *)
Fixpoint goal_within (goal : State) (n : nat) (s : State) : bool :=
  bool_decide (s = goal)
  || match n with
     | O => false
     | S n => existsb (λ sa : State * Action, goal_within goal n sa.1)
                (get_successors s)
     end.

(** The state a sequence of actions leads to, when each is a move that
    [get_successors] offers. *)
Fixpoint follow (s : State) (path : Path) : option State :=
  match path with
  | [] => Some s
  | action :: path =>
      if bool_decide ((move_result s action, action) ∈ get_successors s)
      then follow (move_result s action) path
      else None
  end.

(** The states that moves lead to from [(3, 3, 1)]. *)
Definition reachable_states : list State :=
  [(3, 3, 1); (3, 2, 0); (3, 1, 0); (2, 2, 0); (3, 2, 1); (3, 0, 0);
   (3, 1, 1); (1, 1, 0); (2, 2, 1); (0, 2, 0); (0, 3, 1); (0, 1, 0);
   (1, 1, 1); (0, 2, 1); (0, 0, 0); (0, 1, 1)].

(** [heuristic s - slack] is a lower bound of the number of moves from [s]
    to [goal]: the goal is not within one move less. *)
Definition lower_bound (goal : State) (slack : Z) (s : State) : bool :=
  (heuristic s - slack <=? 0)
  || negb (goal_within goal (Z.to_nat (heuristic s - slack - 1)) s).

(** The reading of the specification: from every valid state that moves
    lead to from [(3, 3, 1)], the heuristic is at most the minimal number of
    moves to [(0, 0, 0)]. *)
Definition admissible : Prop :=
  ∀ s d,
    (∃ k, moves k (3, 3, 1) s) → is_valid s = true →
    min_moves s (0, 0, 0) d → heuristic s ≤ Z.of_nat d.

(** * Properties *)

(** Reading the components of a loop state given as a tuple. *)
Ltac loop_simpl :=
  unfold frontier, visited, graph, calls in *; cbn [fst snd] in *.

(** Closed decidable goals, by evaluation. *)
Ltac by_evaluation := apply (bool_decide_unpack _); vm_compute; exact I.

(** ** Successor generation *)

Example get_successors_initial :
  get_successors (3, 3, 1)
  = [((3, 2, 0), (0, 1)); ((3, 1, 0), (0, 2)); ((2, 2, 0), (1, 1))].
Proof. reflexivity. Qed.

Lemma try_move_app state successors move :
  try_move state successors move
  = successors ++
      (if is_valid (move_result state move)
       then [(move_result state move, move)] else []).
Proof.
  destruct state as [[m c] b], move as [mm cm].
  unfold try_move, move_result; simpl.
  destruct (b =? 1); destruct (is_valid _); by rewrite ?app_nil_r.
Qed.

Lemma get_successors_bind state :
  get_successors state
  = possible_moves ≫= λ move,
      if is_valid (move_result state move)
      then [(move_result state move, move)] else [].
Proof.
  unfold get_successors, possible_moves. simpl.
  rewrite !try_move_app. simpl. by rewrite app_nil_r, <- !app_assoc.
Qed.

Lemma elem_of_get_successors state new_state action :
  (new_state, action) ∈ get_successors state
  ↔ action ∈ possible_moves ∧ new_state = move_result state action
    ∧ is_valid new_state = true.
Proof.
  rewrite get_successors_bind, list_elem_of_bind. split.
  - intros (move & Hin & Hmove).
    destruct (is_valid (move_result state move)) eqn:Hv.
    + apply list_elem_of_singleton in Hin. by simplify_eq.
    + by apply not_elem_of_nil in Hin.
  - intros (Hmove & -> & Hv). exists action. rewrite Hv.
    split; [apply list_elem_of_singleton|]; done.
Qed.

Lemma get_successors_length state : (length (get_successors state) ≤ 5)%nat.
Proof.
  rewrite get_successors_bind. unfold possible_moves. simpl.
  repeat (destruct (is_valid _); simpl); lia.
Qed.

Lemma is_valid_bounds m c b :
  is_valid (m, c, b) = true → 0 ≤ m ≤ 3 ∧ 0 ≤ c ≤ 3.
Proof.
  unfold is_valid.
  destruct ((0 <=? m) && (m <=? 3) && ((0 <=? c) && (c <=? 3))) eqn:Hb;
    simpl; [|done].
  intros _. apply andb_true_iff in Hb as [Hm Hc].
  apply andb_true_iff in Hm, Hc. lia.
Qed.

Lemma successor_boat s s' : successor s s' → s'.2 = 0 ∨ s'.2 = 1.
Proof.
  intros (a & Ha). apply elem_of_get_successors in Ha as (_ & -> & _).
  unfold move_result. destruct (s.2 =? 1); simpl; auto.
Qed.

Lemma successor_valid s s' : successor s s' → is_valid s' = true.
Proof. intros (a & Ha). by apply elem_of_get_successors in Ha as (_ & _ & ?). Qed.

Lemma moves_valid n s s' :
  moves n s s' → is_valid s = true → is_valid s' = true.
Proof.
  induction 1 as [|n s s1 s2 Hs _ IH]; [done|].
  intros _. apply IH. by eapply successor_valid.
Qed.

(** ** Loops *)

Section loops.
Context {C R : Type} (body : C → outcome C R).

Lemma iterate_invariant (P : C → Prop) :
  (∀ c c', P c → body c = Continue c' → P c') →
  ∀ n c, P c → P (iterate body n c).
Proof.
  intros Hstep n. induction n as [|n IH]; intros c Hc; simpl; [done|].
  destruct (body c) as [r|c'] eqn:Hb; [done|]. apply IH. by eapply Hstep.
Qed.

Lemma reaches_invariant (P : C → Prop) :
  (∀ c c', P c → body c = Continue c' → P c') →
  ∀ c c', reaches body c c' → P c → P c'.
Proof.
  intros Hstep c c' Hreach. induction Hreach as [|c1 c2 c3 Hb _ IH]; [done|].
  intros Hc. apply IH. by eapply Hstep.
Qed.

Lemma iterate_reaches n c : reaches body c (iterate body n c).
Proof.
  revert c. induction n as [|n IH]; intros c; simpl; [apply rtc_refl|].
  destruct (body c) as [r|c'] eqn:Hb; [apply rtc_refl|].
  eapply rtc_l; [exact Hb|apply IH].
Qed.

(** More fuel does not change a result. *)
Lemma while_fuel_mono n m c r :
  (n ≤ m)%nat → while body n c = Some r → while body m c = Some r.
Proof.
  revert m c. induction n as [|n IH]; intros m c Hle; simpl; [done|].
  destruct m as [|m]; [lia|]. simpl.
  destruct (body c) as [r'|c']; [done|]. apply IH. lia.
Qed.

(** A result comes from the loop state of the returning iteration. *)
Lemma while_Some n c r :
  while body n c = Some r → ∃ c', reaches body c c' ∧ body c' = Return r.
Proof.
  revert c. induction n as [|n IH]; intros c; simpl; [done|].
  destruct (body c) as [r'|c'] eqn:Hb.
  - intros [= ->]. exists c. split; [apply rtc_refl|done].
  - intros (c'' & Hreach & Hret)%IH. exists c''. split; [|done].
    by eapply rtc_l.
Qed.

(** A loop with an invariant and a measure that every iteration that goes
    on decreases returns within [measure] + 1 iterations. *)
Lemma while_terminates (P : C → Prop) (measure : C → nat) :
  (∀ c c', P c → body c = Continue c' →
           P c' ∧ (measure c' < measure c)%nat) →
  ∀ n c, P c → (measure c < n)%nat → is_Some (while body n c).
Proof.
  intros Hstep n. induction n as [|n IH]; intros c Hc Hlt; [lia|]. simpl.
  destruct (body c) as [r|c'] eqn:Hb; [by eexists|].
  destruct (Hstep c c' Hc Hb) as [Hc' Hdec]. apply IH; [done|lia].
Qed.

End loops.

(** Loops with the same body run alike. *)
Lemma iterate_ext {C R} (body body' : C → outcome C R) n c :
  (∀ c, body c = body' c) → iterate body n c = iterate body' n c.
Proof.
  intros Hext. revert c. induction n as [|n IH]; intros c; simpl; [done|].
  rewrite Hext. destruct (body' c); [done|apply IH].
Qed.

Lemma while_ext {C R} (body body' : C → outcome C R) n c :
  (∀ c, body c = body' c) → while body n c = while body' n c.
Proof.
  intros Hext. revert c. induction n as [|n IH]; intros c; simpl; [done|].
  rewrite Hext. destruct (body' c); [done|apply IH].
Qed.

Lemma reaches_ext {C R} (body body' : C → outcome C R) c c' :
  (∀ c, body c = body' c) → reaches body c c' → reaches body' c c'.
Proof.
  intros Hext. induction 1 as [|c1 c2 c3 Hb _ IH]; [apply rtc_refl|].
  eapply rtc_l; [|exact IH]. simpl. by rewrite <- Hext.
Qed.

(** ** Finite sets *)

Lemma size_difference_add (U V : gset State) (s : State) :
  s ∈ U → s ∉ V → (size (U ∖ set_add s V) < size (U ∖ V))%nat.
Proof. intros HU HV. apply subset_size. unfold set_add. set_solver. Qed.

Lemma size_add_le (U : gset State) (s : State) :
  (size ({[s]} ∪ U) ≤ S (size U))%nat.
Proof.
  rewrite size_union_alt, size_singleton.
  assert (size (U ∖ {[s]}) ≤ size U)%nat; [|lia].
  apply subseteq_size. set_solver.
Qed.

Lemma set_add_subseteq (U V : gset State) (s : State) :
  s ∈ U → V ⊆ U → set_add s V ⊆ U.
Proof. unfold set_add. set_solver. Qed.

(** ** The universe of a search *)

Lemma valid_bank_state s :
  is_valid s = true → s.2 = 0 ∨ s.2 = 1 → s ∈ bank_states.
Proof.
  destruct s as [[m c] b]. simpl. intros Hv Hb.
  pose proof (is_valid_bounds m c b Hv) as [Hm Hc].
  assert (m = 0 ∨ m = 1 ∨ m = 2 ∨ m = 3) as Hm' by lia.
  assert (c = 0 ∨ c = 1 ∨ c = 2 ∨ c = 3) as Hc' by lia.
  destruct Hm' as [-> | [-> | [-> | ->]]], Hc' as [-> | [-> | [-> | ->]]],
    Hb as [-> | ->];
    first [discriminate Hv | by apply (bool_decide_unpack _); vm_compute].
Qed.

Lemma children_universe self state path e :
  e ∈ children state path → e.1 ∈ universe self.
Proof.
  unfold children. intros ([s a] & -> & Hsa)%list_elem_of_fmap. simpl.
  unfold universe. apply elem_of_union_r, elem_of_list_to_set.
  apply valid_bank_state.
  - eapply successor_valid. by exists a.
  - eapply successor_boat. by exists a.
Qed.

Lemma children_length state path : (length (children state path) ≤ 5)%nat.
Proof. unfold children. rewrite length_fmap. apply get_successors_length. Qed.

Lemma universe_size self : (size (universe self) ≤ 21)%nat.
Proof.
  unfold universe.
  assert (size (list_to_set (C:=gset State) bank_states) = 20%nat) as Heq.
  { vm_compute. reflexivity. }
  pose proof (size_add_le (list_to_set bank_states) (initial_state self)).
  lia.
Qed.

Lemma initial_universe self : initial_state self ∈ universe self.
Proof. unfold universe. apply elem_of_union_l, elem_of_singleton. done. Qed.

Lemma universe_valid self s :
  is_valid (initial_state self) = true → s ∈ universe self →
  is_valid s = true.
Proof.
  intros Hv [->%elem_of_singleton | Hs%elem_of_list_to_set]%elem_of_union;
    [done|].
  assert (Forall (λ s, is_valid s = true) bank_states) as Hall
    by by_evaluation.
  rewrite Forall_forall in Hall. by apply Hall.
Qed.

(** ** The shared loop *)

Section search_loop_facts.
Context {F : Type} (ops : frontier_ops F) (laws : frontier_laws ops).
Context (self : MissionariesAndCannibals).

Local Abbreviation iteration := (iteration ops self).
Local Abbreviation in_universe := (in_universe ops self).
Local Abbreviation measure := (measure ops self).

Lemma foldl_visit state path l fr g :
  ∃ fr' g', foldl (visit ops state path) (fr, g) l = (fr', g')
    ∧ items ops fr'
      ≡ₚ items ops fr ++ ((λ sa : State * Action, (sa.1, path ++ [sa.2])) <$> l).
Proof.
  revert fr g. induction l as [|[s a] l IH]; intros fr g; simpl.
  - exists fr, g. by rewrite app_nil_r.
  - destruct (IH (push ops fr (s, path ++ [a]))
                 (add_edge state s (str a) g)) as (fr' & g' & -> & Hperm).
    exists fr', g'. split; [done|].
    rewrite Hperm, (push_items _ laws). simpl. apply Permutation_middle.
Qed.

Lemma search_body_iteration c : iteration c (search_body ops self c).
Proof.
  destruct c as [[[fr vis] g] cl]. unfold search_body.
  destruct (pop ops fr) as [[[state path] rest]|] eqn:Hpop.
  - destruct (decide (state = goal_state self)) as [->|Hne].
    { by eapply (it_goal ops self (fr, vis, g, cl)). }
    destruct (decide (state ∉ vis)) as [Hnew|Hseen].
    + destruct (foldl_visit state path (get_successors state) rest g)
        as (fr' & g' & -> & Hperm).
      by eapply (it_expand ops self (fr, vis, g, cl)).
    + apply dec_stable in Hseen. by eapply (it_seen ops self (fr, vis, g, cl)).
  - by apply (it_exhausted ops self (fr, vis, g, cl)).
Qed.

(** *** Every state is expanded at most once *)

Lemma calls_ok_step c c' :
  calls_ok c → search_body ops self c = Continue c' → calls_ok c'.
Proof.
  intros [Hnd Hsub] Hb. pose proof (search_body_iteration c) as Hit.
  rewrite Hb in Hit.
  inversion Hit as [| |state path rest Hpop Hne Hseen
                   |state path rest c0 Hpop Hne Hnew Hvis Hcalls Hperm];
    subst; [done|].
  split.
  - rewrite Hcalls. apply NoDup_app. split; [done|]. split.
    + intros s Hs ->%list_elem_of_singleton. by apply Hnew, Hsub.
    + apply NoDup_singleton.
  - intros s. rewrite Hcalls, Hvis. unfold set_add.
    rewrite elem_of_app, list_elem_of_singleton, elem_of_union,
      elem_of_singleton.
    intros [Hs | ->]; [right; by apply Hsub | by left].
Qed.

(** *** Termination *)

Lemma in_universe_step c c' :
  in_universe c → search_body ops self c = Continue c' →
  in_universe c' ∧ (measure c' < measure c)%nat.
Proof.
  intros [Hfr Hvis] Hb. pose proof (search_body_iteration c) as Hit.
  rewrite Hb in Hit. clear Hb. unfold in_universe, measure.
  destruct c as [[[fr vis] g] cl], c' as [[[fr' vis'] g'] cl'].
  inversion Hit as [| |state path rest Hpop Hne Hseen
                   |state path rest c0 Hpop Hne Hnew Hvis' Hcalls Hperm];
    subst; loop_simpl; subst; apply (pop_Some _ laws) in Hpop.
  - split; [split; [|done]|].
    + intros e He. apply Hfr. rewrite Hpop. by right.
    + apply Permutation_length in Hpop. rewrite Hpop. simpl length. lia.
  - assert (state ∈ universe self) as Hstate.
    { apply (Hfr (state, path)). rewrite Hpop. by left. }
    split; [split|].
    + intros e. rewrite Hperm, elem_of_app. intros [He | He].
      * apply Hfr. rewrite Hpop. by right.
      * by eapply children_universe.
    + by apply set_add_subseteq.
    + apply Permutation_length in Hpop, Hperm.
      rewrite Hperm, length_app, Hpop. simpl length.
      pose proof (children_length state path).
      pose proof (size_difference_add (universe self) vis state Hstate Hnew).
      lia.
Qed.

Lemma in_universe_init fr :
  items ops fr = [(initial_state self, [])] → in_universe (search_init fr).
Proof.
  intros Hfr. unfold in_universe, search_init. loop_simpl. rewrite Hfr. split.
  - intros e ->%list_elem_of_singleton. apply initial_universe.
  - apply empty_subseteq.
Qed.

Lemma search_in_universe fr n :
  items ops fr = [(initial_state self, [])] →
  in_universe (iterate (search_body ops self) n (search_init fr)).
Proof.
  intros Hfr. apply (iterate_invariant _ in_universe).
  - intros c c' Hc Hb. by apply (in_universe_step c c').
  - by apply in_universe_init.
Qed.

Lemma search_terminates fr :
  items ops fr = [(initial_state self, [])] →
  is_Some (while (search_body ops self) search_fuel (search_init fr)).
Proof.
  intros Hfr. apply (while_terminates _ in_universe measure).
  - apply in_universe_step.
  - by apply in_universe_init.
  - unfold measure, search_init. loop_simpl. rewrite Hfr.
    pose proof (universe_size self).
    assert (size (universe self ∖ ∅) ≤ size (universe self))%nat as Hle.
    { apply subseteq_size, subseteq_difference_l. done. }
    unfold search_fuel. simpl length. lia.
Qed.

(** The states on the frontier are valid when the initial state is. *)
Lemma search_frontier_valid fr n :
  items ops fr = [(initial_state self, [])] →
  is_valid (initial_state self) = true →
  frontier_valid ops (iterate (search_body ops self) n (search_init fr)).
Proof.
  intros Hfr Hv e He.
  destruct (search_in_universe fr n Hfr) as [Hin _].
  by apply (universe_valid self), Hin.
Qed.

End search_loop_facts.

(** ** Python containers: the frontier laws *)

Lemma list_pop_None {A} (l : list A) : list_pop l = None ↔ l = [].
Proof.
  unfold list_pop. destruct (reverse l) as [|x r] eqn:Hr.
  - apply (f_equal reverse) in Hr. rewrite reverse_involutive in Hr. by subst.
  - split; [done|]. intros ->. by rewrite reverse_nil in Hr.
Qed.

Lemma list_pop_Some {A} (l : list A) x l' :
  list_pop l = Some (x, l') ↔ l = l' ++ [x].
Proof.
  unfold list_pop. destruct (reverse l) as [|y r] eqn:Hr.
  - apply (f_equal reverse) in Hr. rewrite reverse_involutive in Hr. subst.
    split; [done|]. intros Hnil. by destruct l'.
  - apply (f_equal reverse) in Hr.
    rewrite reverse_involutive, reverse_cons in Hr. subst. split.
    + by intros [= -> ->].
    + intros [-> ->]%app_inj_tail. done.
Qed.

Lemma deque_laws : frontier_laws deque_ops.
Proof.
  split; simpl.
  - intros [|x q]; by simpl.
  - intros [|y q] x q'; simpl; [done|]. by intros [= -> ->].
  - intros q x. unfold append. by rewrite Permutation_app_comm.
Qed.

Lemma stack_laws : frontier_laws stack_ops.
Proof.
  split; simpl.
  - apply @list_pop_None.
  - intros l x l' ->%list_pop_Some. by rewrite Permutation_app_comm.
  - intros q x. unfold append. by rewrite Permutation_app_comm.
Qed.

(** *** [heapq]: the items of a heap *)

Section list_swap.
Context {A : Type} `{!Inhabited A}.

(** Writing [x] at [j] after moving the item at [j] to [i], or writing
    [x] at [i]: the same items. *)
Lemma insert_swap_perm (l : list A) (i j : nat) (x : A) :
  (i < length l)%nat → (j < length l)%nat → i ≠ j →
  <[j := x]> (<[i := l !!! j]> l) ≡ₚ <[i := x]> l.
Proof.
  intros Hi Hj Hij. apply Permutation_inj. split.
  { by rewrite !length_insert. }
  exists (λ k, if decide (k = i) then j else if decide (k = j) then i else k).
  split.
  - intros k1 k2 Hk. repeat case_decide; congruence.
  - intros k. repeat case_decide; subst.
    + rewrite (list_lookup_insert_ne _ j i) by done.
      rewrite (list_lookup_insert_eq l i) by done.
      rewrite (list_lookup_insert_ne l i j) by done.
      symmetry. by apply list_lookup_lookup_total_lt.
    + rewrite list_lookup_insert_eq by (by rewrite length_insert).
      by rewrite list_lookup_insert_eq.
    + by rewrite !list_lookup_insert_ne by done.
Qed.

End list_swap.

(** [(pos - 1) >> 1] is [(pos - 1) / 2]: the parent of [pos]. *)
Lemma shiftr_1 (n : nat) : Nat.shiftr n 1 = (n / 2)%nat.
Proof. rewrite Nat.shiftr_div_pow2. reflexivity. Qed.

Lemma parentpos_lt (pos : nat) :
  (0 < pos)%nat → (Nat.shiftr (pos - 1) 1 < pos)%nat.
Proof.
  intros Hpos. rewrite shiftr_1. apply Nat.Div0.div_lt_upper_bound. lia.
Qed.

Section heapq_items.
Context {A : Type} `{!Inhabited A} (lt : A → A → bool).

Lemma siftdown_loop_perm fuel heap newitem startpos pos heap' pos' :
  (pos < length heap)%nat →
  siftdown_loop lt fuel heap newitem startpos pos = (heap', pos') →
  length heap' = length heap ∧ (pos' < length heap)%nat
  ∧ <[pos' := newitem]> heap' ≡ₚ <[pos := newitem]> heap.
Proof.
  revert heap pos.
  induction fuel as [|fuel IH]; intros heap pos Hpos; cbn [siftdown_loop].
  { by intros [= -> ->]. }
  case_decide as Hstart; [|by intros [= -> ->]].
  destruct (lt newitem _); [|by intros [= -> ->]].
  pose proof (parentpos_lt pos) as Hparent.
  intros (Hlen & Hpos' & Hperm)%IH; [|rewrite length_insert; lia].
  rewrite length_insert in Hlen, Hpos'. split; [done|]. split; [done|].
  rewrite Hperm. apply insert_swap_perm; lia.
Qed.

Lemma siftdown_perm heap startpos pos :
  (pos < length heap)%nat → _siftdown lt heap startpos pos ≡ₚ heap.
Proof.
  intros Hpos. unfold _siftdown.
  destruct (siftdown_loop _ _ _ _ _ _) as [heap' pos'] eqn:Hloop.
  apply siftdown_loop_perm in Hloop as (_ & _ & ->); [|done].
  rewrite list_insert_id; [done|]. by apply list_lookup_lookup_total_lt.
Qed.

Lemma siftup_loop_perm fuel heap newitem pos childpos heap' pos' :
  (pos < length heap)%nat → (pos < childpos)%nat →
  siftup_loop lt fuel heap (length heap) pos childpos = (heap', pos') →
  length heap' = length heap ∧ (pos' < length heap)%nat
  ∧ <[pos' := newitem]> heap' ≡ₚ <[pos := newitem]> heap.
Proof.
  revert heap pos childpos.
  induction fuel as [|fuel IH]; intros heap pos childpos Hpos Hchild;
    cbn [siftup_loop].
  { by intros [= -> ->]. }
  case_decide as Hend; [|by intros [= -> ->]].
  set (c := if _ && _ then _ else _).
  assert ((c < length heap)%nat ∧ (pos < c)%nat) as [Hc Hpc].
  { subst c. destruct (bool_decide _) eqn:Hr; simpl.
    - apply bool_decide_eq_true in Hr. destruct (negb _); lia.
    - lia. }
  intros Hloop.
  rewrite <- (length_insert heap pos (heap !!! c)) in Hloop at 1.
  apply IH in Hloop as (Hlen & Hpos' & Hperm);
    rewrite ?length_insert in *; [|lia..].
  split; [done|]. split; [done|].
  rewrite Hperm. apply insert_swap_perm; lia.
Qed.

Lemma siftup_perm heap pos :
  (pos < length heap)%nat → _siftup lt heap pos ≡ₚ heap.
Proof.
  intros Hpos. unfold _siftup.
  destruct (siftup_loop _ _ _ _ _ _) as [heap' pos'] eqn:Hloop.
  apply (siftup_loop_perm _ _ (heap !!! pos)) in Hloop
    as (Hlen & Hpos' & Hperm); [|lia..].
  rewrite siftdown_perm by (rewrite length_insert; lia).
  rewrite Hperm, list_insert_id; [done|].
  by apply list_lookup_lookup_total_lt.
Qed.

Lemma heappush_perm heap item : heappush lt heap item ≡ₚ item :: heap.
Proof.
  unfold heappush, append. rewrite siftdown_perm.
  - by rewrite Permutation_app_comm.
  - rewrite length_app. simpl. lia.
Qed.

Lemma heappop_None heap : heappop lt heap = None ↔ heap = [].
Proof.
  unfold heappop. destruct (list_pop heap) as [[lastelt h]|] eqn:Hpop.
  - split.
    + by destruct h.
    + intros ->. by apply list_pop_Some in Hpop; destruct h.
  - by apply list_pop_None in Hpop.
Qed.

Lemma heappop_perm heap item heap' :
  heappop lt heap = Some (item, heap') → heap ≡ₚ item :: heap'.
Proof.
  unfold heappop. destruct (list_pop heap) as [[lastelt h]|] eqn:Hpop; [|done].
  apply list_pop_Some in Hpop as ->. destruct h as [|x h].
  - by intros [= -> <-].
  - intros [= <- <-]. rewrite siftup_perm by (simpl; lia). simpl.
    apply perm_skip. by rewrite Permutation_app_comm.
Qed.

End heapq_items.

Lemma heap_laws : frontier_laws heap_ops.
Proof.
  split; simpl.
  - intros heap.
    destruct (heappop entry_lt heap) as [[[[pr st] pa] h]|] eqn:Hpop.
    + split; [done|]. intros ->%fmap_nil_inv. done.
    + apply heappop_None in Hpop as ->. done.
  - intros heap x heap'.
    destruct (heappop entry_lt heap) as [[[[pr st] pa] h]|] eqn:Hpop; [|done].
    intros [= <- <-]. apply heappop_perm in Hpop. by rewrite Hpop.
  - intros heap [s p]. by rewrite heappush_perm.
Qed.

(** *** [heapq]: the order of a heap *)

Lemma parent_lt j : (0 < j)%nat → (parent j < j)%nat.
Proof. apply parentpos_lt. Qed.

Lemma parent_children j p :
  (0 < j)%nat → parent j = p ↔ (j = 2 * p + 1 ∨ j = 2 * p + 2)%nat.
Proof.
  intros Hj. unfold parent. rewrite shiftr_1.
  pose proof (Nat.div_mod_eq (j - 1) 2) as Hdiv.
  pose proof (Nat.mod_upper_bound (j - 1) 2) as Hmod.
  split.
  - intros <-. lia.
  - intros [-> | ->].
    + replace (2 * p + 1 - 1)%nat with (p * 2)%nat by lia.
      apply Nat.div_mul. done.
    + replace (2 * p + 2 - 1)%nat with (1 + p * 2)%nat by lia.
      rewrite Nat.div_add by done. reflexivity.
Qed.

Section heapq_order.
Context {A : Type} `{!Inhabited A} (lt : A → A → bool).

(** [lt] is a strict total order, as Python's [<] is on tuples of integers
    and lists of them. *)
Context (lt_irrefl : ∀ a, lt a a = false).
Context (lt_trans : ∀ a b c, lt a b = true → lt b c = true → lt a c = true).
Context (lt_total : ∀ a b, lt a b = false → lt b a = false → a = b).

Local Abbreviation le := (le lt).
Local Abbreviation heap_ordered := (heap_ordered lt).
Local Abbreviation hole_ok := (hole_ok lt).
Local Abbreviation above_children := (above_children lt).

Lemma le_refl a : le a a.
Proof. apply lt_irrefl. Qed.

Lemma lt_le a b : lt a b = true → le a b.
Proof.
  intros Hab. unfold le. destruct (lt b a) eqn:Hba; [|done].
  by rewrite <- (lt_irrefl a), (lt_trans a b a).
Qed.

Lemma le_trans a b c : le a b → le b c → le a c.
Proof.
  unfold le. intros Hba Hcb. destruct (lt c a) eqn:Hca; [|done].
  destruct (lt a b) eqn:Hab.
  - by rewrite (lt_trans c a b) in Hcb.
  - rewrite (lt_total a b Hab Hba) in Hca. congruence.
Qed.

Lemma lt_le_trans a b c : lt a b = true → le b c → le a c.
Proof. intros Hab. apply le_trans. by apply lt_le. Qed.

Lemma hole_fill h pos x :
  (pos < length h)%nat → hole_ok h pos → above_children h pos x →
  ((0 < pos)%nat → le (h !!! parent pos) x) →
  heap_ordered (<[pos := x]> h).
Proof.
  intros Hpos [Hrest Hgrand] Hchildren Hparent j. rewrite length_insert.
  intros Hj. pose proof (parent_lt j).
  destruct (decide (j = pos)) as [->|Hne].
  - rewrite list_lookup_total_insert_eq by done.
    rewrite list_lookup_total_insert_ne by lia. apply Hparent. lia.
  - rewrite (list_lookup_total_insert_ne _ pos j) by done.
    destruct (decide (parent j = pos)) as [Hp|Hp].
    + rewrite Hp, list_lookup_total_insert_eq by done. by apply Hchildren.
    + rewrite list_lookup_total_insert_ne by done. by apply Hrest.
Qed.

Lemma siftdown_loop_ordered fuel h newitem pos h' pos' :
  (pos < length h)%nat → (pos ≤ fuel)%nat →
  hole_ok h pos → above_children h pos newitem →
  siftdown_loop lt fuel h newitem 0 pos = (h', pos') →
  heap_ordered (<[pos' := newitem]> h').
Proof.
  revert h pos. induction fuel as [|fuel IH];
    intros h pos Hpos Hfuel Hhole Hchildren; cbn [siftdown_loop].
  { intros [= <- <-]. apply hole_fill; [done..|lia]. }
  case_decide as Hstart; [|intros [= <- <-]; apply hole_fill; [done..|lia]].
  fold (parent pos). destruct (lt newitem (h !!! parent pos)) eqn:Hlt;
    [|intros [= <- <-]; by apply hole_fill].
  pose proof (parent_lt pos Hstart) as Hparent.
  destruct Hhole as [Hrest Hgrand].
  assert (0 < parent pos → le (h !!! parent (parent pos)) (h !!! parent pos))%nat
    as Hup.
  { intros Hpp. pose proof (parent_lt _ Hpp). apply Hrest; lia. }
  apply IH; rewrite ?length_insert; [lia|lia| |].
  - split; intros j Hj; rewrite length_insert in Hj.
    + intros Hne Hpne. pose proof (parent_lt j).
      assert (j ≠ pos) by (by intros ->).
      rewrite (list_lookup_total_insert_ne _ pos j) by done.
      destruct (decide (parent j = pos)) as [Hp|Hp].
      * rewrite Hp, list_lookup_total_insert_eq by done. apply Hgrand; [lia|done..].
      * rewrite list_lookup_total_insert_ne by done. apply Hrest; [lia|done..].
    + intros Hp Hpp. pose proof (parent_lt _ Hpp).
      rewrite (list_lookup_total_insert_ne _ pos (parent (parent pos))) by lia.
      destruct (decide (j = pos)) as [->|Hne].
      * rewrite list_lookup_total_insert_eq by done. by apply Hup.
      * rewrite list_lookup_total_insert_ne by done.
        eapply le_trans; [by apply Hup|]. rewrite <- Hp.
        apply Hrest; [lia|done|lia].
  - intros j Hj Hp. rewrite length_insert in Hj.
    destruct (decide (j = pos)) as [->|Hne].
    + rewrite list_lookup_total_insert_eq by done. by apply lt_le.
    + rewrite list_lookup_total_insert_ne by done.
      eapply lt_le_trans; [exact Hlt|]. rewrite <- Hp.
      apply Hrest; [lia|done|lia].
Qed.

Lemma siftdown_ordered h pos :
  (pos < length h)%nat → hole_ok h pos → above_children h pos (h !!! pos) →
  heap_ordered (_siftdown lt h 0 pos).
Proof.
  intros Hpos Hhole Hchildren. unfold _siftdown.
  destruct (siftdown_loop _ _ _ _ _ _) as [h' pos'] eqn:Hloop.
  by eapply siftdown_loop_ordered.
Qed.

Lemma heap_ordered_app h item : heap_ordered (h ++ [item]) → heap_ordered h.
Proof.
  intros Hord j Hj. pose proof (parent_lt j).
  specialize (Hord j). rewrite length_app in Hord. simpl in Hord.
  rewrite !lookup_total_app_l in Hord by lia. apply Hord. lia.
Qed.

Lemma heappush_ordered h item :
  heap_ordered h → heap_ordered (heappush lt h item).
Proof.
  intros Hord. unfold heappush, append.
  replace (length (h ++ [item]) - 1)%nat with (length h)
    by (rewrite length_app; simpl; lia).
  assert (∀ j, (0 < j)%nat → parent j = length h → (length h < j)%nat) as Hleaf.
  { intros j Hj Hp%parent_children; lia. }
  apply siftdown_ordered.
  - rewrite length_app. simpl. lia.
  - split; intros j; rewrite length_app; simpl; intros Hj.
    + intros Hne Hpne. pose proof (parent_lt j).
      rewrite !lookup_total_app_l by lia. apply Hord. lia.
    + intros Hp. specialize (Hleaf j). lia.
  - intros j. rewrite length_app. simpl. intros Hj Hp.
    specialize (Hleaf j). lia.
Qed.

(** The [while childpos < endpos] loop moves the hole down to a leaf. *)
Lemma siftup_loop_hole fuel h pos h' pos' :
  (pos < length h)%nat → (length h - pos ≤ fuel)%nat → hole_ok h pos →
  siftup_loop lt fuel h (length h) pos (2 * pos + 1) = (h', pos') →
  length h' = length h ∧ (pos' < length h)%nat ∧ hole_ok h' pos'
  ∧ (length h ≤ 2 * pos' + 1)%nat.
Proof.
  revert h pos. induction fuel as [|fuel IH]; intros h pos Hpos Hfuel Hhole;
    cbn [siftup_loop]; [lia|].
  case_decide as Hend; [|intros [= <- <-]; repeat split; try apply Hhole; lia].
  set (c := if _ && _ then _ else _).
  assert ((c = 2 * pos + 1 ∨ c = 2 * pos + 2)%nat ∧ (c < length h)%nat
          ∧ ∀ j, (0 < j < length h)%nat → parent j = pos →
                 le (h !!! c) (h !!! j)) as (Hc & Hclen & Hsmall).
  { subst c. case_bool_decide as Hr; cbn [andb].
    - destruct (lt (h !!! (2 * pos + 1)%nat) (h !!! (2 * pos + 1 + 1)%nat))
        eqn:Hlt; cbn [negb].
      + split; [by left|]. split; [done|].
        intros j Hj [-> | ->]%parent_children; [apply le_refl| |lia].
        replace (2 * pos + 2)%nat with (2 * pos + 1 + 1)%nat by lia.
        by apply lt_le.
      + split; [right; lia|]. split; [done|].
        intros j Hj [-> | ->]%parent_children; [done| |lia].
        replace (2 * pos + 2)%nat with (2 * pos + 1 + 1)%nat by lia.
        apply le_refl.
    - split; [by left|]. split; [done|].
      intros j Hj [-> | ->]%parent_children; [apply le_refl|lia|lia]. }
  assert (parent c = pos) as Hpc by (apply parent_children; lia).
  destruct Hhole as [Hrest Hgrand]. intros Hloop.
  rewrite <- (length_insert h pos (h !!! c)) in Hloop at 1.
  apply IH in Hloop; rewrite ?length_insert in *; [done|lia|lia|].
  split; intros j Hj; rewrite length_insert in Hj.
  - intros Hne Hpne. pose proof (parent_lt j).
    destruct (decide (j = pos)) as [->|Hjp].
    + rewrite list_lookup_total_insert_eq by done.
      rewrite list_lookup_total_insert_ne by lia. apply Hgrand; lia.
    + rewrite (list_lookup_total_insert_ne _ pos j) by done.
      destruct (decide (parent j = pos)) as [Hp|Hp].
      * rewrite Hp, list_lookup_total_insert_eq by done. by apply Hsmall.
      * rewrite list_lookup_total_insert_ne by done. by apply Hrest.
  - intros Hp _. rewrite Hpc, list_lookup_total_insert_eq by done.
    assert (j ≠ pos) by (apply parent_children in Hp; lia).
    rewrite list_lookup_total_insert_ne by done. rewrite <- Hp.
    apply Hrest; [done|done|lia].
Qed.

Lemma siftup_ordered h :
  (0 < length h)%nat → hole_ok h 0 → heap_ordered (_siftup lt h 0).
Proof.
  intros Hlen Hhole. unfold _siftup.
  destruct (siftup_loop _ _ _ _ _ _) as [h' pos'] eqn:Hloop.
  apply siftup_loop_hole in Hloop as (Hlen' & Hpos' & [Hrest Hgrand] & Hleaf);
    [|lia|lia|done].
  assert (∀ j, (0 < j < length h')%nat → parent j ≠ pos') as Hnochild.
  { intros j Hj Hp%parent_children; lia. }
  apply siftdown_ordered; rewrite ?length_insert.
  - lia.
  - split; intros j Hj; rewrite length_insert in Hj.
    + intros Hne Hpne. rewrite !list_lookup_total_insert_ne by done.
      by apply Hrest.
    + intros Hp. by apply Hnochild in Hp.
  - intros j Hj Hp. rewrite length_insert in Hj. by apply Hnochild in Hp.
Qed.

(** The first item of a heap is a least one. *)
Lemma heap_root_least h j :
  heap_ordered h → (j < length h)%nat → le (h !!! 0%nat) (h !!! j).
Proof.
  intros Hord. induction (lt_wf j) as [j _ IH]. intros Hj.
  destruct (decide (j = 0)%nat) as [->|Hne]; [apply le_refl|].
  pose proof (parent_lt j).
  apply (le_trans _ (h !!! parent j)); [apply IH; lia|apply Hord; lia].
Qed.

Lemma heappop_ordered h item h' :
  heap_ordered h → heappop lt h = Some (item, h') →
  heap_ordered h' ∧ ∀ x, x ∈ h' → le item x.
Proof.
  intros Hord Hpop. split.
  - revert Hpop. unfold heappop.
    destruct (list_pop h) as [[lastelt h0]|] eqn:Hlast; [|done].
    apply list_pop_Some in Hlast as ->. apply heap_ordered_app in Hord.
    destruct h0 as [|x h0]; intros [= <- <-]; [done|].
    apply siftup_ordered; [simpl; lia|]. split; intros j Hj.
    + intros Hne Hpne. specialize (Hord j). simpl in Hj, Hord |- *.
      rewrite !lookup_total_cons_ne_0 in Hord |- * by done. by apply Hord.
    + lia.
  - assert (item = h !!! 0%nat) as ->.
    { revert Hpop. unfold heappop.
      destruct (list_pop h) as [[lastelt h0]|] eqn:Hlast; [|done].
      apply list_pop_Some in Hlast as ->.
      destruct h0 as [|x h0]; by intros [= <- <-]. }
    apply heappop_perm in Hpop. intros x Hx.
    assert (x ∈ h) as Hin by (rewrite Hpop; by right).
    apply list_elem_of_lookup in Hin as [j Hj].
    rewrite <- (list_lookup_total_correct _ _ _ Hj).
    apply heap_root_least; [done|]. by eapply lookup_lt_Some.
Qed.

End heapq_order.

(** *** Python's [<] on heap items is a strict total order *)

Lemma strict_total_ext {X} (lt lt' : X → X → bool) :
  (∀ a b, lt a b = lt' a b) → strict_total lt' → strict_total lt.
Proof.
  intros Hext [Hi Ht Htot]. split; intros *; rewrite ?Hext; eauto.
Qed.

Lemma Zltb_strict_total : strict_total Z.ltb.
Proof.
  split.
  - intros a. apply Z.ltb_irrefl.
  - intros a b c ?%Z.ltb_lt ?%Z.ltb_lt. apply Z.ltb_lt. lia.
  - intros a b ?%Z.ltb_ge ?%Z.ltb_ge. lia.
Qed.

Lemma st_asym {X} (lt : X → X → bool) a b :
  strict_total lt → lt a b = true → lt b a = false.
Proof.
  intros [Hi Ht _] Hab. destruct (lt b a) eqn:Hba; [|done].
  by rewrite <- (Hi a), (Ht a b a).
Qed.

Lemma lex_strict_total {X Y} `{!EqDecision X}
    (ltx : X → X → bool) (lty : Y → Y → bool) :
  strict_total ltx → strict_total lty → strict_total (lex ltx lty).
Proof.
  intros Hx Hy. split.
  - intros [x y]. unfold lex; simpl. rewrite decide_True by done.
    apply (st_irrefl _ Hy).
  - intros [x1 y1] [x2 y2] [x3 y3]. unfold lex; simpl.
    repeat case_decide; simplify_eq; try done.
    + apply (st_trans _ Hy).
    + intros Hlt12 Hlt23. by rewrite (st_asym _ _ _ Hx Hlt12) in Hlt23.
    + apply (st_trans _ Hx).
  - intros [x1 y1] [x2 y2]. unfold lex; simpl.
    destruct (decide (x1 = x2)) as [->|Hne].
    + rewrite decide_True by done. intros H1 H2.
      by rewrite (st_total _ Hy _ _ H1 H2).
    + rewrite decide_False by done. intros H1 H2.
      by destruct Hne; apply (st_total _ Hx).
Qed.

Lemma action_lt_strict_total : strict_total action_lt.
Proof. apply (lex_strict_total Z.ltb Z.ltb); apply Zltb_strict_total. Qed.

Lemma state_lt_strict_total : strict_total state_lt.
Proof.
  apply (strict_total_ext _ (lex (lex Z.ltb Z.ltb) Z.ltb)).
  - intros [[m1 c1] b1] [[m2 c2] b2]. unfold state_lt, lex; simpl.
    repeat case_decide; simplify_eq; done.
  - repeat apply lex_strict_total; apply Zltb_strict_total.
Qed.

Lemma path_lt_strict_total : strict_total path_lt.
Proof.
  pose proof action_lt_strict_total as Ha. split.
  - intros a. induction a as [|x a IH]; simpl; [done|].
    by rewrite decide_True.
  - intros a. induction a as [|x a IH]; intros [|y b] [|z c]; simpl; try done.
    repeat case_decide; simplify_eq; try done.
    + apply IH.
    + intros Hlt12 Hlt23. by rewrite (st_asym _ _ _ Ha Hlt12) in Hlt23.
    + apply (st_trans _ Ha).
  - intros a. induction a as [|x a IH]; intros [|y b]; simpl; try done.
    destruct (decide (x = y)) as [->|Hxy].
    + rewrite decide_True by done. intros H1 H2. f_equal. by apply IH.
    + rewrite decide_False by done. intros H1 H2.
      by destruct Hxy; apply (st_total _ Ha).
Qed.

Lemma entry_lt_strict_total : strict_total entry_lt.
Proof.
  apply (strict_total_ext _ (lex (lex Z.ltb state_lt) path_lt)).
  - intros [[p1 s1] l1] [[p2 s2] l2]. unfold entry_lt, lex; simpl.
    repeat case_decide; simplify_eq; done.
  - repeat apply lex_strict_total;
      auto using Zltb_strict_total, state_lt_strict_total, path_lt_strict_total.
Qed.

(** ** The three searches *)

(** Each loop is the shared loop at its frontier. *)
Lemma bfs_body_search self c : bfs_body self c = search_body deque_ops self c.
Proof. reflexivity. Qed.

Lemma dfs_body_search self c : dfs_body self c = search_body stack_ops self c.
Proof. reflexivity. Qed.

Lemma astar_body_search self c :
  astar_body self c = search_body heap_ops self c.
Proof.
  destruct c as [[[pq vis] g] cl]. unfold astar_body, search_body. simpl.
  by destruct (heappop entry_lt pq) as [[[[pr st] pa] h]|].
Qed.

Lemma search_expanded_once {F} (ops : frontier_ops F) self fr n :
  frontier_laws ops →
  expanded_once (search_body ops self) (search_init fr) n.
Proof.
  intros laws. unfold expanded_once.
  apply (iterate_invariant _ (calls_ok)).
  - intros c c'. by apply calls_ok_step.
  - split; [apply NoDup_nil_2|]. intros s Hs. by apply elem_of_nil in Hs.
Qed.

(** C7: in a run of [breadth_first_search], [depth_first_search] or
    [a_star_search], no state is expanded twice: after any number of
    iterations the arguments of the calls of [get_successors] made so far
    are pairwise distinct. *)
Theorem no_state_expanded_twice (self : MissionariesAndCannibals) (n : nat) :
  expanded_once (bfs_body self) (bfs_init self) n
  ∧ expanded_once (dfs_body self) (dfs_init self) n
  ∧ expanded_once (astar_body self) (astar_init self) n.
Proof.
  split; [|split].
  - apply (search_expanded_once deque_ops), deque_laws.
  - apply (search_expanded_once stack_ops), stack_laws.
  - unfold expanded_once.
    rewrite (iterate_ext _ (search_body heap_ops self))
      by apply astar_body_search.
    apply (search_expanded_once heap_ops), heap_laws.
Qed.

(** *** Valid states *)

(** C10: from a state whose boat component is 0 or 1, every pair
    [(new_state, action)] that [get_successors] returns has a valid
    [new_state] with the boat on the other bank and an [action] among the
    five moves; so from a valid state every state that moves lead to is
    valid, and so is every state that a search started there has on its
    frontier. *)
Theorem get_successors_valid (m c b : Z) (Hb : b = 0 ∨ b = 1) :
  (∀ new_state action,
     (new_state, action) ∈ get_successors (m, c, b) →
     is_valid new_state = true ∧ new_state.2 = 1 - b
     ∧ action ∈ [(1, 0); (2, 0); (0, 1); (0, 2); (1, 1)])
  ∧ (is_valid (m, c, b) = true →
     (∀ n s', moves n (m, c, b) s' → is_valid s' = true)
     ∧ ∀ goal n,
         let self := {| initial_state := (m, c, b); goal_state := goal |} in
         frontier_valid deque_ops (iterate (bfs_body self) n (bfs_init self))
         ∧ frontier_valid stack_ops
             (iterate (dfs_body self) n (dfs_init self))
         ∧ frontier_valid heap_ops
             (iterate (astar_body self) n (astar_init self))).
Proof.
  split.
  - intros new_state action (Hmove & -> & Hv)%elem_of_get_successors.
    split; [done|]. split; [|done].
    unfold move_result; simpl. destruct Hb as [-> | ->]; reflexivity.
  - intros Hv. split.
    + intros n s' Hmoves. by eapply moves_valid.
    + intros goal n self. split; [|split].
      * by apply (search_frontier_valid deque_ops deque_laws self).
      * by apply (search_frontier_valid stack_ops stack_laws self).
      * rewrite (iterate_ext _ (search_body heap_ops self))
          by apply astar_body_search.
        by apply (search_frontier_valid heap_ops heap_laws self).
Qed.

Lemma get_successors_valid_witness :
  (∀ new_state action,
     (new_state, action) ∈ get_successors (3, 3, 1) →
     is_valid new_state = true ∧ new_state.2 = 1 - 1
     ∧ action ∈ [(1, 0); (2, 0); (0, 1); (0, 2); (1, 1)])
  ∧ (is_valid (3, 3, 1) = true →
     (∀ n s', moves n (3, 3, 1) s' → is_valid s' = true)
     ∧ ∀ goal n,
         let self := {| initial_state := (3, 3, 1); goal_state := goal |} in
         frontier_valid deque_ops (iterate (bfs_body self) n (bfs_init self))
         ∧ frontier_valid stack_ops
             (iterate (dfs_body self) n (dfs_init self))
         ∧ frontier_valid heap_ops
             (iterate (astar_body self) n (astar_init self))).
Proof. apply (get_successors_valid 3 3 1). right. reflexivity. Defined.

(** *** The return value *)

Lemma search_returns_normally {F} (ops : frontier_ops F) self fr :
  frontier_laws ops →
  items ops fr = [(initial_state self, [])] →
  returns_normally ops (search_body ops self) (search_init fr)
    (while (search_body ops self) search_fuel (search_init fr)).
Proof.
  intros laws Hfr.
  destruct (search_terminates ops laws self fr Hfr) as [[sol g] Hwhile].
  destruct (while_Some _ _ _ _ Hwhile) as (c & Hreach & Hret).
  exists sol, g, c. split; [done|]. split; [done|]. split; [done|].
  pose proof (search_body_iteration ops laws self c) as Hit.
  rewrite Hret in Hit.
  inversion Hit as [Hpop| path rest Hpop | |]; subst.
  - split; [|done]. intros _. by apply (pop_None _ laws).
  - split; [done|]. intros Hnil. apply (pop_None _ laws) in Hnil. congruence.
Qed.

(** C8: each search terminates and returns a pair; when the frontier is
    exhausted (no goal state was popped) the solution component of the pair
    is [None], and only then. *)
Theorem exhausted_frontier_returns_None (self : MissionariesAndCannibals) :
  returns_normally deque_ops (bfs_body self) (bfs_init self)
    (breadth_first_search search_fuel self)
  ∧ returns_normally stack_ops (dfs_body self) (dfs_init self)
      (depth_first_search search_fuel self)
  ∧ returns_normally heap_ops (astar_body self) (astar_init self)
      (a_star_search search_fuel self).
Proof.
  split; [|split].
  - exact (search_returns_normally deque_ops self _ deque_laws eq_refl).
  - exact (search_returns_normally stack_ops self _ stack_laws eq_refl).
  - destruct (search_returns_normally heap_ops self
                [(heuristic (initial_state self), initial_state self, [])]
                heap_laws eq_refl) as (sol & g & c & Hwhile & Hreach & Hret & Hsol).
    exists sol, g, c. split; [|split; [|split]].
    + unfold a_star_search. rewrite <- Hwhile.
      apply while_ext, astar_body_search.
    + eapply reaches_ext; [|exact Hreach]. intros c0.
      symmetry. apply astar_body_search.
    + by rewrite astar_body_search.
    + done.
Qed.

Example no_goal_None :
  fst <$> breadth_first_search search_fuel no_goal = Some None
  ∧ fst <$> depth_first_search search_fuel no_goal = Some None
  ∧ fst <$> a_star_search search_fuel no_goal = Some None.
Proof. by vm_compute. Qed.

(** *** The goal test *)

Lemma search_goal_tested_at_pop {F} (ops : frontier_ops F) self c :
  frontier_laws ops →
  goal_tested_at_pop ops self c (search_body ops self c).
Proof.
  intros laws. destruct (search_body_iteration ops laws self c)
    as [Hpop|path rest Hpop|state path rest Hpop Hne Hseen
       |state path rest c' Hpop Hne Hnew Hvis Hcalls Hperm]; simpl.
  - done.
  - by exists rest.
  - exists state, path, rest. auto.
  - exists state, path, rest. split; [done|]. split; [done|]. right.
    intros s a Hsa. rewrite Hperm. apply elem_of_app. right.
    unfold children. apply list_elem_of_fmap. by exists (s, a).
Qed.

(** C5: in each search the goal test is on the state that is popped: a
    path is returned only for a popped entry whose state is the goal state,
    and an iteration that pops another state goes on, with every successor
    of an expanded state put on the frontier, a goal state too. *)
Theorem goal_test_at_pop (self : MissionariesAndCannibals)
    (c : loop_state (list (State * Path))) (c' : loop_state (list Entry)) :
  goal_tested_at_pop deque_ops self c (bfs_body self c)
  ∧ goal_tested_at_pop stack_ops self c (dfs_body self c)
  ∧ goal_tested_at_pop heap_ops self c' (astar_body self c').
Proof.
  split; [|split].
  - apply (search_goal_tested_at_pop deque_ops), deque_laws.
  - apply (search_goal_tested_at_pop stack_ops), stack_laws.
  - rewrite astar_body_search.
    apply (search_goal_tested_at_pop heap_ops), heap_laws.
Qed.

(** An iteration that pops a state that is neither the goal state nor in
    the visited set goes on, with every child on the next frontier. *)
Lemma expansion_inserts {F} (ops : frontier_ops F) self c state path rest :
  frontier_laws ops →
  pop ops (frontier c) = Some ((state, path), rest) →
  state ≠ goal_state self → state ∉ visited c →
  ∃ c', search_body ops self c = Continue c'
        ∧ ∀ child, child ∈ children state path → child ∈ items ops (frontier c').
Proof.
  intros laws Hpop Hne Hnew.
  destruct (search_body_iteration ops laws self c)
    as [Hpop'|path' rest' Hpop'|state' path' rest' Hpop' Hne' Hseen
       |state' path' rest' c' Hpop' Hne' Hnew' Hvis Hcalls Hperm];
    rewrite Hpop in Hpop'; simplify_eq.
  exists c'. split; [done|]. intros child Hchild.
  rewrite Hperm. apply elem_of_app. by right.
Qed.

(** The goal state is put on the queue, not returned, by the iteration of
    [breadth_first_search] that expands [(0, 2, 1)], the 26th. *)
Example bfs_goal_enqueued :
  let c := iterate (bfs_body problem) 25 (bfs_init problem) in
  ∃ path rest c',
    popleft (frontier c) = Some (((0, 2, 1), path), rest)
    ∧ ((0, 0, 0), (0, 2)) ∈ get_successors (0, 2, 1)
    ∧ bfs_body problem c = Continue c'
    ∧ ((0, 0, 0), path ++ [(0, 2)]) ∈ frontier c'.
Proof.
  intros c.
  destruct (popleft (frontier c)) as [[[state path] rest]|] eqn:Hpop;
    [|by vm_compute in Hpop].
  assert (state = (0, 2, 1)) as ->.
  { apply (f_equal (λ o, (λ e : State * Path * _, e.1.1) <$> o)) in Hpop.
    vm_compute in Hpop. by simplify_eq. }
  destruct (expansion_inserts deque_ops problem c (0, 2, 1) path rest
              deque_laws Hpop) as (c' & Hbody & Hin).
  { done. }
  { by_evaluation. }
  exists path, rest, c'. split; [done|]. split; [by_evaluation|].
  split; [done|]. apply (Hin ((0, 0, 0), path ++ [(0, 2)])).
  unfold children. apply list_elem_of_fmap. exists ((0, 0, 0), (0, 2)).
  split; [done|by_evaluation].
Qed.

(** *** Duplicates *)

Lemma search_filtered_at_pop {F} (ops : frontier_ops F) self c :
  frontier_laws ops → filtered_at_pop ops c (search_body ops self c).
Proof.
  intros laws. destruct (search_body_iteration ops laws self c)
    as [Hpop|path rest Hpop|state path rest Hpop Hne Hseen
       |state path rest c' Hpop Hne Hnew Hvis Hcalls Hperm]; simpl.
  - done.
  - done.
  - exists state, path, rest. split; [done|]. by left.
  - exists state, path, rest. split; [done|]. by right.
Qed.

(** C4, as the code has it: a search puts every successor of the state it
    expands on the frontier, whether or not the successor is in the visited
    set or on the frontier already; the visited set is consulted when an
    entry is popped, and an entry whose state is in it is dropped without
    being expanded. *)
Theorem duplicates_filtered_at_pop (self : MissionariesAndCannibals)
    (c : loop_state (list (State * Path))) (c' : loop_state (list Entry)) :
  filtered_at_pop deque_ops c (bfs_body self c)
  ∧ filtered_at_pop stack_ops c (dfs_body self c)
  ∧ filtered_at_pop heap_ops c' (astar_body self c').
Proof.
  split; [|split].
  - apply (search_filtered_at_pop deque_ops), deque_laws.
  - apply (search_filtered_at_pop stack_ops), stack_laws.
  - rewrite astar_body_search.
    apply (search_filtered_at_pop heap_ops), heap_laws.
Qed.

(** C4 fails as stated: the second iteration of each search puts
    [(3, 3, 1)] on the frontier, a state that is in the visited set. *)
Lemma seen_child_is_inserted :
  ¬ seen_child_not_inserted deque_ops (bfs_body problem) (bfs_init problem)
  ∧ ¬ seen_child_not_inserted stack_ops (dfs_body problem) (dfs_init problem)
  ∧ ¬ seen_child_not_inserted heap_ops (astar_body problem)
        (astar_init problem).
Proof.
  split; [|split]; intros Hclaim.
  - set (c := iterate (bfs_body problem) 1 (bfs_init problem)).
    destruct (expansion_inserts deque_ops problem c (3, 2, 0) [(0, 1)]
                [((3, 1, 0), [(0, 2)]); ((2, 2, 0), [(1, 1)])] deque_laws)
      as (c' & Hbody & Hin);
      [vm_compute; reflexivity|done|by_evaluation|].
    apply (Hclaim c c' (3, 2, 0) [(0, 1)]
             [((3, 1, 0), [(0, 2)]); ((2, 2, 0), [(1, 1)])]
             ((3, 3, 1), [(0, 1); (0, 1)])).
    + apply iterate_reaches.
    + vm_compute; reflexivity.
    + done.
    + by_evaluation.
    + left. by_evaluation.
    + apply Hin. by_evaluation.
  - set (c := iterate (dfs_body problem) 1 (dfs_init problem)).
    destruct (expansion_inserts stack_ops problem c (2, 2, 0) [(1, 1)]
                [((3, 2, 0), [(0, 1)]); ((3, 1, 0), [(0, 2)])] stack_laws)
      as (c' & Hbody & Hin);
      [vm_compute; reflexivity|done|by_evaluation|].
    apply (Hclaim c c' (2, 2, 0) [(1, 1)]
             [((3, 2, 0), [(0, 1)]); ((3, 1, 0), [(0, 2)])]
             ((3, 3, 1), [(1, 1); (1, 1)])).
    + apply iterate_reaches.
    + vm_compute; reflexivity.
    + done.
    + by_evaluation.
    + left. by_evaluation.
    + apply Hin. by_evaluation.
  - set (c := iterate (astar_body problem) 1 (astar_init problem)).
    destruct (expansion_inserts heap_ops problem c (2, 2, 0) [(1, 1)]
                [(5, (3, 1, 0), [(0, 2)]); (6, (3, 2, 0), [(0, 1)])] heap_laws)
      as (c' & Hbody & Hin);
      [vm_compute; reflexivity|done|by_evaluation|].
    apply (Hclaim c c' (2, 2, 0) [(1, 1)]
             [(5, (3, 1, 0), [(0, 2)]); (6, (3, 2, 0), [(0, 1)])]
             ((3, 3, 1), [(1, 1); (1, 1)])).
    + apply iterate_reaches.
    + vm_compute; reflexivity.
    + by rewrite astar_body_search.
    + by_evaluation.
    + left. by_evaluation.
    + apply Hin. by_evaluation.
Qed.

(** *** The priority queue of [a_star_search] *)

Lemma entry_heappush_ordered h e :
  heap_ordered entry_lt h → heap_ordered entry_lt (heappush entry_lt h e).
Proof.
  pose proof entry_lt_strict_total as [Hi Ht Htot].
  by apply heappush_ordered.
Qed.

Lemma foldl_astar_visit_ordered state path l pq g :
  heap_ordered entry_lt pq →
  heap_ordered entry_lt (foldl (astar_visit state path) (pq, g) l).1.
Proof.
  revert pq g. induction l as [|[s a] l IH]; intros pq g Hord; simpl; [done|].
  by apply IH, entry_heappush_ordered.
Qed.

Lemma astar_body_ordered self c c' :
  heap_ordered entry_lt (frontier c) → astar_body self c = Continue c' →
  heap_ordered entry_lt (frontier c').
Proof.
  pose proof entry_lt_strict_total as [Hi Ht Htot].
  destruct c as [[[pq vis] g] cl]. unfold astar_body, frontier. simpl.
  intros Hord.
  destruct (heappop entry_lt pq) as [[[[pr state] path] rest]|] eqn:Hpop;
    [|done].
  apply (heappop_ordered entry_lt Hi Ht Htot) in Hpop as [Hrest _]; [|done].
  case_decide; [done|]. case_decide.
  - pose proof (foldl_astar_visit_ordered state path (get_successors state)
                  rest g Hrest) as Hfold.
    destruct (foldl _ _ _) as [pq' g']. by intros [= <-].
  - by intros [= <-].
Qed.

Lemma astar_frontier_ordered self n :
  heap_ordered entry_lt (frontier (iterate (astar_body self) n (astar_init self))).
Proof.
  apply (iterate_invariant _ (λ c, heap_ordered entry_lt (frontier c))).
  - intros c c'. apply astar_body_ordered.
  - intros j. unfold astar_init, frontier. simpl. lia.
Qed.

(** C6 fails as stated: the first iteration of [a_star_search] pushes
    [(3, 1, 0)] and then [(2, 2, 0)], both of priority 5, and the second
    iteration pops [(2, 2, 0)], the one pushed last. *)
Lemma ties_not_by_insertion_order :
  first_entries = entry_of <$> children (3, 3, 1) []
  ∧ frontier (iterate (astar_body problem) 1 (astar_init problem))
    = foldl (heappush entry_lt) [] first_entries
  ∧ ¬ ties_by_insertion_order first_entries.
Proof.
  split; [reflexivity|]. split; [vm_compute; reflexivity|].
  intros Hclaim.
  apply (Hclaim 1%nat 2%nat (5, (3, 1, 0), [(0, 2)]) (5, (2, 2, 0), [(1, 1)])
           (5, (2, 2, 0), [(1, 1)])
           [(5, (3, 1, 0), [(0, 2)]); (6, (3, 2, 0), [(0, 1)])]);
    first [reflexivity | lia | vm_compute; reflexivity].
Qed.

(** C6, as the code has it: the entry that [a_star_search] pops is a least
    entry of the priority queue in Python's order of the tuples
    [(priority, state, path)]: no other entry has a smaller priority, and
    among entries of equal priority none has a smaller state, or the same
    state and a smaller path. Ties are broken by the state and the path,
    not by the order of insertion. *)
Theorem astar_pops_least_tuple (self : MissionariesAndCannibals) (n : nat)
    (e e' : Entry) (rest : list Entry)
    (Hpop : heappop entry_lt
              (frontier (iterate (astar_body self) n (astar_init self)))
            = Some (e, rest))
    (Hrest : e' ∈ rest) :
  entry_lt e' e = false
  ∧ e.1.1 ≤ e'.1.1
  ∧ (e'.1.1 = e.1.1 →
     state_lt e'.1.2 e.1.2 = false
     ∧ (e'.1.2 = e.1.2 → path_lt e'.2 e.2 = false)).
Proof.
  pose proof entry_lt_strict_total as [Hi Ht Htot].
  apply (heappop_ordered entry_lt Hi Ht Htot) in Hpop as [_ Hleast];
    [|apply astar_frontier_ordered].
  specialize (Hleast e' Hrest). unfold le in Hleast.
  split; [done|]. revert Hleast. unfold entry_lt.
  destruct (decide (e'.1.1 = e.1.1)) as [Hp|Hp].
  - destruct (decide (e'.1.2 = e.1.2)) as [Hs|Hs]; intros Hlt.
    + split; [lia|]. intros _. rewrite Hs.
      split; [apply (st_irrefl _ state_lt_strict_total)|done].
    + split; [lia|]. intros _. split; [done|]. by intros ?.
  - intros Hlt%Z.ltb_ge. split; [lia|]. by intros ?.
Qed.

Lemma astar_pops_least_tuple_witness :
  heappop entry_lt (frontier (iterate (astar_body problem) 1 (astar_init problem)))
  = Some ((5, (2, 2, 0), [(1, 1)]),
          [(5, (3, 1, 0), [(0, 2)]); (6, (3, 2, 0), [(0, 1)])])
  ∧ entry_lt (5, (3, 1, 0), [(0, 2)]) (5, (2, 2, 0), [(1, 1)]) = false
  ∧ 5 ≤ 5
  ∧ (5 = 5 →
     state_lt (3, 1, 0) (2, 2, 0) = false
     ∧ ((3, 1, 0) = (2, 2, 0) → path_lt [(0, 2)] [(1, 1)] = false)).
Proof.
  assert (heappop entry_lt
            (frontier (iterate (astar_body problem) 1 (astar_init problem)))
          = Some ((5, (2, 2, 0), [(1, 1)]),
                  [(5, (3, 1, 0), [(0, 2)]); (6, (3, 2, 0), [(0, 1)])]))
    as Hpop by (vm_compute; reflexivity).
  split; [exact Hpop|].
  apply (astar_pops_least_tuple problem 1 (5, (2, 2, 0), [(1, 1)])
           (5, (3, 1, 0), [(0, 2)]) _ Hpop).
  apply elem_of_cons. by left.
Defined.

(** ** Distances in the state space *)

Lemma follow_moves s path s' :
  follow s path = Some s' → moves (length path) s s'.
Proof.
  revert s. induction path as [|a path IH]; intros s; simpl.
  - intros [= ->]. constructor.
  - case_bool_decide as Hin; [|done]. intros Hf%IH.
    econstructor; [|exact Hf]. by exists a.
Qed.

Lemma goal_within_moves goal k s n :
  moves k s goal → (k ≤ n)%nat → goal_within goal n s = true.
Proof.
  intros Hmoves. revert n.
  induction Hmoves as [s|k s s' s'' [a Ha] _ IH]; intros n Hle.
  - destruct n; simpl; by rewrite bool_decide_eq_true_2.
  - destruct n as [|n]; [lia|]. simpl. apply orb_true_iff. right.
    apply existsb_exists. exists (s', a). split.
    + by apply list_elem_of_In.
    + apply IH. lia.
Qed.

Lemma goal_within_sound goal n s :
  goal_within goal n s = true → ∃ k, (k ≤ n)%nat ∧ moves k s goal.
Proof.
  revert s. induction n as [|n IH]; intros s; simpl.
  - rewrite orb_false_r. intros ->%bool_decide_eq_true.
    exists 0%nat. split; [done|constructor].
  - intros [->%bool_decide_eq_true | Hex]%orb_true_iff.
    + exists 0%nat. split; [lia|constructor].
    + apply existsb_exists in Hex as ([s' a] & Hin%list_elem_of_In & Hgoal).
      apply IH in Hgoal as (k & Hle & Hmoves).
      exists (S k). split; [lia|]. econstructor; [|exact Hmoves]. by exists a.
Qed.

Lemma lower_bound_moves goal slack s d :
  lower_bound goal slack s = true → moves d s goal →
  heuristic s - slack ≤ Z.of_nat d.
Proof.
  unfold lower_bound. intros [Hle%Z.leb_le | Hnot]%orb_true_iff Hmoves; [lia|].
  apply negb_true_iff in Hnot.
  destruct (decide (d ≤ Z.to_nat (heuristic s - slack - 1))%nat) as [Hd|Hd].
  - by rewrite (goal_within_moves _ _ _ _ Hmoves Hd) in Hnot.
  - lia.
Qed.

Lemma reachable_states_closed s s' :
  s ∈ reachable_states → successor s s' → s' ∈ reachable_states.
Proof.
  intros Hs [a Ha].
  assert (Forall (λ s, Forall (λ sa : State * Action, sa.1 ∈ reachable_states)
                         (get_successors s)) reachable_states) as Hclosed.
  { by_evaluation. }
  rewrite Forall_forall in Hclosed. specialize (Hclosed s Hs).
  rewrite Forall_forall in Hclosed. exact (Hclosed (s', a) Ha).
Qed.

Lemma moves_reachable k s s' :
  moves k s s' → s ∈ reachable_states → s' ∈ reachable_states.
Proof.
  induction 1 as [|k s s1 s2 Hs _ IH]; [done|].
  intros Hin. apply IH. by eapply reachable_states_closed.
Qed.

(** C3 fails as stated: [(1, 1, 1)] is ten moves from [(3, 3, 1)] and one
    move, [(1, 1)], from the goal state, and its heuristic is 2. *)
Lemma heuristic_not_admissible : ¬ admissible.
Proof.
  intros Hadm. specialize (Hadm (1, 1, 1) 1%nat).
  assert (heuristic (1, 1, 1) ≤ Z.of_nat 1) as Hle; [|by vm_compute in Hle].
  apply Hadm.
  - exists 10%nat.
    apply (follow_moves _ [(0, 2); (0, 1); (0, 2); (0, 1); (2, 0);
                           (1, 1); (2, 0); (0, 1); (0, 2); (1, 0)]).
    vm_compute; reflexivity.
  - reflexivity.
  - split.
    + apply (follow_moves _ [(1, 1)]). vm_compute; reflexivity.
    + intros n Hn. destruct n; [by inversion Hn|lia].
Qed.

(** C3, as the code has it: from every state that moves lead to from
    [(3, 3, 1)], [m + c] is at most one more than the minimal number of moves
    to [(0, 0, 0)]; it is at most that number except at [(1, 1, 1)] and
    [(0, 2, 1)], two people one move from the goal. *)
Theorem heuristic_bound (s : State) (d k : nat)
    (Hreach : moves k (3, 3, 1) s)
    (Hmin : min_moves s (0, 0, 0) d) :
  heuristic s ≤ Z.of_nat d + 1
  ∧ (s ≠ (1, 1, 1) → s ≠ (0, 2, 1) → heuristic s ≤ Z.of_nat d).
Proof.
  destruct Hmin as [Hmoves _].
  assert (s ∈ reachable_states) as Hs.
  { eapply moves_reachable; [exact Hreach|by_evaluation]. }
  assert (Forall (λ s, lower_bound (0, 0, 0) 1 s = true) reachable_states)
    as Hslack by by_evaluation.
  assert (Forall (λ s, s = (1, 1, 1) ∨ s = (0, 2, 1)
                       ∨ lower_bound (0, 0, 0) 0 s = true) reachable_states)
    as Hexact by by_evaluation.
  rewrite Forall_forall in Hslack, Hexact. split.
  - pose proof (lower_bound_moves _ _ _ _ (Hslack s Hs) Hmoves). lia.
  - intros Hne1 Hne2. destruct (Hexact s Hs) as [? | [? | Hlb]]; [done..|].
    pose proof (lower_bound_moves _ _ _ _ Hlb Hmoves). lia.
Qed.

Lemma heuristic_bound_witness :
  heuristic (3, 3, 1) ≤ Z.of_nat 11 + 1
  ∧ ((3, 3, 1) ≠ (1, 1, 1) → (3, 3, 1) ≠ (0, 2, 1) →
     heuristic (3, 3, 1) ≤ Z.of_nat 11).
Proof.
  apply (heuristic_bound (3, 3, 1) 11 0).
  - constructor.
  - split.
    + apply (follow_moves _ bfs_solution). vm_compute; reflexivity.
    + intros n Hn. destruct (decide (11 ≤ n)%nat) as [|Hlt]; [done|].
      assert (goal_within (0, 0, 0) 10 (3, 3, 1) = true) as Hw.
      { eapply goal_within_moves; [exact Hn|lia]. }
      by vm_compute in Hw.
Defined.

(** ** The solutions *)

(** C1: [breadth_first_search] on the problem with initial state
    [(3, 3, 1)], goal state [(0, 0, 0)] and the five moves returns a
    solution of exactly 11 actions, which lead from the initial state to
    the goal state. *)
Theorem bfs_returns_11_actions :
  ∃ path,
    fst <$> breadth_first_search search_fuel problem = Some (Some path)
    ∧ length path = 11%nat
    ∧ follow (3, 3, 1) path = Some (0, 0, 0).
Proof.
  exists bfs_solution. split; [vm_compute; reflexivity|].
  split; [reflexivity|vm_compute; reflexivity].
Qed.

Lemma min_moves_initial : min_moves (3, 3, 1) (0, 0, 0) 11.
Proof.
  split.
  - apply (follow_moves _ bfs_solution). vm_compute; reflexivity.
  - intros n Hn. destruct (decide (11 ≤ n)%nat) as [|Hlt]; [done|].
    assert (goal_within (0, 0, 0) 10 (3, 3, 1) = true) as Hw.
    { eapply goal_within_moves; [exact Hn|lia]. }
    by vm_compute in Hw.
Qed.

(** C2: [a_star_search], whose heuristic is the number of people on the
    left bank, returns a solution as long as the one of
    [breadth_first_search]: 11 actions, the minimal number of moves from the
    initial state to the goal state. *)
Theorem astar_as_short_as_bfs :
  ∃ path path',
    fst <$> a_star_search search_fuel problem = Some (Some path)
    ∧ fst <$> breadth_first_search search_fuel problem = Some (Some path')
    ∧ length path = length path'
    ∧ follow (3, 3, 1) path = Some (0, 0, 0)
    ∧ min_moves (3, 3, 1) (0, 0, 0) (length path).
Proof.
  exists astar_solution, bfs_solution. split; [vm_compute; reflexivity|].
  split; [vm_compute; reflexivity|]. split; [reflexivity|].
  split; [vm_compute; reflexivity|apply min_moves_initial].
Qed.

(** * Further properties of the searches *)

(** ** [is_valid] and [get_successors] *)

Lemma is_valid_spec (m c b : Z) :
  is_valid (m, c, b) = true
  ↔ 0 ≤ m ≤ 3 ∧ 0 ≤ c ≤ 3 ∧ (m = 0 ∨ m = 3 ∨ m = c).
Proof.
  unfold is_valid.
  destruct (0 <=? m) eqn:H1, (m <=? 3) eqn:H2, (0 <=? c) eqn:H3,
    (c <=? 3) eqn:H4, (0 <? m) eqn:H5, (m <? c) eqn:H6,
    (0 <? 3 - m) eqn:H7, (3 - m <? 3 - c) eqn:H8; simpl;
    rewrite ?Z.leb_le, ?Z.leb_gt, ?Z.ltb_lt, ?Z.ltb_ge in *;
    split; first [done | lia].
Qed.

(** X1: a state is valid exactly when both counts are between 0 and 3 and
    the missionaries are all on one bank or as many as the cannibals; the
    boat component plays no part. *)
Theorem is_valid_iff (m c b : Z) :
  is_valid (m, c, b) = true
  ↔ 0 ≤ m ≤ 3 ∧ 0 ≤ c ≤ 3 ∧ (m = 0 ∨ m = 3 ∨ m = c).
Proof. apply is_valid_spec. Qed.

(** X2: exchanging the banks keeps validity: [(m, c)] on the left bank is
    valid exactly when [(3 - m, 3 - c)] is, whatever the boat components. *)
Theorem is_valid_banks_exchanged (m c b b' : Z) :
  is_valid (3 - m, 3 - c, b') = is_valid (m, c, b).
Proof. apply eq_true_iff_eq. rewrite !is_valid_spec. lia. Qed.

Lemma move_result_back s a :
  s.2 = 0 ∨ s.2 = 1 → move_result (move_result s a) a = s.
Proof.
  destruct s as [[m c] b], a as [mm cm]. simpl.
  intros [-> | ->]; unfold move_result; simpl; f_equal; try f_equal; lia.
Qed.

(** X3: a move can be taken back: from a valid state with the boat on a
    bank, every successor that [get_successors] returns has the state itself
    among its own successors, by the same action. *)
Theorem get_successors_reversible (s s' : State) (a : Action)
    (Hboat : s.2 = 0 ∨ s.2 = 1) (Hvalid : is_valid s = true)
    (Hsucc : (s', a) ∈ get_successors s) :
  (s, a) ∈ get_successors s'.
Proof.
  apply elem_of_get_successors in Hsucc as (Hmove & -> & Hv).
  apply elem_of_get_successors. split; [done|]. split; [|done].
  symmetry. by apply move_result_back.
Qed.

Lemma get_successors_reversible_witness :
  ((3, 3, 1), (0, 2)) ∈ get_successors (3, 1, 0).
Proof.
  apply (get_successors_reversible (3, 3, 1) (3, 1, 0) (0, 2)).
  - right. reflexivity.
  - reflexivity.
  - by_evaluation.
Defined.

Lemma bind_filter_sublist {X Y} (f : X → Y) (P : X → bool) (l : list X) :
  (l ≫= λ x, if P x then [(f x, x)] else []).*2 `sublist_of` l.
Proof.
  induction l as [|x l IH]; simpl; [done|].
  destruct (P x); simpl; by constructor.
Qed.

(** X4: [get_successors] lists the successors in the order of the five
    moves: the actions of the result are a subsequence of
    [(1,0), (2,0), (0,1), (0,2), (1,1)], without repetition, and each
    successor state is the one its action leads to. *)
Theorem get_successors_in_move_order (s : State) :
  (get_successors s).*2 `sublist_of` [(1, 0); (2, 0); (0, 1); (0, 2); (1, 1)]
  ∧ NoDup (get_successors s).*2
  ∧ ∀ s' a, (s', a) ∈ get_successors s → s' = move_result s a.
Proof.
  assert ((get_successors s).*2 `sublist_of` possible_moves) as Hsub.
  { rewrite get_successors_bind.
    apply (bind_filter_sublist (move_result s)
             (λ a, is_valid (move_result s a))). }
  split; [exact Hsub|]. split.
  - eapply sublist_NoDup; [|exact Hsub]. by_evaluation.
  - intros s' a Hin. by apply elem_of_get_successors in Hin as (_ & -> & _).
Qed.

(** ** What a search returns *)

(** A returned path leads from the initial state to the goal state by moves
    that [get_successors] offers. *)
Definition sound_result (self : MissionariesAndCannibals)
    (r : option Result) : Prop :=
  match r with
  | Some (Some path, _) =>
      follow (initial_state self) path = Some (goal_state self)
  | _ => True
  end.

(** [None] is returned only when no sequence of moves leads from the
    initial state to the goal state. *)
Definition complete_result (self : MissionariesAndCannibals)
    (r : option Result) : Prop :=
  match r with
  | Some (None, _) => ∀ n, ¬ moves n (initial_state self) (goal_state self)
  | _ => True
  end.

(** The edges of the graph are the moves from the states expanded so far,
    each labelled with its action. *)
Definition graph_of_calls {F : Type} (c : loop_state F) : Prop :=
  ∀ u v label,
    edges (graph c) !! (u, v) = Some label
    ↔ u ∈ calls c ∧ ∃ a, (v, a) ∈ get_successors u ∧ label = str a.

(** A search ends, with a path exactly when the goal state can be reached
    from the initial state. *)
Definition decides_reachability (self : MissionariesAndCannibals)
    (r : option Result) : Prop :=
  match r with
  | Some (Some _, _) => ∃ n, moves n (initial_state self) (goal_state self)
  | Some (None, _) => ∀ n, ¬ moves n (initial_state self) (goal_state self)
  | None => False
  end.

Section search_results.
Context {F : Type} (ops : frontier_ops F) (laws : frontier_laws ops).
Context (self : MissionariesAndCannibals).

(** The path of each entry leads to the state of the entry. *)
Definition entries_follow (c : loop_state F) : Prop :=
  ∀ e, e ∈ items ops (frontier c) →
       follow (initial_state self) e.2 = Some e.1.

(** The initial state and the successors of the visited states are visited
    or on the frontier; the goal state is not visited. *)
Definition frontier_closed (c : loop_state F) : Prop :=
  (initial_state self ∈ visited c
   ∨ initial_state self ∈ (items ops (frontier c)).*1)
  ∧ (∀ v w, v ∈ visited c → successor v w →
            w ∈ visited c ∨ w ∈ (items ops (frontier c)).*1)
  ∧ goal_state self ∉ visited c.

Lemma follow_snoc s path a s' :
  follow s path = Some s' → (move_result s' a, a) ∈ get_successors s' →
  follow s (path ++ [a]) = Some (move_result s' a).
Proof.
  revert s. induction path as [|b path IH]; intros s; simpl.
  - intros [= ->] Hin. by rewrite bool_decide_eq_true_2.
  - case_bool_decide; [|done]. apply IH.
Qed.

Lemma children_follow state path e :
  follow (initial_state self) path = Some state →
  e ∈ children state path →
  follow (initial_state self) e.2 = Some e.1.
Proof.
  intros Hpath ([s a] & -> & Hin)%list_elem_of_fmap. simpl.
  pose proof Hin as (_ & -> & _)%elem_of_get_successors.
  by apply follow_snoc.
Qed.

Lemma entries_follow_step c c' :
  entries_follow c → search_body ops self c = Continue c' →
  entries_follow c'.
Proof.
  intros Hc Hb. pose proof (search_body_iteration ops laws self c) as Hit.
  rewrite Hb in Hit.
  inversion Hit as [| |state path rest Hpop Hne Hseen
                   |state path rest c0 Hpop Hne Hnew Hvis Hcalls Hperm];
    subst; apply (pop_Some _ laws) in Hpop; intros e He.
  - apply Hc. rewrite Hpop. by right.
  - rewrite Hperm in He. apply elem_of_app in He as [He | He].
    + apply Hc. rewrite Hpop. by right.
    + apply (children_follow state path); [|done].
      apply (Hc (state, path)). rewrite Hpop. by left.
Qed.

Lemma search_sound fr n :
  items ops fr = [(initial_state self, [])] →
  sound_result self (while (search_body ops self) n (search_init fr)).
Proof.
  intros Hfr. unfold sound_result.
  destruct (while _ _ _) as [[[path|] g]|] eqn:Hwhile; [|done..].
  apply while_Some in Hwhile as (c & Hreach & Hret).
  assert (entries_follow c) as Hc.
  { eapply (reaches_invariant _ entries_follow); [|exact Hreach|].
    - intros c1 c2. apply entries_follow_step.
    - intros e. unfold search_init. loop_simpl. rewrite Hfr.
      by intros ->%list_elem_of_singleton. }
  pose proof (search_body_iteration ops laws self c) as Hit.
  rewrite Hret in Hit. inversion Hit as [|path' rest Hpop| |]; subst.
  apply (pop_Some _ laws) in Hpop.
  apply (Hc (goal_state self, path)). rewrite Hpop. by left.
Qed.

Lemma frontier_closed_step c c' :
  frontier_closed c → search_body ops self c = Continue c' →
  frontier_closed c'.
Proof.
  intros (Hinit & Hsucc & Hgoal) Hb.
  pose proof (search_body_iteration ops laws self c) as Hit.
  rewrite Hb in Hit. unfold frontier_closed.
  inversion Hit as [| |state path rest Hpop Hne Hseen
                   |state path rest c0 Hpop Hne Hnew Hvis Hcalls Hperm];
    subst; apply (pop_Some _ laws) in Hpop.
  - change (frontier (rest, visited c, graph c, calls c)) with rest.
    change (visited (rest, visited c, graph c, calls c)) with (visited c).
    assert (∀ w, w ∈ (items ops (frontier c)).*1 →
                 w ∈ visited c ∨ w ∈ (items ops rest).*1) as Hrest.
    { intros w. rewrite Hpop, fmap_cons, elem_of_cons.
      simpl. intros [-> | Hw]; auto. }
    split; [|split; [|done]].
    + destruct Hinit as [?|?]; auto.
    + intros v w Hv Hw. destruct (Hsucc v w Hv Hw) as [?|?]; auto.
  - assert (∀ w, w ∈ visited c → w ∈ visited c') as Hmono.
    { intros w Hw. rewrite Hvis. unfold set_add. set_solver. }
    assert (∀ w, w ∈ (items ops (frontier c)).*1 →
                 w ∈ visited c' ∨ w ∈ (items ops (frontier c')).*1) as Hrest.
    { intros w. rewrite Hpop, fmap_cons, elem_of_cons. simpl.
      rewrite Hperm, fmap_app, elem_of_app.
      intros [-> | Hw]; [left|right; by left].
      rewrite Hvis. unfold set_add. set_solver. }
    split; [|split].
    + destruct Hinit as [?|?]; auto.
    + intros v w. rewrite Hvis at 1. unfold set_add.
      intros [->%elem_of_singleton | Hv]%elem_of_union Hw.
      * right. rewrite Hperm, fmap_app, elem_of_app. right.
        destruct Hw as [a Ha]. unfold children.
        rewrite <- list_fmap_compose. apply list_elem_of_fmap.
        by exists (w, a).
      * destruct (Hsucc v w Hv Hw) as [?|?]; auto.
    + rewrite Hvis. unfold set_add. set_solver.
Qed.

Lemma frontier_closed_exhausted c n s :
  frontier_closed c → items ops (frontier c) = [] →
  moves n (initial_state self) s → s ∈ visited c.
Proof.
  intros (Hinit & Hsucc & _) Hnil. rewrite Hnil in Hinit, Hsucc.
  assert (∀ v, v ∈ visited c → moves n v s → s ∈ visited c) as Hall.
  { clear Hinit. induction n as [|n IH]; intros v Hv Hm; inversion Hm; subst.
    - done.
    - eapply IH; [|eassumption].
      destruct (Hsucc v _ Hv ltac:(eassumption)) as [?|Hw]; [done|].
      by apply elem_of_nil in Hw. }
  intros Hm. eapply Hall; [|exact Hm].
  destruct Hinit as [?|Hw]; [done|]. by apply elem_of_nil in Hw.
Qed.

Lemma search_complete fr n :
  items ops fr = [(initial_state self, [])] →
  complete_result self (while (search_body ops self) n (search_init fr)).
Proof.
  intros Hfr. unfold complete_result.
  destruct (while _ _ _) as [[[path|] g]|] eqn:Hwhile; [done| |done].
  apply while_Some in Hwhile as (c & Hreach & Hret).
  assert (frontier_closed c) as Hc.
  { eapply (reaches_invariant _ frontier_closed); [|exact Hreach|].
    - intros c1 c2. apply frontier_closed_step.
    - unfold frontier_closed, search_init. loop_simpl. rewrite Hfr.
      split; [right; by left|]. split; [|apply not_elem_of_empty].
      intros v w Hv. by apply elem_of_empty in Hv. }
  pose proof (search_body_iteration ops laws self c) as Hit.
  rewrite Hret in Hit. inversion Hit as [Hpop| | |]; subst.
  apply (pop_None _ laws) in Hpop.
  intros m Hm. destruct Hc as (? & ? & Hgoal). apply Hgoal.
  eapply frontier_closed_exhausted; [|exact Hpop|exact Hm]. done.
Qed.
Lemma search_decides fr :
  items ops fr = [(initial_state self, [])] →
  decides_reachability self
    (while (search_body ops self) search_fuel (search_init fr)).
Proof.
  intros Hfr. pose proof (search_sound fr search_fuel Hfr) as Hsound.
  pose proof (search_complete fr search_fuel Hfr) as Hcomplete.
  destruct (search_terminates ops laws self fr Hfr) as [[[path|] g] Hwhile];
    rewrite Hwhile in *; simpl in *; [|done].
  exists (length path). by apply follow_moves.
Qed.
End search_results.

(** X5: the path that [breadth_first_search], [depth_first_search] or
    [a_star_search] returns, for any initial and goal state, is a sequence
    of moves of [get_successors] that leads from the initial state to the
    goal state. *)
Theorem returned_path_leads_to_goal (self : MissionariesAndCannibals)
    (fuel : nat) :
  sound_result self (breadth_first_search fuel self)
  ∧ sound_result self (depth_first_search fuel self)
  ∧ sound_result self (a_star_search fuel self).
Proof.
  split; [|split].
  - by apply (search_sound deque_ops deque_laws).
  - by apply (search_sound stack_ops stack_laws).
  - unfold a_star_search.
    rewrite (while_ext _ (search_body heap_ops self))
      by apply astar_body_search.
    by apply (search_sound heap_ops heap_laws).
Qed.

(** X6: each search decides whether the goal state can be reached, for any
    initial and goal state: it returns a path when some sequence of moves
    leads from the initial state to the goal state, and [None] when none
    does. *)
Theorem search_decides_reachability (self : MissionariesAndCannibals) :
  decides_reachability self (breadth_first_search search_fuel self)
  ∧ decides_reachability self (depth_first_search search_fuel self)
  ∧ decides_reachability self (a_star_search search_fuel self).
Proof.
  split; [|split].
  - by apply (search_decides deque_ops deque_laws).
  - by apply (search_decides stack_ops stack_laws).
  - unfold a_star_search.
    rewrite (while_ext _ (search_body heap_ops self))
      by apply astar_body_search.
    by apply (search_decides heap_ops heap_laws).
Qed.

(** ** The transition graph *)

Lemma move_result_inj s a a' : move_result s a = move_result s a' → a = a'.
Proof.
  destruct s as [[m c] b], a as [mm cm], a' as [mm' cm'].
  unfold move_result; simpl.
  destruct (b =? 1); intros Heq; injection Heq as ? ?; f_equal; lia.
Qed.

Lemma get_successors_action s v a a' :
  (v, a) ∈ get_successors s → (v, a') ∈ get_successors s → a = a'.
Proof.
  intros (_ & Hv & _)%elem_of_get_successors
         (_ & Hv' & _)%elem_of_get_successors.
  apply (move_result_inj s). congruence.
Qed.

(** The edges that the expansion of [state] adds. *)
Definition add_edges (state : State) (g : DiGraph)
    (l : list (State * Action)) : DiGraph :=
  foldl (λ g sa, add_edge state sa.1 (str sa.2) g) g l.

Lemma edges_add_edges state l g u v label :
  (∀ w a a', (w, a) ∈ l → (w, a') ∈ l → a = a') →
  edges (add_edges state g l) !! (u, v) = Some label
  ↔ (u = state ∧ ∃ a, (v, a) ∈ l ∧ label = str a)
    ∨ (¬ (u = state ∧ ∃ a, (v, a) ∈ l) ∧ edges g !! (u, v) = Some label).
Proof.
  unfold add_edges. revert g.
  induction l as [|[w b] l IH] using rev_ind; intros g Huniq.
  - simpl. split.
    + intros Hg. right. split; [|done].
      intros (_ & a & Ha). by apply elem_of_nil in Ha.
    + intros [(_ & a & Ha & _) | [_ Hg]]; [by apply elem_of_nil in Ha|done].
  - rewrite foldl_app. simpl.
    assert (∀ w0 a a', (w0, a) ∈ l → (w0, a') ∈ l → a = a') as Huniq'.
    { intros w0 a a' Ha Ha'. apply (Huniq w0); apply elem_of_app; by left. }
    destruct (decide ((state, w) = (u, v))) as [[= <- <-]|Hne].
    + rewrite lookup_insert_eq. split.
      * intros [= <-]. left. split; [done|]. exists b. split; [|done].
        apply elem_of_app. right. by left.
      * intros [(_ & a & Ha & ->) | [Hnot _]].
        -- f_equal. f_equal. apply (Huniq w); [|done].
           apply elem_of_app. right. by left.
        -- destruct Hnot. split; [done|]. exists b.
           apply elem_of_app. right. by left.
    + rewrite lookup_insert_ne by done. rewrite (IH g Huniq').
      split.
      * intros [(-> & a & Ha & ->) | [Hnot Hg]].
        -- left. split; [done|]. exists a. split; [|done].
           apply elem_of_app. by left.
        -- right. split; [|done]. intros (-> & a & Ha).
           apply elem_of_app in Ha as [Ha | Ha%list_elem_of_singleton].
           ++ apply Hnot. eauto.
           ++ simplify_eq.
      * intros [(-> & a & Ha & ->) | [Hnot Hg]].
        -- left. split; [done|]. exists a. split; [|done].
           apply elem_of_app in Ha as [Ha | Ha%list_elem_of_singleton];
             [done|simplify_eq].
        -- right. split; [|done]. intros (-> & a & Ha). apply Hnot.
           split; [done|]. exists a. apply elem_of_app. by left.
Qed.

Section search_graph.
Context {F : Type} (ops : frontier_ops F) (self : MissionariesAndCannibals).

Lemma foldl_visit_graph state path l fr g :
  (foldl (visit ops state path) (fr, g) l).2 = add_edges state g l.
Proof.
  unfold add_edges. revert fr g.
  induction l as [|[s a] l IH]; intros fr g; simpl; [done|]. apply IH.
Qed.

(** What an iteration that goes on does to the graph and to the log of the
    calls. *)
Lemma search_body_graph c c' :
  search_body ops self c = Continue c' →
  (graph c' = graph c ∧ calls c' = calls c ∧ visited c' = visited c)
  ∨ ∃ state,
      (state ∉ visited c)
      ∧ calls c' = calls c ++ [state]
      ∧ visited c' = set_add state (visited c)
      ∧ graph c' = add_edges state (graph c) (get_successors state).
Proof.
  destruct c as [[[fr vis] g] cl]. unfold search_body.
  destruct (pop ops fr) as [[[state path] rest]|]; [|done].
  case_decide; [done|]. case_decide as Hnew.
  - pose proof (foldl_visit_graph state path (get_successors state) rest g)
      as Hg.
    destruct (foldl _ _ _) as [fr' g']. intros [= <-]. right.
    exists state. by repeat split.
  - intros [= <-]. by left.
Qed.

Definition graph_ok (c : loop_state F) : Prop :=
  graph_of_calls c ∧ ∀ s, s ∈ calls c → s ∈ visited c.

Lemma graph_ok_step c c' :
  graph_ok c → search_body ops self c = Continue c' → graph_ok c'.
Proof.
  intros [Hgraph Hcalls] Hb.
  destruct (search_body_graph c c' Hb)
    as [(Hg & Hc & Hv) | (state & Hnew & Hc & Hv & Hg)].
  - split.
    + intros u v label. rewrite Hg, Hc. apply Hgraph.
    + intros s. rewrite Hc, Hv. apply Hcalls.
  - split.
    + intros u v label. rewrite Hg, Hc, elem_of_app, list_elem_of_singleton.
      rewrite edges_add_edges by apply get_successors_action.
      rewrite (Hgraph u v label). split.
      * intros [(-> & a & Ha & ->) | [Hnot (Hu & a & Ha & ->)]]; eauto 6.
      * intros [[Hu | ->] (a & Ha & ->)]; [|eauto 6].
        right. split; [|eauto]. intros [-> _]. by apply Hnew, Hcalls.
    + intros s. rewrite Hc, Hv, elem_of_app, list_elem_of_singleton.
      unfold set_add. intros [Hs%Hcalls | ->]; set_solver.
Qed.

Lemma search_graph_of_calls fr n :
  graph_of_calls (iterate (search_body ops self) n (search_init fr)).
Proof.
  apply (iterate_invariant _ graph_ok).
  - apply graph_ok_step.
  - split.
    + intros u v label. unfold search_init, graph, calls. simpl.
      rewrite lookup_empty. split; [done|].
      intros [Hu _]. by apply elem_of_nil in Hu.
    + intros s Hs. by apply elem_of_nil in Hs.
Qed.
End search_graph.

(** X7: at every iteration of each search the edges of [graph] are exactly
    the moves out of the states expanded so far: [(u, v)] is an edge,
    labelled [str(action)], exactly when [get_successors] was called on [u]
    and returned [(v, action)]. *)
Theorem graph_records_expansions (self : MissionariesAndCannibals) (n : nat) :
  graph_of_calls (iterate (bfs_body self) n (bfs_init self))
  ∧ graph_of_calls (iterate (dfs_body self) n (dfs_init self))
  ∧ graph_of_calls (iterate (astar_body self) n (astar_init self)).
Proof.
  split; [|split].
  - apply (search_graph_of_calls deque_ops).
  - apply (search_graph_of_calls stack_ops).
  - rewrite (iterate_ext _ (search_body heap_ops self))
      by apply astar_body_search.
    apply (search_graph_of_calls heap_ops).
Qed.

(** ** Shortest paths *)

(** A returned path is as short as any sequence of moves from the initial
    state to the goal state. *)
Definition shortest_result (self : MissionariesAndCannibals)
    (r : option Result) : Prop :=
  match r with
  | Some (Some path, _) =>
      min_moves (initial_state self) (goal_state self) (length path)
  | _ => True
  end.

(** The queue of [breadth_first_search] at level [L]: paths of length [L],
    then paths of length [L + 1]; the states fewer than [L] moves away are
    visited, those [L] moves away are visited or on the queue with a path
    of length [L]. *)
Definition bfs_level (self : MissionariesAndCannibals) (L : nat)
    (c : loop_state (list (State * Path))) : Prop :=
  (∃ q1 q2, frontier c = q1 ++ q2
            ∧ Forall (λ e : State * Path, length e.2 = L) q1
            ∧ Forall (λ e : State * Path, length e.2 = S L) q2)
  ∧ (∀ n t, (n < L)%nat → moves n (initial_state self) t → t ∈ visited c)
  ∧ (∀ t, moves L (initial_state self) t →
          t ∈ visited c ∨ ∃ p, (t, p) ∈ frontier c ∧ length p = L)
  ∧ (∀ v w, v ∈ visited c → successor v w →
            w ∈ visited c ∨ w ∈ (frontier c).*1)
  ∧ goal_state self ∉ visited c.

Lemma moves_snoc_inv n s t :
  moves (S n) s t → ∃ u, moves n s u ∧ successor u t.
Proof.
  revert s. induction n as [|n IH]; intros s Hm;
    inversion Hm as [|? ? s1 ? Hs Hm']; subst.
  - inversion Hm'; subst. exists s. split; [constructor|done].
  - apply IH in Hm' as (u & Hu & Hut). exists u. split; [|done].
    by econstructor.
Qed.

Lemma foldl_bfs_visit state path l queue g :
  (foldl (bfs_visit state path) (queue, g) l).1
  = queue ++ ((λ sa : State * Action, (sa.1, path ++ [sa.2])) <$> l).
Proof.
  revert queue g. induction l as [|[s a] l IH]; intros queue g; simpl.
  - by rewrite app_nil_r.
  - unfold append. rewrite IH. by rewrite <- app_assoc.
Qed.

(** The two ways an iteration of [breadth_first_search] goes on. *)
Lemma bfs_body_Continue self c c' :
  bfs_body self c = Continue c' →
  ∃ state path rest,
    frontier c = (state, path) :: rest ∧ state ≠ goal_state self
    ∧ ((state ∈ visited c ∧ frontier c' = rest ∧ visited c' = visited c)
       ∨ ((state ∉ visited c) ∧ frontier c' = rest ++ children state path
          ∧ visited c' = set_add state (visited c))).
Proof.
  destruct c as [[[q vis] g] cl]. unfold bfs_body.
  destruct q as [|[state path] rest]; simpl; [done|].
  case_decide as Hgoal; [done|]. case_decide as Hnew.
  - pose proof (foldl_bfs_visit state path (get_successors state) rest g)
      as Hq.
    destruct (foldl _ _ _) as [q' g']. simpl in Hq. intros [= <-].
    exists state, path, rest. split; [done|]. split; [done|]. right.
    by repeat split.
  - intros [= <-]. exists state, path, rest. split; [done|].
    split; [done|]. left. by split.
Qed.

Lemma bfs_level_advance self L c :
  bfs_level self L c →
  Forall (λ e : State * Path, length e.2 = S L) (frontier c) →
  bfs_level self (S L) c.
Proof.
  intros (_ & Hbelow & Hat & Hsucc & Hgoal) Hall.
  rewrite Forall_forall in Hall.
  assert (∀ n t, (n < S L)%nat → moves n (initial_state self) t →
                 t ∈ visited c) as Hbelow'.
  { intros n t Hn Hm. destruct (decide (n = L)) as [->|Hne].
    - destruct (Hat t Hm) as [?|(p & Hp & Hlen)]; [done|].
      apply Hall in Hp. simpl in Hp. lia.
    - apply (Hbelow n); [lia|done]. }
  split; [|split; [done|split; [|by split]]].
  - exists (frontier c), []. rewrite app_nil_r. split; [done|].
    split; [by apply Forall_forall|constructor].
  - intros t (u & Hu & Hut)%moves_snoc_inv.
    assert (u ∈ visited c) as Hvis by (apply (Hbelow' L); [lia|done]).
    destruct (Hsucc u t Hvis Hut) as [?|Ht]; [by left|].
    right. apply list_elem_of_fmap in Ht as ([t' p] & -> & Hp).
    exists p. split; [done|]. by apply (Hall _ Hp).
Qed.

(** At a non-empty queue the level can be taken to be the length of the
    first path. *)
Lemma bfs_level_head self L c e rest :
  bfs_level self L c → frontier c = e :: rest →
  ∃ L', bfs_level self L' c ∧ length e.2 = L'.
Proof.
  intros Hlevel Hq. pose proof Hlevel as ((q1 & q2 & Hq' & H1 & H2) & _).
  destruct q1 as [|e1 q1].
  - exists (S L). simpl in Hq'. split.
    + apply bfs_level_advance; [done|]. by rewrite Hq'.
    + rewrite Hq' in Hq. subst q2. by inversion H2.
  - exists L. split; [done|]. rewrite Hq' in Hq. simpl in Hq.
    injection Hq as -> _. by apply Forall_cons in H1 as [H1 _].
Qed.

Lemma bfs_level_step self L c c' :
  bfs_level self L c → bfs_body self c = Continue c' →
  ∃ L', bfs_level self L' c'.
Proof.
  intros Hlevel (state & path & rest & Hq & Hne & Hcase)%bfs_body_Continue.
  destruct (bfs_level_head self L c _ _ Hlevel Hq) as (L' & HL & Hlen).
  clear L Hlevel. exists L'. simpl in Hlen.
  destruct HL as ((q1 & q2 & Hq' & H1 & H2) & Hbelow & Hat & Hsucc & Hgoal).
  assert (∃ q1', q1 = (state, path) :: q1' ∧ rest = q1' ++ q2)
    as (q1' & -> & ->).
  { rewrite Hq in Hq'. destruct q1 as [|e1 q1]; simpl in Hq'.
    - subst q2. inversion H2; simpl in *; lia.
    - simplify_eq. by exists q1. }
  apply Forall_cons in H1 as [_ H1].
  destruct Hcase as [(Hseen & Hq1 & Hv) | (Hnew & Hq1 & Hv)].
  - rewrite Hq in Hat, Hsucc. split; [|split; [|split; [|split]]].
    + exists q1', q2. by rewrite Hq1.
    + intros n t. rewrite Hv. apply Hbelow.
    + intros t Hm. rewrite Hv, Hq1.
      destruct (Hat t Hm) as [?|(p & Hp & Hlp)]; [by left|].
      apply elem_of_cons in Hp as [[= -> ->]|Hp]; [by left|right; eauto].
    + intros v w. rewrite Hv, Hq1. intros Hvis Hw.
      destruct (Hsucc v w Hvis Hw) as [?|Hin]; [by left|].
      rewrite fmap_cons in Hin. simpl in Hin.
      apply elem_of_cons in Hin as [->|Hin]; [by left|by right].
    + by rewrite Hv.
  - rewrite Hq in Hat, Hsucc.
    assert (∀ w, w ∈ visited c → w ∈ visited c') as Hmono.
    { intros w Hw. rewrite Hv. unfold set_add. set_solver. }
    assert (state ∈ visited c') as Hstate.
    { rewrite Hv. unfold set_add. set_solver. }
    split; [|split; [|split; [|split]]].
    + exists q1', (q2 ++ children state path).
      rewrite Hq1, <- app_assoc. split; [done|]. split; [done|].
      apply Forall_app. split; [done|]. unfold children.
      apply Forall_fmap, Forall_forall. intros [s a] _. simpl.
      rewrite length_app. simpl. lia.
    + intros n t Hn Hm. by apply Hmono, (Hbelow n).
    + intros t Hm. rewrite Hq1.
      destruct (Hat t Hm) as [?|(p & Hp & Hlp)]; [left; by apply Hmono|].
      apply elem_of_cons in Hp as [[= -> ->]|Hp]; [by left|].
      right. exists p. split; [|done]. apply elem_of_app. by left.
    + intros v w. rewrite Hv at 1. unfold set_add. rewrite Hq1.
      intros [->%elem_of_singleton | Hvis]%elem_of_union Hw.
      * right. rewrite fmap_app, elem_of_app. right.
        destruct Hw as [a Ha]. unfold children.
        rewrite <- list_fmap_compose. apply list_elem_of_fmap.
        by exists (w, a).
      * destruct (Hsucc v w Hvis Hw) as [?|Hin]; [left; by apply Hmono|].
        rewrite fmap_cons in Hin. simpl in Hin.
        apply elem_of_cons in Hin as [->|Hin]; [by left|].
        right. rewrite fmap_app, elem_of_app. by left.
    + rewrite Hv. unfold set_add. set_solver.
Qed.

Lemma bfs_level_init self : bfs_level self 0 (bfs_init self).
Proof.
  unfold bfs_init, bfs_level, frontier, visited. simpl.
  split; [|split; [|split; [|split]]].
  - exists [(initial_state self, [])], []. by repeat constructor.
  - intros n t Hn. lia.
  - intros t Hm. inversion Hm; subst. right. exists []. split; [|done].
    by left.
  - intros v w Hv. by apply elem_of_empty in Hv.
  - apply not_elem_of_empty.
Qed.

Lemma bfs_shortest self fuel :
  shortest_result self (breadth_first_search fuel self).
Proof.
  unfold shortest_result.
  destruct (breadth_first_search fuel self) as [[[path|] g]|] eqn:Hbfs;
    [|done..].
  pose proof (search_sound deque_ops deque_laws self _ fuel eq_refl)
    as Hsound.
  change (while (search_body deque_ops self) fuel (search_init _))
    with (breadth_first_search fuel self) in Hsound.
  rewrite Hbfs in Hsound. simpl in Hsound.
  split; [by apply follow_moves|].
  apply while_Some in Hbfs as (c & Hreach & Hret).
  assert (∃ L, bfs_level self L c) as [L Hlevel].
  { eapply (reaches_invariant _ (λ c, ∃ L, bfs_level self L c));
      [|exact Hreach|].
    - intros c1 c2 [L1 H1] Hb. by eapply bfs_level_step.
    - exists 0%nat. apply bfs_level_init. }
  assert (∃ rest, frontier c = (goal_state self, path) :: rest) as [rest Hq].
  { revert Hret. destruct c as [[[q vis] g0] cl]. unfold bfs_body.
    destruct q as [|[state p] rest]; simpl; [done|].
    case_decide as Hgoal;
      [|case_decide; [destruct (foldl _ _ _)|]; done].
    intros [= -> _]. subst. by exists rest. }
  destruct (bfs_level_head self L c _ _ Hlevel Hq)
    as (L' & (_ & Hbelow & _ & _ & Hgoal) & Hlen).
  simpl in Hlen. intros n Hm.
  destruct (decide (length path ≤ n)%nat) as [|Hlt]; [done|].
  destruct Hgoal. apply (Hbelow n); [lia|done].
Qed.

(** X8: the path that [breadth_first_search] returns, for any initial and
    goal state, has the minimal number of moves from the initial state to
    the goal state. *)
Theorem bfs_returns_shortest_path (self : MissionariesAndCannibals)
    (fuel : nat) :
  shortest_result self (breadth_first_search fuel self).
Proof. apply bfs_shortest. Qed.

(** The number of actions of a returned path. *)
Definition path_length (r : option Result) : option nat :=
  match r with
  | Some (Some path, _) => Some (length path)
  | _ => None
  end.

Lemma moves_bank_states n s t :
  moves n s t → s ∈ bank_states → t ∈ bank_states.
Proof.
  induction 1 as [|n s s1 s2 Hs _ IH]; [done|]. intros _. apply IH.
  apply valid_bank_state; [by eapply successor_valid|by eapply successor_boat].
Qed.

(** On the valid states with the boat on a bank, [a_star_search] returns
    paths as long as those of [breadth_first_search]. *)
Lemma astar_length_bfs :
  Forall (λ i, Forall (λ g,
    let self := {| initial_state := i; goal_state := g |} in
    path_length (a_star_search search_fuel self)
    = path_length (breadth_first_search search_fuel self)) bank_states)
    bank_states.
Proof. by_evaluation. Qed.

Lemma astar_sound self fuel : sound_result self (a_star_search fuel self).
Proof.
  unfold a_star_search.
  rewrite (while_ext _ (search_body heap_ops self))
    by apply astar_body_search.
  by apply (search_sound heap_ops heap_laws).
Qed.

(** X9: although its heuristic overestimates, [a_star_search] returns a path
    with the minimal number of moves for every goal state, from every valid
    initial state with the boat on a bank. *)
Theorem astar_returns_shortest_path (self : MissionariesAndCannibals)
    (Hvalid : is_valid (initial_state self) = true)
    (Hboat : (initial_state self).2 = 0 ∨ (initial_state self).2 = 1) :
  shortest_result self (a_star_search search_fuel self).
Proof.
  pose proof (astar_sound self search_fuel) as Hsound.
  pose proof (bfs_shortest self search_fuel) as Hbfs.
  pose proof astar_length_bfs as Hlen.
  unfold shortest_result, sound_result in *.
  destruct (a_star_search search_fuel self) as [[[path|] g]|] eqn:Hastar;
    [|done..].
  assert (initial_state self ∈ bank_states) as Hi
    by by apply valid_bank_state.
  assert (goal_state self ∈ bank_states) as Hg.
  { eapply moves_bank_states; [|exact Hi]. by apply follow_moves. }
  rewrite Forall_forall in Hlen. specialize (Hlen _ Hi).
  rewrite Forall_forall in Hlen. specialize (Hlen _ Hg).
  destruct self as [i g0]. simpl in *. rewrite Hastar in Hlen. simpl in Hlen.
  destruct (breadth_first_search search_fuel _) as [[[path'|] g']|];
    simpl in Hlen; [|done..].
  injection Hlen as ->. exact Hbfs.
Qed.

Lemma astar_returns_shortest_path_witness :
  shortest_result problem (a_star_search search_fuel problem).
Proof.
  apply (astar_returns_shortest_path problem).
  - reflexivity.
  - right. reflexivity.
Defined.

(** * The state space of the polygon puzzle ([state_space.py]) *)

Module ShortestPath.

(** The exceptions the methods raise. *)
Inductive exn : Type :=
  | KeyError (key : string)
  | IndexError
  | ZeroDivisionError.

Inductive result (A : Type) : Type :=
  | Ok (a : A)
  | Raise (e : exn).
Arguments Ok {A} a.
Arguments Raise {A} e.

#[global] Instance result_ret : MRet result := @Ok.
#[global] Instance result_bind : MBind result :=
  λ A B f r, match r with Ok a => f a | Raise e => Raise e end.

(** ** Python dictionaries

    [==] on the keys of a dictionary. *)
Class PyEq (K : Type) : Type := py_eq : K → K → bool.

#[global] Instance string_py_eq : PyEq string := String.eqb.

#[global] Instance Z_py_eq : PyEq Z := Z.eqb.

#[global] Instance float_py_eq : PyEq float := PrimFloat.eqb.

(** [-] and the unary [-] on numbers. *)
Class PySub (A : Type) : Type := py_sub : A → A → A.
Class PyNeg (A : Type) : Type := py_neg : A → A.

#[global] Instance Z_py_sub : PySub Z := Z.sub.
#[global] Instance Z_py_neg : PyNeg Z := Z.opp.

#[global] Instance float_py_sub : PySub float := PrimFloat.sub.
#[global] Instance float_py_neg : PyNeg float := PrimFloat.opp.

#[global] Instance float_inhabited : Inhabited float := populate 0%float.

(** Tuples are equal when their items are. *)
#[global] Instance prod_py_eq {A B : Type} `{!PyEq A, !PyEq B}
    : PyEq (A * B) :=
  λ p q, py_eq p.1 q.1 && py_eq p.2 q.2.

(** A [dict] keeps its keys in the order of their first insertion; setting
    a key that is there replaces the value and keeps the key and its
    place. *)
Section dict.
Context {K V : Type} `{!PyEq K}.

Fixpoint dict_get (d : list (K * V)) (k : K) : option V :=
  match d with
  | [] => None
  | (k', v) :: d => if py_eq k' k then Some v else dict_get d k
  end.

Fixpoint dict_set (d : list (K * V)) (k : K) (v : V) : list (K * V) :=
  match d with
  | [] => [(k, v)]
  | (k', v') :: d =>
      if py_eq k' k then (k', v) :: d else (k', v') :: dict_set d k v
  end.

Definition dict_values (d : list (K * V)) : list V := d.*2.

End dict.

(** ** Vertices and the state space

    The coordinates are numbers with Python's [-], unary [-] and [==]:
    integers, or floats. *)
Section state_space.
Context {num : Type} `{!PyEq num, !PySub num, !PyNeg num, !Inhabited num}.

Record Vertex : Type := {
  location : num * num;
  name : string;
  reachable : list (num * num * string);
  edges : list string
}.

(** [Vertex.__init__(x, y, name)] *)
Definition Vertex_init (x y : num) (n : string) : Vertex :=
  {| location := (x, y); name := n; reachable := []; edges := [] |}.

#[global] Instance Vertex_inhabited : Inhabited Vertex :=
  populate (Vertex_init inhabitant inhabitant "").

(** A [StateSpace] object. The [Vertex] objects live in [objects] and are
    designated by their position: [vertices], [start] and [goal] hold
    references, so that [start] and an entry of [vertices] can be the same
    object. *)
Record StateSpace : Type := {
  objects : list Vertex;
  vertices : list (string * nat);
  polygon_edges : list ((num * num) * (num * num));
  auto_edges : list ((num * num) * (num * num));
  polygons : list (option string * list string);
  start : option nat;
  goal : option nat
}.

(** [StateSpace.__init__()] *)
Definition StateSpace_init : StateSpace :=
  {| objects := []; vertices := []; polygon_edges := []; auto_edges := [];
     polygons := []; start := None; goal := None |}.

(** A method: it runs on the state space, changes it, and returns or
    raises; what it changed before raising stays changed. *)
Definition M (A : Type) : Type := StateSpace → result A * StateSpace.

Definition ret {A : Type} (a : A) : M A := λ σ, (Ok a, σ).

Definition raise {A : Type} (e : exn) : M A := λ σ, (Raise e, σ).

Definition bind {A B : Type} (m : M A) (f : A → M B) : M B :=
  λ σ, match m σ with
       | (Ok a, σ') => f a σ'
       | (Raise e, σ') => (Raise e, σ')
       end.

#[global] Instance M_ret : MRet M := @ret.
#[global] Instance M_bind : MBind M := λ A B f m, bind m f.

(** [Vertex(x, y, name)]: a new object. *)
Definition new_vertex (x y : num) (n : string) : M nat :=
  λ σ, (Ok (length (objects σ)),
        {| objects := objects σ ++ [Vertex_init x y n];
           vertices := vertices σ; polygon_edges := polygon_edges σ;
           auto_edges := auto_edges σ; polygons := polygons σ;
           start := start σ; goal := goal σ |}).

(** [self.vertices[name]] *)
Definition vertices_get (n : string) : M nat :=
  λ σ, match dict_get (vertices σ) n with
       | Some r => (Ok r, σ)
       | None => (Raise (KeyError n), σ)
       end.

(** [self.vertices[name] = v] *)
Definition vertices_set (n : string) (r : nat) : M unit :=
  λ σ, (Ok (),
        {| objects := objects σ; vertices := dict_set (vertices σ) n r;
           polygon_edges := polygon_edges σ; auto_edges := auto_edges σ;
           polygons := polygons σ; start := start σ; goal := goal σ |}).

(** Reading the object a reference designates. *)
Definition deref (r : nat) : M Vertex := λ σ, (Ok (objects σ !!! r), σ).

(** Changing the object a reference designates. *)
Definition modify (r : nat) (f : Vertex → Vertex) : M unit :=
  λ σ, (Ok (),
        {| objects := alter f r (objects σ); vertices := vertices σ;
           polygon_edges := polygon_edges σ; auto_edges := auto_edges σ;
           polygons := polygons σ; start := start σ; goal := goal σ |}).

(** [v.edges.append(n)] *)
Definition edges_append (n : string) (v : Vertex) : Vertex :=
  {| location := location v; name := name v; reachable := reachable v;
     edges := edges v ++ [n] |}.

(** [v.reachable[key] = n] *)
Definition reachable_set (key : num * num) (n : string) (v : Vertex)
    : Vertex :=
  {| location := location v; name := name v;
     reachable := dict_set (reachable v) key n; edges := edges v |}.

(** [for x in l: body(x)] *)
Fixpoint for_each {A : Type} (l : list A) (body : A → M unit) : M unit :=
  match l with
  | [] => ret ()
  | x :: l => body x;; for_each l body
  end.

(** [l[i]] for [i >= 0], and [l[-1]]. *)
Definition item {A : Type} (l : list A) (i : nat) : M A :=
  match l !! i with
  | Some x => ret x
  | None => raise IndexError
  end.

Definition last_item {A : Type} (l : list A) : M A :=
  match last l with
  | Some x => ret x
  | None => raise IndexError
  end.

(** [self.start = v], [self.goal = v] *)
Definition start_set (v : nat) : M unit :=
  λ σ, (Ok (),
        {| objects := objects σ; vertices := vertices σ;
           polygon_edges := polygon_edges σ; auto_edges := auto_edges σ;
           polygons := polygons σ; start := Some v; goal := goal σ |}).

Definition goal_set (v : nat) : M unit :=
  λ σ, (Ok (),
        {| objects := objects σ; vertices := vertices σ;
           polygon_edges := polygon_edges σ; auto_edges := auto_edges σ;
           polygons := polygons σ; start := start σ; goal := Some v |}).

(** [self.polygon_edges.append(e)], [self.polygons.append(p)] *)
Definition polygon_edges_append (e : (num * num) * (num * num)) : M unit :=
  λ σ, (Ok (),
        {| objects := objects σ; vertices := vertices σ;
           polygon_edges := polygon_edges σ ++ [e];
           auto_edges := auto_edges σ; polygons := polygons σ;
           start := start σ; goal := goal σ |}).

Definition polygons_append (p : option string * list string) : M unit :=
  λ σ, (Ok (),
        {| objects := objects σ; vertices := vertices σ;
           polygon_edges := polygon_edges σ; auto_edges := auto_edges σ;
           polygons := polygons σ ++ [p];
           start := start σ; goal := goal σ |}).

(** A function called in a method. *)
Definition call {A : Type} (r : result A) : M A := λ σ, (r, σ).

(** [[f(x) for x in l]] *)
Fixpoint for_list {A B : Type} (l : list A) (f : A → M B) : M (list B) :=
  match l with
  | [] => mret []
  | x :: l => y ← f x; ys ← for_list l f; mret (y :: ys)
  end.

(** [list(self.vertices.keys())] *)
Definition vertices_keys : M (list string) := λ σ, (Ok (vertices σ).*1, σ).

(** [self.auto_edges.append(e)] *)
Definition auto_edges_append (e : (num * num) * (num * num)) : M unit :=
  λ σ, (Ok (),
        {| objects := objects σ; vertices := vertices σ;
           polygon_edges := polygon_edges σ;
           auto_edges := auto_edges σ ++ [e]; polygons := polygons σ;
           start := start σ; goal := goal σ |}).

(** [add_vertex(self, x, y, name)] *)
Definition add_vertex (x y : num) (n : string) : M unit :=
  r ← new_vertex x y n;
  vertices_set n r.

(** [set_start(self, x, y, name)] *)
Definition set_start (x y : num) (n : string) : M unit :=
  v ← new_vertex x y n;
  vertices_set n v;;
  start_set v.

(** [set_goal(self, x, y, name)] *)
Definition set_goal (x y : num) (n : string) : M unit :=
  v ← new_vertex x y n;
  vertices_set n v;;
  goal_set v.

(** The body of the loop of [assert_reachable]. *)
Definition assert_reachable_body (a v : string) : M unit :=
  ra ← vertices_get a; va ← deref ra;
  let '(x1, y1) := location va in
  rv ← vertices_get v; vv ← deref rv;
  let '(x2, y2) := location vv in
  let dx := py_sub x2 x1 in
  let dy := py_sub y2 y1 in
  ra ← vertices_get a; modify ra (reachable_set (dx, dy) v);;
  rv ← vertices_get v; modify rv (reachable_set (py_neg dx, py_neg dy) a).

(** [assert_reachable(self, a, b)]: [b] is a name or a list of names. *)
Definition assert_reachable (a : string) (b : string + list string)
    : M unit :=
  let b := match b with inl s => [s] | inr l => l end in
  for_each b (assert_reachable_body a).

(** [add_edge(self, a, b)] *)
Definition add_edge (a b : string) : M unit :=
  ra ← vertices_get a; modify ra (edges_append b);;
  rb ← vertices_get b; modify rb (edges_append a);;
  ra ← vertices_get a; va ← deref ra;
  let '(x1, y1) := location va in
  rb ← vertices_get b; vb ← deref rb;
  let '(x2, y2) := location vb in
  polygon_edges_append ((x1, x2), (y1, y2));;
  assert_reachable a (inl b).

(** [connect_polygon(self, v_names, shape_label)] *)
Definition connect_polygon (v_names : list string)
    (shape_label : option string) : M unit :=
  for_each (seq 0 (length v_names - 1))
    (λ i, a ← item v_names i; b ← item v_names (i + 1); add_edge a b);;
  a ← item v_names 0; b ← last_item v_names; add_edge a b;;
  polygons_append (shape_label, v_names).

(** ** [ConvexPolygonPathProblem] ([search_problem.py]) *)

(** [actions(self, state)], on the state space the problem refers to. *)
Definition actions (σ : StateSpace) (state : string) : result (list string) :=
  match dict_get (vertices σ) state with
  | Some r => Ok (dict_values (reachable (objects σ !!! r)))
  | None => Raise (KeyError state)
  end.

(** [result(self, state, action)] *)
Definition result_ (state action : string) : string := action.



(** ** Notions of the properties *)

(** The references of [vertices] designate objects, and no two names the
    same object. *)
Definition wf (σ : StateSpace) : Prop :=
  (∀ n r, dict_get (vertices σ) n = Some r → (r < length (objects σ))%nat)
  ∧ (∀ n n' r, dict_get (vertices σ) n = Some r →
               dict_get (vertices σ) n' = Some r → n = n').

(** Every neighbour recorded in a vertex of [vertices] is a key of
    [vertices]. *)
Definition neighbours_known (σ : StateSpace) : Prop :=
  ∀ n r m, dict_get (vertices σ) n = Some r →
           m ∈ dict_values (reachable (objects σ !!! r)) →
           is_Some (dict_get (vertices σ) m).

(** [b] is in the [edges] list of the vertex named [a]. *)
Definition has_edge (σ : StateSpace) (a b : string) : Prop :=
  ∃ r, dict_get (vertices σ) a = Some r ∧ b ∈ edges (objects σ !!! r).

(** From [P], the method [m] returns [a] in a state with [Q a], or raises
    [e] in a state with [E e]. *)
Definition hoare {A : Type} (P : StateSpace → Prop) (m : M A)
    (Q : A → StateSpace → Prop) (E : exn → StateSpace → Prop) : Prop :=
  ∀ σ, P σ → match m σ with
             | (Ok a, σ') => Q a σ'
             | (Raise e, σ') => E e σ'
             end.

(** The state spaces that the methods build. *)
Inductive built : StateSpace → Prop :=
  | built_init : built StateSpace_init
  | built_add_vertex σ x y n : built σ → built (add_vertex x y n σ).2
  | built_set_start σ x y n : built σ → built (set_start x y n σ).2
  | built_set_goal σ x y n : built σ → built (set_goal x y n σ).2
  | built_add_edge σ a b : built σ → built (add_edge a b σ).2
  | built_assert_reachable σ a b :
      built σ → built (assert_reachable a b σ).2
  | built_connect_polygon σ v_names shape_label :
      built σ → built (connect_polygon v_names shape_label σ).2.

(** The state space is well formed, its neighbours are known and its
    [vertices] are [V]. *)
Definition keeps (V : list (string * nat)) (σ : StateSpace) : Prop :=
  wf σ ∧ neighbours_known σ ∧ vertices σ = V.

Definition invariant (σ : StateSpace) : Prop := wf σ ∧ neighbours_known σ.

(** The state space with other objects. *)
Definition with_objects (σ : StateSpace) (o : list Vertex) : StateSpace :=
  {| objects := o; vertices := vertices σ;
     polygon_edges := polygon_edges σ; auto_edges := auto_edges σ;
     polygons := polygons σ; start := start σ; goal := goal σ |}.

(** The move vector [(dx, dy)] from the object [ra] to the object [rv],
    and its opposite [(-dx, -dy)]. *)
Definition displacement (σ : StateSpace) (ra rv : nat) : num * num :=
  (py_sub (location (objects σ !!! rv)).1 (location (objects σ !!! ra)).1,
   py_sub (location (objects σ !!! rv)).2
     (location (objects σ !!! ra)).2).

Definition opposite (d : num * num) : num * num :=
  (py_neg d.1, py_neg d.2).

(** The state space is well formed, with vertices [V] and polygons [Pg],
    and has the edges [L]. *)
Definition linked (V : list (string * nat))
    (Pg : list (option string * list string)) (L : string → string → Prop)
    (σ : StateSpace) : Prop :=
  wf σ ∧ vertices σ = V ∧ polygons σ = Pg
  ∧ ∀ a b, L a b → has_edge σ a b.

(** The edges [L] and the one from [a] to [b]. *)
Definition also (a b : string) (L : string → string → Prop)
    : string → string → Prop :=
  λ x y, (x = a ∧ y = b) ∨ L x y.

Definition never : exn → StateSpace → Prop := λ _ _, False.

(** The vertices are [V]. *)
Definition has_vertices (V : list (string * nat)) (σ : StateSpace) : Prop :=
  vertices σ = V.

(** The exceptions of [connect_polygon] on [v_names]: a [KeyError] with a
    name of the list that is no vertex, an [IndexError] for the empty
    list. *)
Definition polygon_error (V : list (string * nat)) (v_names : list string)
    (e : exn) (σ : StateSpace) : Prop :=
  match e with
  | KeyError n => n ∈ v_names ∧ dict_get V n = None
  | IndexError => v_names = []
  | ZeroDivisionError => False
  end.

(** The actions [path], taken one after the other from [state], lead to
    [target]. *)
Fixpoint route (σ : StateSpace) (state : string) (path : list string)
    (target : string) : Prop :=
  match path with
  | [] => state = target
  | action :: path =>
      (∃ l, actions σ state = Ok l ∧ action ∈ l)
      ∧ route σ (result_ state action) path target
  end.

(** Every vertex is a neighbour of its neighbours. *)
Definition neighbours_mutual (σ : StateSpace) : Prop :=
  ∀ a b la, actions σ a = Ok la → b ∈ la →
    ∃ lb, actions σ b = Ok lb ∧ a ∈ lb.

(** The same, as tests. *)
Definition is_action (σ : StateSpace) (state action : string) : bool :=
  match actions σ state with
  | Ok l => bool_decide (action ∈ l)
  | Raise _ => false
  end.

Fixpoint is_route (σ : StateSpace) (state : string) (path : list string)
    (target : string) : bool :=
  match path with
  | [] => bool_decide (state = target)
  | action :: path =>
      is_action σ state action && is_route σ (result_ state action) path target
  end.

Definition are_neighbours_mutual (σ : StateSpace) : bool :=
  forallb (λ '(a, r),
             forallb (λ b, is_action σ b a)
               (dict_values (reachable (objects σ !!! r))))
    (vertices σ).

End state_space.

(** ** The environment of Figure 3.31 ([figure_3_31_env.py])

    Its coordinates are Python floats: binary64 numbers with the IEEE
    subtraction, negation and equality. *)

Section figure_3_31_env.
Local Open Scope float_scope.
Set Warnings "-inexact-float".

(** The calls of [build_figure_3_31_env] on [env]. *)
Definition build_figure_3_31_env_calls : M unit :=
  set_start 0.0 0.7 "S";;
  add_vertex 0.5 0.0 "rec1";;
  add_vertex 0.5 1.4 "rec2";;
  add_vertex 4.6 1.4 "rec3";;
  add_vertex 4.6 0.0 "rec4";;
  connect_polygon ["rec1"; "rec2"; "rec3"; "rec4"] (Some "Rect1");;
  add_vertex 1.7 2.0 "pent1";;
  add_vertex 0.3 2.3 "pent2";;
  add_vertex 0.0 3.8 "pent3";;
  add_vertex 1.5 5.1 "pent4";;
  add_vertex 2.6 3.7 "pent5";;
  connect_polygon ["pent1"; "pent2"; "pent3"; "pent4"; "pent5"] (Some "Pent");;
  add_vertex 2.5 1.8 "tri1";;
  add_vertex 3.1 4.0 "tri2";;
  add_vertex 3.7 1.8 "tri3";;
  connect_polygon ["tri1"; "tri2"; "tri3"] (Some "Tri1");;
  add_vertex 3.9 3.3 "quad1";;
  add_vertex 3.7 4.9 "quad2";;
  add_vertex 4.8 5.1 "quad3";;
  add_vertex 5.7 4.4 "quad4";;
  connect_polygon ["quad1"; "quad2"; "quad3"; "quad4"] (Some "Quad1");;
  add_vertex 5.4 0.7 "tri_2_1";;
  add_vertex 4.9 2.6 "tri_2_2";;
  add_vertex 6.3 1.5 "tri_2_3";;
  connect_polygon ["tri_2_1"; "tri_2_2"; "tri_2_3"] (Some "Tri2");;
  add_vertex 5.8 2.2 "rec_2_1";;
  add_vertex 5.8 5.0 "rec_2_2";;
  add_vertex 7.5 5.0 "rec_2_3";;
  add_vertex 7.5 2.2 "rec_2_4";;
  connect_polygon ["rec_2_1"; "rec_2_2"; "rec_2_3"; "rec_2_4"] (Some "Rect2");;
  add_vertex 7.7 0.0 "hex1";;
  add_vertex 6.8 0.6 "hex2";;
  add_vertex 6.8 1.5 "hex3";;
  add_vertex 7.7 2.2 "hex4";;
  add_vertex 8.5 1.5 "hex5";;
  add_vertex 8.5 0.4 "hex6";;
  connect_polygon ["hex1"; "hex2"; "hex3"; "hex4"; "hex5"; "hex6"] (Some "Hex");;
  add_vertex 8.7 1.8 "quad_2_1";;
  add_vertex 7.8 4.7 "quad_2_2";;
  add_vertex 8.6 5.0 "quad_2_3";;
  add_vertex 8.9 4.5 "quad_2_4";;
  connect_polygon ["quad_2_1"; "quad_2_2"; "quad_2_3"; "quad_2_4"] (Some "Quad2");;
  set_goal 9.1 5.0 "G";;
  assert_reachable "S" (inr ["rec1"; "rec2"; "pent2"; "pent3"]);;
  assert_reachable "rec1" (inr ["pent2"; "pent3"]);;
  assert_reachable "rec2" (inr ["pent1"; "pent2"; "tri1"; "tri3"]);;
  assert_reachable "rec3"
    (inr ["pent1"; "tri1"; "tri2"; "tri3"; "quad1"; "tri_2_1"; "tri_2_2"]);;
  assert_reachable "rec4"
    (inr ["tri_2_1"; "tri_2_2"; "tri_2_3"; "hex1"; "hex2"; "hex3"; "rec_2_4"]);;
  assert_reachable "pent1" (inr ["tri1"; "tri2"]);;
  assert_reachable "pent4" (inr ["tri2"; "quad2"; "quad3"]);;
  assert_reachable "pent5" (inr ["tri1"; "tri2"; "quad2"]);;
  assert_reachable "tri2" (inr ["quad1"; "quad2"; "tri_2_1"]);;
  assert_reachable "tri3" (inr ["quad1"; "quad2"; "quad4"; "tri_2_2"]);;
  assert_reachable "quad1" (inr ["tri_2_1"; "tri_2_2"; "rec_2_1"]);;
  assert_reachable "quad3" (inr ["rec_2_2"; "rec_2_3"; "quad_2_3"]);;
  assert_reachable "quad4" (inr ["tri_2_2"; "rec_2_1"; "rec_2_2"]);;
  assert_reachable "tri_2_1"
    (inr ["rec_2_4"; "hex1"; "hex2"; "hex3"; "hex4"]);;
  assert_reachable "tri_2_2" (inr ["rec_2_1"; "hex3"]);;
  assert_reachable "tri_2_3"
    (inr ["rec_2_1"; "rec_2_4"; "hex2"; "hex3"; "hex4"]);;
  assert_reachable "rec_2_1" (inr ["hex3"; "hex4"]);;
  assert_reachable "rec_2_2" (inl "quad_2_3");;
  assert_reachable "rec_2_3"
    (inr ["quad_2_1"; "quad_2_2"; "quad_2_3"; "hex4"; "hex5"]);;
  assert_reachable "rec_2_4" (inr ["hex3"; "hex4"; "quad_2_1"; "quad_2_2"]);;
  assert_reachable "hex4" (inr ["quad_2_1"; "quad_2_2"]);;
  assert_reachable "hex5" (inr ["quad_2_1"; "quad_2_2"]);;
  assert_reachable "hex6" (inr ["quad_2_1"; "G"]);;
  assert_reachable "quad_2_1" (inl "G");;
  assert_reachable "quad_2_3" (inl "G");;
  assert_reachable "quad_2_4" (inl "G").

(** [build_figure_3_31_env()] *)
Definition build_figure_3_31_env : result StateSpace :=
  match build_figure_3_31_env_calls StateSpace_init with
  | (Ok _, env) => Ok env
  | (Raise e, _) => Raise e
  end.

Set Warnings "inexact-float".
End figure_3_31_env.


(** A state space with integer coordinates: [a] at (0, 0), [b] at (3, 4),
    and [p] and [q] both at (1, 1). *)
Definition example : StateSpace :=
  (add_vertex 1 1 "q"
     (add_vertex 1 1 "p"
        (add_vertex 3 4 "b"
           (add_vertex 0 0 "a" StateSpace_init).2).2).2).2.


(** ** Geometry ([geometry.py])

    Points are pairs of floats. *)

Set Warnings "-inexact-float".

Definition point : Type := float * float.

(** [a / b] on floats. *)
Definition py_div (a b : float) : result float :=
  if (b =? 0)%float then Raise ZeroDivisionError else Ok (a / b)%float.

(** [min(a, b)] and [max(a, b)] *)
Definition py_min (a b : float) : float := if (b <? a)%float then b else a.
Definition py_max (a b : float) : float := if (a <? b)%float then b else a.

(** [l[i]] for [i >= 0]. *)
Definition getitem {A : Type} (l : list A) (i : nat) : result A :=
  match l !! i with
  | Some x => Ok x
  | None => Raise IndexError
  end.

(** [for x in l: body(x)], where the body can [return] a value ([Some]) or
    go on ([None]). *)
Fixpoint for_return {A R : Type} (l : list A)
    (body : A → result (option R)) : result (option R) :=
  match l with
  | [] => Ok None
  | x :: l =>
      r ← body x;
      match r with
      | Some v => Ok (Some v)
      | None => for_return l body
      end
  end.

(** [range(start, stop)] *)
Definition range (start stop : Z) : list Z :=
  (λ k : nat, start + Z.of_nat k) <$> seq 0 (Z.to_nat (stop - start)).

(** The local function [orientation] of [segments_intersect]. *)
Definition orientation (a b c : point) : Z :=
  let val := ((b.2 - a.2) * (c.1 - b.1) - (b.1 - a.1) * (c.2 - b.2))%float in
  if (abs val <? 1e-9)%float then 0
  else if (0 <? val)%float then 1 else 2.

(** The local function [on_segment] of [segments_intersect]. *)
Definition on_segment (a b c : point) : bool :=
  ((py_min a.1 c.1 <=? b.1)%float && (b.1 <=? py_max a.1 c.1)%float)
  && ((py_min a.2 c.2 <=? b.2)%float && (b.2 <=? py_max a.2 c.2)%float).

(** [segments_intersect(p1, q1, p2, q2)] *)
Definition segments_intersect (p1 q1 p2 q2 : point) : bool :=
  let o1 := orientation p1 q1 p2 in
  let o2 := orientation p1 q1 q2 in
  let o3 := orientation p2 q2 p1 in
  let o4 := orientation p2 q2 q1 in
  if negb (o1 =? o2) && negb (o3 =? o4) then true
  else if (o1 =? 0) && on_segment p1 p2 q1 then true
  else if (o2 =? 0) && on_segment p1 q2 q1 then true
  else if (o3 =? 0) && on_segment p2 p1 q2 then true
  else if (o4 =? 0) && on_segment p2 q1 q2 then true
  else false.

(** The body of the loop of [point_in_polygon]: the new value of
    [inside]. *)
Definition point_in_polygon_body (x y : float) (polygon : list point)
    (inside : bool) (i : nat) : result bool :=
  '(x1, y1) ← getitem polygon i;
  '(x2, y2) ← getitem polygon ((i + 1) mod length polygon);
  if xorb (y <? y1)%float (y <? y2)%float then
    q ← py_div ((y - y1) * (x2 - x1))%float (y2 - y1)%float;
    let intersect_x := (x1 + q)%float in
    if (x <? intersect_x)%float then Ok (negb inside) else Ok inside
  else Ok inside.

(** [point_in_polygon(point, polygon)] *)
Definition point_in_polygon (pt : point) (polygon : list point)
    : result bool :=
  let '(x, y) := pt in
  foldl (λ inside i, inside ← inside; point_in_polygon_body x y polygon inside i)
    (Ok false) (seq 0 (length polygon)).

Section line_clear.
(** [i / n] on integers: a float. *)
Context (int_truediv : Z → Z → float).

(** The points that [sample_line(p1, p2, num_samples)] yields. *)
Definition sample_line (p1 p2 : point) (num_samples : Z) : list point :=
  (λ i, let t := int_truediv i num_samples in
        let x := (p1.1 + t * (p2.1 - p1.1))%float in
        let y := (p1.2 + t * (p2.2 - p1.2))%float in
        (x, y)) <$> range 1 num_samples.

(** [line_clear(p1, p2, polygons, num_samples)] *)
Definition line_clear (p1 p2 : point) (polygons : list (list point))
    (num_samples : Z) : result bool :=
  r ← for_return (R := bool) polygons (λ poly,
         let n := length poly in
         for_return (seq 0 n) (λ i,
           v1 ← getitem poly i;
           v2 ← getitem poly ((i + 1) mod n);
           if py_eq v1 p1 || py_eq v1 p2 || py_eq v2 p1 || py_eq v2 p2
           then Ok None
           else if segments_intersect p1 p2 v1 v2 then Ok (Some false)
           else Ok None));
  match r with
  | Some b => Ok b
  | None =>
      r ← for_return (R := bool) (sample_line p1 p2 num_samples) (λ pt,
             for_return polygons (λ poly,
               inside ← point_in_polygon pt poly;
               if inside : bool then Ok (Some false) else Ok None));
      match r with
      | Some b => Ok b
      | None => Ok true
      end
  end.

End line_clear.

Set Warnings "inexact-float".

(** ** Automated connections ([state_space.py])

    The state space has float coordinates. *)

Section build_automated_connections.
(** [i / n] on integers and [math.hypot(x, y)]: floats. *)
Context (int_truediv : Z → Z → float) (hypot : float → float → float).

(** [itertools.combinations(l, 2)] *)
Fixpoint combinations {A : Type} (l : list A) : list (A * A) :=
  match l with
  | [] => []
  | x :: l => (pair x <$> l) ++ combinations l
  end.

(** [build_automated_connections(self, polygons, samples, max_len)] *)
Definition build_automated_connections (polygons : list (list string))
    (samples : Z) (max_len : float) : M unit :=
  names ← vertices_keys;
  poly_coords ← for_list polygons (λ poly,
    for_list poly (λ name,
      r ← vertices_get name; v ← deref r; mret (location v)));
  for_each (combinations names) (λ '(a, b),
    ra ← vertices_get a; v ← deref ra;
    if existsb (λ nb, py_eq b nb) (dict_values (reachable v)) then mret ()
    else
      ra ← vertices_get a; v ← deref ra;
      let va := location v in
      rb ← vertices_get b; v ← deref rb;
      let vb := location v in
      let dist := hypot (vb.1 - va.1)%float (vb.2 - va.2)%float in
      if (max_len <? dist)%float then mret ()
      else
        clear ← call (line_clear int_truediv va vb poly_coords samples);
        if clear : bool then
          auto_edges_append ((va.1, vb.1), (va.2, vb.2));;
          assert_reachable a (inl b)
        else mret ()).

End build_automated_connections.

(** ** Path costs ([search_problem.py]) *)


Section path_cost.
(** [math.hypot(x, y)]: a float. *)
Context (hypot : float → float → float).


End path_cost.

(** ** Notions of the geometry *)

(** The loop of [line_clear] on the edges of a polygon. *)
Definition edges_loop (p1 p2 : point) (poly : list point)
    : result (option bool) :=
  for_return (seq 0 (length poly)) (λ i,
    v1 ← getitem poly i;
    v2 ← getitem poly ((i + 1) mod length poly);
    if py_eq v1 p1 || py_eq v1 p2 || py_eq v2 p1 || py_eq v2 p2
    then Ok None
    else if segments_intersect p1 p2 v1 v2 then Ok (Some false)
    else Ok None).

(** An exception of the geometry: of the division. *)
Definition division_only {A : Type} (r : result A) : Prop :=
  match r with
  | Ok _ => True
  | Raise e => e = ZeroDivisionError
  end.



(** A state space with float coordinates, and two functions to take the
    place of [i / n] and of [math.hypot] in examples; [example_hypot] is not
    [math.hypot], which rounds its result once and does not overflow on
    large coordinates. *)
Definition example_float : StateSpace :=
  (add_vertex 1.5%float 2%float "c"
     (add_vertex 0.5%float 0%float "b"
        (set_start 0%float 0.5%float "S" StateSpace_init).2).2).2.

Definition example_truediv (i n : Z) : float :=
  (PrimFloat.of_uint63 (Uint63.of_Z i) / PrimFloat.of_uint63 (Uint63.of_Z n))%float.

Definition example_hypot (x y : float) : float :=
  PrimFloat.sqrt (x * x + y * y)%float.


(** ** Properties of the state space *)

Section state_space_properties.
Context {num : Type} `{!PyEq num, !PySub num, !PyNeg num, !Inhabited num}.

Local Abbreviation Vertex := (@Vertex num).
Local Abbreviation StateSpace := (@StateSpace num).
Local Abbreviation M := (@M num).
Local Abbreviation hoare := (hoare (num := num)).

(** ** Dictionaries *)

Lemma string_py_eq_true (a b : string) : py_eq a b = true ↔ a = b.
Proof. apply String.eqb_eq. Qed.

Lemma dict_get_set {V} (d : list (string * V)) k k' v :
  dict_get (dict_set d k v) k'
  = if decide (k' = k) then Some v else dict_get d k'.
Proof.
  induction d as [|[k0 v0] d IH]; simpl.
  - destruct (py_eq k k') eqn:Hk.
    + apply string_py_eq_true in Hk as ->. by rewrite decide_True.
    + rewrite decide_False; [done|]. intros ->.
      by rewrite (proj2 (string_py_eq_true k k)) in Hk.
  - destruct (py_eq k0 k) eqn:Hk; simpl.
    + apply string_py_eq_true in Hk as ->.
      destruct (py_eq k k') eqn:Hk'.
      * apply string_py_eq_true in Hk' as ->. by rewrite decide_True.
      * rewrite decide_False; [done|]. intros ->.
        by rewrite (proj2 (string_py_eq_true k k)) in Hk'.
    + rewrite IH. destruct (py_eq k0 k') eqn:Hk'; [|done].
      apply string_py_eq_true in Hk' as ->. rewrite decide_False; [done|].
      intros ->. by rewrite (proj2 (string_py_eq_true k k)) in Hk.
Qed.

Lemma dict_values_set {K V} `{!PyEq K} (d : list (K * V)) k v x :
  x ∈ dict_values (dict_set d k v) → x = v ∨ x ∈ dict_values d.
Proof.
  unfold dict_values. induction d as [|[k0 v0] d IH]; simpl.
  - intros ->%list_elem_of_singleton. by left.
  - destruct (py_eq k0 k); simpl; rewrite !elem_of_cons; naive_solver.
Qed.

Lemma dict_values_set_new {K V} `{!PyEq K} (d : list (K * V)) k v :
  v ∈ dict_values (dict_set d k v).
Proof.
  unfold dict_values. induction d as [|[k0 v0] d IH]; simpl.
  - by left.
  - destruct (py_eq k0 k); simpl; [by left|by right].
Qed.

(** ** The rules of the methods *)

Ltac fields :=
  cbn [objects vertices polygon_edges auto_edges polygons start goal
       location name reachable edges fst snd] in *.

Lemma hoare_ret {A} (a : A) (Q : A → StateSpace → Prop) E :
  hoare (Q a) (mret a) Q E.
Proof. by intros σ Hσ. Qed.

Lemma hoare_bind {A B} P (m : M A) (f : A → M B) Q R E :
  hoare P m Q E → (∀ a, hoare (Q a) (f a) R E) → hoare P (m ≫= f) R E.
Proof.
  intros Hm Hf σ Hσ. specialize (Hm σ Hσ).
  unfold mbind, M_bind, bind. destruct (m σ) as [[a|e] σ']; [|done].
  by apply Hf.
Qed.

Lemma hoare_weaken {A} (P P' : StateSpace → Prop) (m : M A)
    (Q Q' : A → StateSpace → Prop) (E E' : exn → StateSpace → Prop) :
  hoare P' m Q' E' → (∀ σ, P σ → P' σ) → (∀ a σ, Q' a σ → Q a σ) →
  (∀ e σ, E' e σ → E e σ) → hoare P m Q E.
Proof.
  intros Hm HP HQ HE σ Hσ. specialize (Hm σ (HP σ Hσ)).
  destruct (m σ) as [[a|e] σ']; auto.
Qed.

Lemma hoare_for_each {A} (I : StateSpace → Prop) E (l : list A)
    (body : A → M unit) :
  (∀ x, x ∈ l → hoare I (body x) (λ _, I) E) →
  hoare I (for_each l body) (λ _, I) E.
Proof.
  induction l as [|x l IH]; intros Hbody; simpl.
  - by intros σ Hσ.
  - apply (hoare_bind I _ _ (λ _, I)); [apply Hbody; by left|].
    intros _. apply IH. intros y Hy. apply Hbody. by right.
Qed.

(** *** The invariant of the methods that keep [vertices] *)

Lemma hoare_vertices_get V n :
  hoare (keeps V) (vertices_get n)
    (λ r σ, keeps V σ ∧ dict_get V n = Some r) (λ _, keeps V).
Proof.
  intros σ Hσ. unfold vertices_get. pose proof Hσ as (_ & _ & HV).
  rewrite HV. by destruct (dict_get V n).
Qed.

Lemma hoare_pure {A} (I : StateSpace → Prop) (P : Prop) (m : M A) Q E :
  (P → hoare I m Q E) → hoare (λ σ, I σ ∧ P) m Q E.
Proof. intros Hm σ [Hσ HP]. by apply Hm. Qed.

Lemma hoare_deref V r :
  hoare (keeps V) (deref r) (λ _, keeps V) (λ _, keeps V).
Proof. by intros σ Hσ. Qed.

(** A change of an object that keeps its neighbours, or adds a known one. *)
Lemma hoare_modify V r f :
  (∀ v m, m ∈ dict_values (reachable (f v)) →
          m ∈ dict_values (reachable v) ∨ is_Some (dict_get V m)) →
  hoare (keeps V) (modify r f) (λ _, keeps V) (λ _, keeps V).
Proof.
  intros Hf σ ((Hrange & Hinj) & Hknown & HV). unfold modify.
  split; [|split; [|done]].
  - split; [|done]. intros n r0 Hn. fields.
    rewrite length_alter. by eapply Hrange.
  - intros n r0 m Hn. fields.
    destruct (decide (r = r0)) as [->|Hne].
    + rewrite list_lookup_total_alter_eq by (by eapply Hrange).
      intros [Hm | Hm]%Hf; [by eapply Hknown|by rewrite HV].
    + rewrite list_lookup_total_alter_ne by done. by eapply Hknown.
Qed.

Lemma hoare_polygon_edges_append V e :
  hoare (keeps V) (polygon_edges_append e) (λ _, keeps V) (λ _, keeps V).
Proof. by intros σ Hσ. Qed.

Lemma hoare_polygons_append V p :
  hoare (keeps V) (polygons_append p) (λ _, keeps V) (λ _, keeps V).
Proof. by intros σ Hσ. Qed.

Lemma hoare_item {A} V (l : list A) i :
  hoare (keeps V) (item l i) (λ _, keeps V) (λ _, keeps V).
Proof. intros σ Hσ. unfold item. by destruct (l !! i). Qed.

Lemma hoare_last_item {A} V (l : list A) :
  hoare (keeps V) (last_item l) (λ _, keeps V) (λ _, keeps V).
Proof. intros σ Hσ. unfold last_item. by destruct (last l). Qed.

Lemma reachable_set_values (V : list (string * nat)) key n (v : Vertex) m :
  is_Some (dict_get V n) →
  m ∈ dict_values (reachable (reachable_set key n v)) →
  m ∈ dict_values (reachable v) ∨ is_Some (dict_get V m).
Proof. intros Hn [->|Hm]%dict_values_set; auto. Qed.

Lemma edges_append_values (V : list (string * nat)) n (v : Vertex) m :
  m ∈ dict_values (reachable (edges_append n v)) →
  m ∈ dict_values (reachable v) ∨ is_Some (dict_get V m).
Proof. by left. Qed.

Lemma hoare_assert_reachable_body V a v :
  hoare (keeps V) (assert_reachable_body a v) (λ _, keeps V) (λ _, keeps V).
Proof.
  unfold assert_reachable_body.
  eapply hoare_bind; [apply hoare_vertices_get|]. intros ra.
  apply hoare_pure. intros Ha.
  eapply hoare_bind; [apply hoare_deref|]. intros [[x1 y1] ? ? ?]. fields.
  eapply hoare_bind; [apply hoare_vertices_get|]. intros rv.
  apply hoare_pure. intros Hv.
  eapply hoare_bind; [apply hoare_deref|]. intros [[x2 y2] ? ? ?]. fields.
  eapply hoare_bind; [apply hoare_vertices_get|]. intros ra'.
  apply hoare_pure. intros _.
  eapply hoare_bind.
  { apply hoare_modify. intros ??. by apply reachable_set_values. }
  intros [].
  eapply hoare_bind; [apply hoare_vertices_get|]. intros rv'.
  apply hoare_pure. intros _.
  apply hoare_modify. intros ??. by apply reachable_set_values.
Qed.

Lemma hoare_assert_reachable V a b :
  hoare (keeps V) (assert_reachable a b) (λ _, keeps V) (λ _, keeps V).
Proof.
  unfold assert_reachable. apply hoare_for_each. intros v _.
  apply hoare_assert_reachable_body.
Qed.

Lemma hoare_add_edge V a b :
  hoare (keeps V) (add_edge a b) (λ _, keeps V) (λ _, keeps V).
Proof.
  unfold add_edge.
  eapply hoare_bind; [apply hoare_vertices_get|]. intros ra.
  apply hoare_pure. intros _.
  eapply hoare_bind.
  { apply hoare_modify. intros ??. apply edges_append_values. }
  intros [].
  eapply hoare_bind; [apply hoare_vertices_get|]. intros rb.
  apply hoare_pure. intros _.
  eapply hoare_bind.
  { apply hoare_modify. intros ??. apply edges_append_values. }
  intros [].
  eapply hoare_bind; [apply hoare_vertices_get|]. intros ra'.
  apply hoare_pure. intros _.
  eapply hoare_bind; [apply hoare_deref|]. intros [[x1 y1] ? ? ?]. fields.
  eapply hoare_bind; [apply hoare_vertices_get|]. intros rb'.
  apply hoare_pure. intros _.
  eapply hoare_bind; [apply hoare_deref|]. intros [[x2 y2] ? ? ?]. fields.
  eapply hoare_bind; [apply hoare_polygon_edges_append|]. intros [].
  apply hoare_assert_reachable.
Qed.

Lemma hoare_connect_polygon V v_names shape_label :
  hoare (keeps V) (connect_polygon v_names shape_label)
    (λ _, keeps V) (λ _, keeps V).
Proof.
  unfold connect_polygon.
  eapply hoare_bind.
  { apply hoare_for_each. intros i _.
    eapply hoare_bind; [apply hoare_item|]. intros a.
    eapply hoare_bind; [apply hoare_item|]. intros b.
    apply hoare_add_edge. }
  intros [].
  eapply hoare_bind; [apply hoare_item|]. intros a.
  eapply hoare_bind; [apply hoare_last_item|]. intros b.
  eapply hoare_bind; [apply hoare_add_edge|]. intros [].
  apply hoare_polygons_append.
Qed.

(** *** The methods that add a vertex *)

Lemma dict_get_set_is_Some {V} (d : list (string * V)) k k' v :
  is_Some (dict_get d k') → is_Some (dict_get (dict_set d k v) k').
Proof. rewrite dict_get_set. by case_decide. Qed.

(** After [v = Vertex(x, y, name); self.vertices[name] = v]. *)
Lemma new_vertex_keeps (σ : StateSpace) x y n (σ' : StateSpace) :
  wf σ → neighbours_known σ →
  objects σ' = objects σ ++ [Vertex_init x y n] →
  vertices σ' = dict_set (vertices σ) n (length (objects σ)) →
  wf σ' ∧ neighbours_known σ'.
Proof.
  intros [Hrange Hinj] Hknown Hobj Hvert.
  assert (∀ m r, dict_get (vertices σ') m = Some r →
    (m = n ∧ r = length (objects σ))
    ∨ (m ≠ n ∧ dict_get (vertices σ) m = Some r)) as Hget.
  { intros m r. rewrite Hvert, dict_get_set.
    case_decide; [intros [= <-]; by left|by right]. }
  split; [split|].
  - intros m r Hm. rewrite Hobj, length_app. simpl.
    apply Hget in Hm as [[_ ->]|[_ Hm%Hrange]]; lia.
  - intros m m' r Hm Hm'.
    apply Hget in Hm as [[-> ->]|[? Hm]], Hm' as [[-> Hr]|[? Hm']];
      try done.
    + apply Hrange in Hm'. lia.
    + apply Hrange in Hm. lia.
    + by eapply Hinj.
  - intros m r m' Hm. rewrite Hobj.
    apply Hget in Hm as [[-> ->]|[? Hm]].
    + rewrite lookup_total_app_r by done. rewrite Nat.sub_diag. simpl.
      by intros ?%elem_of_nil.
    + rewrite lookup_total_app_l by (by eapply Hrange).
      intros Hm'. rewrite Hvert. apply dict_get_set_is_Some.
      by eapply Hknown.
Qed.

Lemma hoare_keeps_invariant {A} (m : M A) :
  (∀ V, hoare (keeps V) m (λ _, keeps V) (λ _, keeps V)) →
  ∀ σ, invariant σ → invariant (m σ).2.
Proof.
  intros Hm σ [Hwf Hknown].
  specialize (Hm (vertices σ) σ (conj Hwf (conj Hknown eq_refl))).
  destruct (m σ) as [[a|e] σ']; by destruct Hm as (? & ? & _).
Qed.

Lemma built_invariant (σ : StateSpace) : built σ → invariant σ.
Proof.
  induction 1 as [|σ x y n _ [Hwf Hknown]|σ x y n _ [Hwf Hknown]
                  |σ x y n _ [Hwf Hknown]|σ a b _ IH|σ a b _ IH
                  |σ v_names shape_label _ IH].
  - split; [split|]; by intros ?.
  - by eapply new_vertex_keeps.
  - by eapply new_vertex_keeps.
  - by eapply new_vertex_keeps.
  - apply hoare_keeps_invariant; [|done]. intros V. apply hoare_add_edge.
  - apply hoare_keeps_invariant; [|done]. intros V.
    apply hoare_assert_reachable.
  - apply hoare_keeps_invariant; [|done]. intros V.
    apply hoare_connect_polygon.
Qed.

(** ** The methods, step by step *)

Lemma assert_reachable_body_eq (σ : StateSpace) a v ra rv :
  dict_get (vertices σ) a = Some ra → dict_get (vertices σ) v = Some rv →
  assert_reachable_body a v σ
  = (Ok (), with_objects σ
      (alter (reachable_set (opposite (displacement σ ra rv)) a) rv
         (alter (reachable_set (displacement σ ra rv) v) ra (objects σ)))).
Proof.
  intros Ha Hv. unfold displacement, opposite.
  unfold assert_reachable_body, mbind, M_bind, bind, vertices_get, deref.
  rewrite Ha. destruct (location (objects σ !!! ra)) as [x1 y1] eqn:Hla.
  rewrite Hv. destruct (location (objects σ !!! rv)) as [x2 y2] eqn:Hlv.
  rewrite Ha. unfold modify. fields. rewrite Hv. reflexivity.
Qed.

Lemma assert_reachable_one a v (σ : StateSpace) :
  assert_reachable a (inl v) σ = assert_reachable_body a v σ.
Proof.
  unfold assert_reachable, for_each, mbind, M_bind, bind.
  by destruct (assert_reachable_body a v σ) as [[[]|e] σ'].
Qed.

Lemma location_alter f i (l : list Vertex) j :
  (∀ v, location (f v) = location v) →
  location (alter f i l !!! j) = location (l !!! j).
Proof.
  intros Hf. rewrite list_lookup_total_alter. case_decide as H; [|done].
  destruct H as [-> _]. apply Hf.
Qed.

Lemma dict_set_set {K V} `{!PyEq K} (d : list (K * V)) k v1 v2 :
  py_eq k k = true → dict_set (dict_set d k v1) k v2 = dict_set d k v2.
Proof.
  intros Hk. induction d as [|[k0 v0] d IH]; simpl.
  - by rewrite Hk.
  - destruct (py_eq k0 k) eqn:Hk0; simpl; rewrite Hk0; [done|].
    by rewrite IH.
Qed.

Lemma add_edge_KeyError_eq (σ : StateSpace) a b ra :
  dict_get (vertices σ) a = Some ra → dict_get (vertices σ) b = None →
  add_edge a b σ
  = (Raise (KeyError b),
     with_objects σ (alter (edges_append b) ra (objects σ))).
Proof.
  intros Ha Hb.
  unfold add_edge, mbind, M_bind, bind, vertices_get, modify.
  rewrite Ha. fields. by rewrite Hb.
Qed.

Lemma assert_reachable_mutual_aux (σ : StateSpace) a v :
  wf σ → is_Some (dict_get (vertices σ) a) →
  is_Some (dict_get (vertices σ) v) →
  ∃ σ' la lv,
    assert_reachable_body a v σ = (Ok (), σ')
    ∧ actions σ' a = Ok la ∧ v ∈ la
    ∧ actions σ' v = Ok lv ∧ a ∈ lv.
Proof.
  intros [Hrange Hinj] [ra Ha] [rv Hv].
  rewrite (assert_reachable_body_eq σ a v ra rv) by done.
  eexists _, _, _. split; [done|]. unfold actions, with_objects. fields.
  rewrite Ha, Hv.
  pose proof (Hrange _ _ Ha) as Hra. pose proof (Hrange _ _ Hv) as Hrv.
  split; [done|]. split; [|split; [done|]].
  - destruct (decide (rv = ra)) as [->|Hne].
    + rewrite (Hinj _ _ _ Ha Hv).
      rewrite list_lookup_total_alter_eq by (by rewrite length_alter).
      apply dict_values_set_new.
    + rewrite list_lookup_total_alter_ne by done.
      rewrite list_lookup_total_alter_eq by done.
      apply dict_values_set_new.
  - rewrite list_lookup_total_alter_eq by (by rewrite length_alter).
    apply dict_values_set_new.
Qed.

Lemma assert_reachable_two_eq (σ : StateSpace) a v1 v2 ra r1 r2 :
  dict_get (vertices σ) a = Some ra →
  dict_get (vertices σ) v1 = Some r1 → dict_get (vertices σ) v2 = Some r2 →
  location (objects σ !!! r1) = location (objects σ !!! r2) →
  let d := displacement σ ra r1 in
  assert_reachable a (inr [v1; v2]) σ
  = (Ok (), with_objects σ
      (alter (reachable_set (opposite d) a) r2
         (alter (reachable_set d v2) ra
            (alter (reachable_set (opposite d) a) r1
               (alter (reachable_set d v1) ra (objects σ)))))).
Proof.
  intros Ha H1 H2 Hloc d. subst d.
  unfold assert_reachable, for_each, mbind, M_bind, bind.
  rewrite (assert_reachable_body_eq σ a v1 ra r1) by done.
  rewrite (assert_reachable_body_eq _ a v2 ra r2) by done.
  unfold with_objects, displacement. fields.
  by rewrite !location_alter, Hloc by done.
Qed.

(** ** Properties of the methods *)

(** X10: [add_edge(a, b)] with [a] a vertex and [b] none raises
    [KeyError(b)] after it has appended [b] to the edges of [a]: the state
    space keeps an edge to a name that is no vertex; nothing else of it
    changes. *)
Theorem add_edge_missing_vertex (σ : StateSpace) (a b : string)
    (Hwf : wf σ)
    (Ha : is_Some (dict_get (vertices σ) a))
    (Hb : dict_get (vertices σ) b = None) :
  ∃ σ', add_edge a b σ = (Raise (KeyError b), σ')
        ∧ has_edge σ' a b
        ∧ vertices σ' = vertices σ
        ∧ polygon_edges σ' = polygon_edges σ
        ∧ ∀ n, actions σ' n = actions σ n.
Proof.
  destruct Ha as [ra Ha]. destruct Hwf as [Hrange _].
  rewrite (add_edge_KeyError_eq σ a b ra) by done.
  eexists. split; [done|]. unfold has_edge, actions, with_objects. fields.
  split; [|split; [done|split; [done|]]].
  - exists ra. split; [done|].
    rewrite list_lookup_total_alter_eq by (by eapply Hrange).
    apply elem_of_app. right. by left.
  - intros n. destruct (dict_get (vertices σ) n) as [r|]; [|done].
    rewrite list_lookup_total_alter. case_decide as H; [|done].
    by destruct H as [-> _].
Qed.

(** X11: after [assert_reachable(a, v)] on two vertices, [actions] lists
    each of them for the other. *)
Theorem assert_reachable_mutual (σ : StateSpace) (a v : string)
    (Hwf : wf σ)
    (Ha : is_Some (dict_get (vertices σ) a))
    (Hv : is_Some (dict_get (vertices σ) v)) :
  ∃ σ' la lv,
    assert_reachable a (inl v) σ = (Ok (), σ')
    ∧ actions σ' a = Ok la ∧ v ∈ la
    ∧ actions σ' v = Ok lv ∧ a ∈ lv.
Proof.
  rewrite assert_reachable_one. by apply assert_reachable_mutual_aux.
Qed.

(** X12: a vertex has one neighbour for each displacement. When [a],
    [v1] and [v2] are three different names of vertices of a well-formed
    state space, [v1] and [v2] are at the same location, their displacement
    from [a] is equal to itself, and [v1] is no neighbour of [a] yet,
    [assert_reachable(a, [v1, v2])] leaves [a] with the neighbour [v2] and
    without [v1], although [v1] has the neighbour [a]. *)
Theorem assert_reachable_same_location (σ : StateSpace)
    (a v1 v2 : string) (ra r1 r2 : nat) (l : list string)
    (Hwf : wf σ)
    (Ha1 : a ≠ v1) (Ha2 : a ≠ v2) (H12 : v1 ≠ v2)
    (Ha : dict_get (vertices σ) a = Some ra)
    (H1 : dict_get (vertices σ) v1 = Some r1)
    (H2 : dict_get (vertices σ) v2 = Some r2)
    (Hloc : location (objects σ !!! r1) = location (objects σ !!! r2))
    (Hkey : py_eq (displacement σ ra r1) (displacement σ ra r1) = true)
    (Hl : actions σ a = Ok l) (Hv1 : v1 ∉ l) :
  ∃ σ' l' l1,
    assert_reachable a (inr [v1; v2]) σ = (Ok (), σ')
    ∧ actions σ' a = Ok l' ∧ v2 ∈ l' ∧ (v1 ∉ l')
    ∧ actions σ' v1 = Ok l1 ∧ a ∈ l1.
Proof.
  destruct Hwf as [Hrange Hinj]. unfold actions in Hl. rewrite Ha in Hl.
  injection Hl as <-.
  rewrite (assert_reachable_two_eq σ a v1 v2 ra r1 r2) by done.
  assert (ra ≠ r1) as Hra1 by (intros ->; by apply Ha1, (Hinj _ _ r1)).
  assert (ra ≠ r2) as Hra2 by (intros ->; by apply Ha2, (Hinj _ _ r2)).
  assert (r1 ≠ r2) as Hr12 by (intros ->; by apply H12, (Hinj _ _ r2)).
  pose proof (Hrange _ _ Ha). pose proof (Hrange _ _ H1).
  eexists _, _, _. split; [done|]. unfold actions, with_objects. fields.
  rewrite Ha, H1. split; [done|]. split; [|split; [|split; [done|]]].
  - rewrite list_lookup_total_alter_ne by done.
    rewrite list_lookup_total_alter_eq by (by rewrite !length_alter).
    apply dict_values_set_new.
  - rewrite list_lookup_total_alter_ne by done.
    rewrite list_lookup_total_alter_eq by (by rewrite !length_alter).
    rewrite list_lookup_total_alter_ne by done.
    rewrite list_lookup_total_alter_eq by done.
    unfold reachable_set at 1 2. fields. rewrite dict_set_set by done.
    intros [?|?]%dict_values_set; done.
  - rewrite list_lookup_total_alter_ne by done.
    rewrite list_lookup_total_alter_ne by done.
    rewrite list_lookup_total_alter_eq by (by rewrite !length_alter).
    apply dict_values_set_new.
Qed.

(** X13: [add_vertex], [set_start] and [set_goal] under a name replace the
    vertex of this name by a new one without neighbours, and leave the
    neighbours of every other vertex as they are, so a vertex that had the
    name as a neighbour keeps it. *)
Theorem add_vertex_again (σ : StateSpace) (x y : num) (n : string)
    (Hwf : wf σ) :
  Forall (λ method : num → num → string → M unit,
            ∃ σ', method x y n σ = (Ok (), σ')
                  ∧ actions σ' n = Ok []
                  ∧ ∀ m, m ≠ n → actions σ' m = actions σ m)
    [add_vertex; set_start; set_goal].
Proof.
  destruct Hwf as [Hrange _].
  assert (∀ σ' : StateSpace,
    objects σ' = objects σ ++ [Vertex_init x y n] →
    vertices σ' = dict_set (vertices σ) n (length (objects σ)) →
    actions σ' n = Ok [] ∧ ∀ m, m ≠ n → actions σ' m = actions σ m)
    as Hnew.
  { intros σ' Hobj Hvert. unfold actions. rewrite Hvert, Hobj. split.
    - rewrite dict_get_set, decide_True by done.
      rewrite lookup_total_app_r by done. by rewrite Nat.sub_diag.
    - intros m Hm. rewrite dict_get_set, decide_False by done.
      destruct (dict_get (vertices σ) m) as [r|] eqn:Hr; [|done].
      rewrite lookup_total_app_l by (by eapply Hrange). done. }
  repeat apply Forall_cons_2; [..|apply Forall_nil_2];
    (eexists; split; [reflexivity|]; by apply Hnew).
Qed.

(** X14: [set_goal] stores one object as [goal] and in [vertices]; an
    [add_vertex] under the same name afterwards replaces the one in
    [vertices] only, and [goal] stays the vertex at the old location. *)
Theorem add_vertex_keeps_goal (σ : StateSpace) (x y x' y' : num)
    (n : string) :
  let σ1 := (set_goal x y n σ).2 in
  let σ2 := (add_vertex x' y' n σ1).2 in
  ∃ g r,
    goal σ1 = Some g ∧ dict_get (vertices σ1) n = Some g
    ∧ goal σ2 = Some g ∧ dict_get (vertices σ2) n = Some r ∧ r ≠ g
    ∧ location (objects σ2 !!! g) = (x, y)
    ∧ location (objects σ2 !!! r) = (x', y').
Proof.
  exists (length (objects σ)), (S (length (objects σ))).
  unfold set_goal, add_vertex, mbind, M_bind, bind, new_vertex, vertices_set,
    goal_set. fields.
  rewrite !dict_get_set, !decide_True by done.
  rewrite length_app. simpl. rewrite Nat.add_1_r.
  split; [done|]. split; [done|]. split; [done|]. split; [done|].
  split; [lia|]. split.
  - rewrite lookup_total_app_l by (rewrite length_app; simpl; lia).
    rewrite lookup_total_app_r by done. by rewrite Nat.sub_diag.
  - rewrite lookup_total_app_r by (rewrite length_app; simpl; lia).
    rewrite length_app. simpl.
    by replace (S (length (objects σ)) - (length (objects σ) + 1))%nat
      with 0%nat by lia.
Qed.

(** X15: in a state space that the methods have built, whatever they were
    called with and whether they raised, every action of a state is the
    name of a vertex: [actions] on [result(state, action)] raises no
    [KeyError]. *)
Theorem neighbours_are_vertices (σ : StateSpace) (state action : string)
    (l : list string)
    (Hbuilt : built σ)
    (Hl : actions σ state = Ok l) (Haction : action ∈ l) :
  ∃ l', actions σ (result_ state action) = Ok l'.
Proof.
  apply built_invariant in Hbuilt as [_ Hknown]. unfold actions in *.
  destruct (dict_get (vertices σ) state) as [r|] eqn:Hr; [|done].
  injection Hl as <-. destruct (Hknown state r action Hr Haction) as [r' Hr'].
  unfold result_. rewrite Hr'. by eexists.
Qed.

(** *** The polygon edges *)

Lemma linked_weaken V Pg (L L' : string → string → Prop) (σ : StateSpace) :
  (∀ a b, L a b → L' a b) → linked V Pg L' σ → linked V Pg L σ.
Proof.
  intros HL (? & ? & ? & Hedges). split; [done|]. split; [done|].
  split; [done|]. intros a b Hab. by apply Hedges, HL.
Qed.

Lemma linked_vertices_get V Pg L n r :
  dict_get V n = Some r →
  hoare (linked V Pg L) (vertices_get n)
    (λ r' σ, linked V Pg L σ ∧ r' = r) never.
Proof.
  intros Hn σ Hσ. unfold vertices_get. pose proof Hσ as (_ & HV & _).
  by rewrite HV, Hn.
Qed.

Lemma linked_deref V Pg L r :
  hoare (linked V Pg L) (deref r) (λ _, linked V Pg L) never.
Proof. by intros σ Hσ. Qed.

Lemma linked_item {A} (P : StateSpace → Prop) (l : list A) i x :
  l !! i = Some x → hoare P (item l i) (λ y σ, P σ ∧ y = x) never.
Proof. intros Hi σ Hσ. unfold item. by rewrite Hi. Qed.

Lemma linked_last_item {A} (P : StateSpace → Prop) (l : list A) x :
  last l = Some x → hoare P (last_item l) (λ y σ, P σ ∧ y = x) never.
Proof. intros Hi σ Hσ. unfold last_item. by rewrite Hi. Qed.

Lemma has_edge_modify (σ : StateSpace) r f a b :
  (∀ v x, x ∈ edges v → x ∈ edges (f v)) →
  has_edge σ a b → has_edge (modify r f σ).2 a b.
Proof.
  intros Hf (ra & Ha & Hb). exists ra. unfold modify. fields.
  split; [done|]. rewrite list_lookup_total_alter. case_decide as H; [|done].
  destruct H as [-> _]. by apply Hf.
Qed.

Lemma wf_modify (σ : StateSpace) r f : wf σ → wf (modify r f σ).2.
Proof.
  intros [Hrange Hinj]. split; [|done]. intros n r0 Hn. unfold modify.
  fields. rewrite length_alter. by eapply Hrange.
Qed.

Lemma linked_modify V Pg L r f :
  (∀ v x, x ∈ edges v → x ∈ edges (f v)) →
  hoare (linked V Pg L) (modify r f) (λ _, linked V Pg L) never.
Proof.
  intros Hf σ (Hwf & HV & HPg & Hedges).
  change (linked V Pg L (modify r f σ).2).
  split; [by apply wf_modify|]. split; [done|]. split; [done|].
  intros a b Hab. apply has_edge_modify; auto.
Qed.

Lemma linked_edges_append V Pg L a ra b :
  dict_get V a = Some ra →
  hoare (linked V Pg L) (modify ra (edges_append b))
    (λ _, linked V Pg (also a b L)) never.
Proof.
  intros Ha σ (Hwf & HV & HPg & Hedges).
  change (linked V Pg (also a b L) (modify ra (edges_append b) σ).2).
  split; [by apply wf_modify|]. split; [done|]. split; [done|].
  intros a' b' [[-> ->]|Hab].
  - exists ra. unfold modify. fields. rewrite HV. split; [done|].
    rewrite list_lookup_total_alter_eq.
    + apply elem_of_app. right. by left.
    + destruct Hwf as [Hrange _]. apply (Hrange a). by rewrite HV.
  - apply has_edge_modify; [|by auto]. intros v x Hx.
    apply elem_of_app. by left.
Qed.

Lemma linked_polygon_edges_append V Pg L e :
  hoare (linked V Pg L) (polygon_edges_append e) (λ _, linked V Pg L) never.
Proof. by intros σ Hσ. Qed.

Lemma linked_assert_reachable V Pg L a v :
  is_Some (dict_get V a) → is_Some (dict_get V v) →
  hoare (linked V Pg L) (assert_reachable a (inl v))
    (λ _, linked V Pg L) never.
Proof.
  intros [ra Ha] [rv Hv].
  unfold assert_reachable, for_each, assert_reachable_body.
  apply (hoare_bind _ _ _ (λ _, linked V Pg L)); [|by intros [] σ Hσ].
  eapply hoare_bind; [by apply linked_vertices_get|]. intros ?.
  apply hoare_pure. intros ->.
  eapply hoare_bind; [apply linked_deref|]. intros [[x1 y1] ? ? ?]. fields.
  eapply hoare_bind; [by apply linked_vertices_get|]. intros ?.
  apply hoare_pure. intros ->.
  eapply hoare_bind; [apply linked_deref|]. intros [[x2 y2] ? ? ?]. fields.
  eapply hoare_bind; [by apply linked_vertices_get|]. intros ?.
  apply hoare_pure. intros ->.
  eapply hoare_bind; [by apply linked_modify|]. intros [].
  eapply hoare_bind; [by apply linked_vertices_get|]. intros ?.
  apply hoare_pure. intros ->.
  by apply linked_modify.
Qed.

Lemma linked_add_edge V Pg L a b :
  is_Some (dict_get V a) → is_Some (dict_get V b) →
  hoare (linked V Pg L) (add_edge a b)
    (λ _, linked V Pg (also b a (also a b L))) never.
Proof.
  intros [ra Ha] [rb Hb]. unfold add_edge.
  eapply hoare_bind; [by apply linked_vertices_get|]. intros ?.
  apply hoare_pure. intros ->.
  eapply hoare_bind; [by apply linked_edges_append|]. intros [].
  eapply hoare_bind; [by apply linked_vertices_get|]. intros ?.
  apply hoare_pure. intros ->.
  eapply hoare_bind; [by apply linked_edges_append|]. intros [].
  eapply hoare_bind; [by apply linked_vertices_get|]. intros ?.
  apply hoare_pure. intros ->.
  eapply hoare_bind; [apply linked_deref|]. intros [[x1 y1] ? ? ?]. fields.
  eapply hoare_bind; [by apply linked_vertices_get|]. intros ?.
  apply hoare_pure. intros ->.
  eapply hoare_bind; [apply linked_deref|]. intros [[x2 y2] ? ? ?]. fields.
  eapply hoare_bind; [apply linked_polygon_edges_append|]. intros [].
  by apply linked_assert_reachable.
Qed.

(** The loop of [connect_polygon]. *)
Lemma linked_polygon_loop V Pg (v_names : list string) (indices : list nat) :
  (∀ n, n ∈ v_names → is_Some (dict_get V n)) →
  (∀ i, i ∈ indices → (S i < length v_names)%nat) →
  ∀ L,
  hoare (linked V Pg L)
    (for_each indices
       (λ i, a ← item v_names i; b ← item v_names (i + 1); add_edge a b))
    (λ _ σ, linked V Pg L σ
            ∧ ∀ i a b, i ∈ indices →
                v_names !! i = Some a → v_names !! S i = Some b →
                has_edge σ a b ∧ has_edge σ b a)
    never.
Proof.
  intros Hnames. induction indices as [|i indices IH]; intros Hi L.
  { intros σ Hσ. simpl. split; [done|]. by intros ??? ?%elem_of_nil. }
  cbn [for_each].
  assert (S i < length v_names)%nat as Hlt by (apply Hi; by left).
  destruct (lookup_lt_is_Some_2 v_names i) as [a Ha]; [lia|].
  destruct (lookup_lt_is_Some_2 v_names (S i)) as [b Hb]; [lia|].
  apply (hoare_bind _ _ _ (λ _, linked V Pg (also b a (also a b L)))).
  - eapply hoare_bind; [by apply linked_item|]. intros ?.
    apply hoare_pure. intros ->.
    eapply hoare_bind.
    { apply linked_item. by rewrite Nat.add_1_r. }
    intros ?. apply hoare_pure. intros ->.
    apply linked_add_edge; apply Hnames; by eapply list_elem_of_lookup_2.
  - intros []. eapply hoare_weaken; [apply IH| | |].
    + intros j Hj. apply Hi. by right.
    + intros σ Hσ. exact Hσ.
    + intros [] σ [Hσ Hedges]. split.
      * eapply linked_weaken; [|exact Hσ].
        intros x y Hxy. right. by right.
      * intros j a' b' [->|Hj]%elem_of_cons Ha' Hb'; [|by eauto].
        simplify_eq. destruct Hσ as (_ & _ & _ & HL).
        split; apply HL.
        -- right. by left.
        -- by left.
    + done.
Qed.

Lemma connect_polygon_linked V Pg v_names shape_label :
  v_names ≠ [] → (∀ n, n ∈ v_names → is_Some (dict_get V n)) →
  hoare (linked V Pg (λ _ _, False)) (connect_polygon v_names shape_label)
    (λ _ σ, vertices σ = V ∧ polygons σ = Pg ++ [(shape_label, v_names)]
            ∧ (∀ i a b, v_names !! i = Some a → v_names !! S i = Some b →
                 has_edge σ a b ∧ has_edge σ b a)
            ∧ (∀ a b, head v_names = Some a → last v_names = Some b →
                 has_edge σ a b ∧ has_edge σ b a))
    never.
Proof.
  intros Hne Hnames. unfold connect_polygon.
  set (L := λ x y, ∃ i, (v_names !! i = Some x ∧ v_names !! S i = Some y)
                        ∨ (v_names !! i = Some y ∧ v_names !! S i = Some x)).
  assert (∃ a0, head v_names = Some a0) as [a0 Hhead]
    by (destruct v_names; [done|by eexists]).
  destruct (last v_names) as [b0|] eqn:Hlast;
    [|by apply last_None in Hlast].
  apply (hoare_bind _ _ _ (λ _, linked V Pg L)).
  { eapply hoare_weaken;
      [apply (linked_polygon_loop V Pg v_names
                (seq 0 (length v_names - 1)) Hnames)| | |done].
    - intros i [_ Hi]%elem_of_seq. lia.
    - intros σ Hσ. exact Hσ.
    - intros [] σ [(Hwf & HV & HPg & _) Hedges].
      split; [done|]. split; [done|]. split; [done|].
      intros x y [i [[Hx Hy]|[Hy Hx]]];
        (assert (i ∈ seq 0 (length v_names - 1)) as Hi;
         [apply elem_of_seq; apply lookup_lt_Some in Hx, Hy; lia|]);
        by edestruct Hedges as [? ?]. }
  intros [].
  eapply hoare_bind.
  { apply linked_item. by rewrite <- head_lookup. }
  intros ?. apply hoare_pure. intros ->.
  eapply hoare_bind; [by apply linked_last_item|].
  intros ?. apply hoare_pure. intros ->.
  eapply hoare_bind.
  { apply linked_add_edge; apply Hnames.
    - by apply head_Some_elem_of.
    - by apply last_Some_elem_of. }
  intros []. intros σ (Hwf & HV & HPg & Hedges). unfold polygons_append.
  fields. split; [done|]. split; [by rewrite HPg|]. split.
  - intros i a b Ha Hb. split; apply Hedges; right; right; exists i; auto.
  - intros a b Ha Hb. simplify_eq. split; apply Hedges.
    + right. by left.
    + by left.
Qed.

(** *** How [connect_polygon] ends *)

Lemma hoare_never {A} P (m : M A) Q E : hoare P m Q never → hoare P m Q E.
Proof.
  intros Hm σ Hσ. specialize (Hm σ Hσ). by destruct (m σ) as [[a|e] σ'].
Qed.

Section outcome.
Context (V : list (string * nat)) (v_names : list string).

Local Abbreviation I := (has_vertices V).
Local Abbreviation E := (polygon_error V v_names).

Lemma outcome_vertices_get n :
  n ∈ v_names →
  hoare I (vertices_get n) (λ _ σ, I σ ∧ is_Some (dict_get V n)) E.
Proof.
  intros Hn σ Hσ. unfold vertices_get. rewrite Hσ.
  destruct (dict_get V n) eqn:Hget; [|done]. split; [done|]. by eexists.
Qed.

Lemma outcome_deref r : hoare I (deref r) (λ _, I) E.
Proof. by intros σ Hσ. Qed.

Lemma outcome_modify r f : hoare I (modify r f) (λ _, I) E.
Proof. by intros σ Hσ. Qed.

Lemma outcome_polygon_edges_append e :
  hoare I (polygon_edges_append e) (λ _, I) E.
Proof. by intros σ Hσ. Qed.

Lemma outcome_assert_reachable a v :
  a ∈ v_names → v ∈ v_names →
  hoare I (assert_reachable a (inl v)) (λ _, I) E.
Proof.
  intros Ha Hv. unfold assert_reachable, for_each, assert_reachable_body.
  apply (hoare_bind _ _ _ (λ _, I)); [|by intros [] σ Hσ].
  eapply hoare_bind; [by apply outcome_vertices_get|]. intros ra.
  apply hoare_pure. intros _.
  eapply hoare_bind; [apply outcome_deref|]. intros [[x1 y1] ? ? ?]. fields.
  eapply hoare_bind; [by apply outcome_vertices_get|]. intros rv.
  apply hoare_pure. intros _.
  eapply hoare_bind; [apply outcome_deref|]. intros [[x2 y2] ? ? ?]. fields.
  eapply hoare_bind; [by apply outcome_vertices_get|]. intros ra'.
  apply hoare_pure. intros _.
  eapply hoare_bind; [by apply outcome_modify|]. intros [].
  eapply hoare_bind; [by apply outcome_vertices_get|]. intros rv'.
  apply hoare_pure. intros _.
  by apply outcome_modify.
Qed.

Lemma outcome_add_edge a b :
  a ∈ v_names → b ∈ v_names →
  hoare I (add_edge a b)
    (λ _ σ, I σ ∧ (is_Some (dict_get V a) ∧ is_Some (dict_get V b))) E.
Proof.
  intros Ha Hb. unfold add_edge.
  eapply hoare_bind; [by apply outcome_vertices_get|]. intros ra.
  apply hoare_pure. intros HVa.
  eapply hoare_bind; [by apply outcome_modify|]. intros [].
  eapply hoare_bind; [by apply outcome_vertices_get|]. intros rb.
  apply hoare_pure. intros HVb.
  eapply hoare_bind; [by apply outcome_modify|]. intros [].
  eapply hoare_bind; [by apply outcome_vertices_get|]. intros ra'.
  apply hoare_pure. intros _.
  eapply hoare_bind; [apply outcome_deref|]. intros [[x1 y1] ? ? ?]. fields.
  eapply hoare_bind; [by apply outcome_vertices_get|]. intros rb'.
  apply hoare_pure. intros _.
  eapply hoare_bind; [apply outcome_deref|]. intros [[x2 y2] ? ? ?]. fields.
  eapply hoare_bind; [apply outcome_polygon_edges_append|]. intros [].
  eapply hoare_weaken;
    [by apply outcome_assert_reachable|by auto|by intros [] σ Hσ|by auto].
Qed.

Lemma outcome_polygon_loop (indices : list nat) :
  (∀ i, i ∈ indices → (S i < length v_names)%nat) →
  hoare I
    (for_each indices
       (λ i, a ← item v_names i; b ← item v_names (i + 1); add_edge a b))
    (λ _ σ, I σ
            ∧ ∀ i a, i ∈ indices →
                v_names !! i = Some a ∨ v_names !! S i = Some a →
                is_Some (dict_get V a))
    E.
Proof.
  induction indices as [|i indices IH]; intros Hi.
  { intros σ Hσ. simpl. split; [done|]. by intros ?? ?%elem_of_nil. }
  cbn [for_each].
  assert (S i < length v_names)%nat as Hlt by (apply Hi; by left).
  destruct (lookup_lt_is_Some_2 v_names i) as [a Ha]; [lia|].
  destruct (lookup_lt_is_Some_2 v_names (S i)) as [b Hb]; [lia|].
  apply (hoare_bind _ _ _
    (λ _ σ, I σ ∧ (is_Some (dict_get V a) ∧ is_Some (dict_get V b)))).
  - eapply hoare_bind.
    { by apply hoare_never, linked_item. }
    intros ?. apply hoare_pure. intros ->.
    eapply hoare_bind.
    { apply hoare_never, linked_item. by rewrite Nat.add_1_r. }
    intros ?. apply hoare_pure. intros ->.
    apply outcome_add_edge; by eapply list_elem_of_lookup_2.
  - intros []. apply hoare_pure. intros [HVa HVb].
    eapply hoare_weaken; [apply IH|by auto| |by auto].
    + intros j Hj. apply Hi. by right.
    + intros [] σ [Hσ Hrest]. split; [done|].
      intros j c [->|Hj]%elem_of_cons Hc; [|by eauto].
      destruct Hc; by simplify_eq.
Qed.

Lemma outcome_connect_polygon shape_label :
  hoare I (connect_polygon v_names shape_label)
    (λ _ σ, v_names ≠ [] ∧ ∀ n, n ∈ v_names → is_Some (dict_get V n))
    E.
Proof.
  unfold connect_polygon.
  eapply hoare_bind.
  { apply outcome_polygon_loop. intros i [_ Hi]%elem_of_seq. lia. }
  intros []. apply hoare_pure. intros Hloop.
  destruct v_names as [|a0 v_names'] eqn:Hv; [by intros σ Hσ|].
  rewrite <- Hv in *.
  assert (head v_names = Some a0) as Hhead by by rewrite Hv.
  destruct (last v_names) as [b0|] eqn:Hlast;
    [|by apply last_None in Hlast; rewrite Hlast in Hv].
  eapply hoare_bind.
  { apply hoare_never, linked_item. by rewrite <- head_lookup. }
  intros ?. apply hoare_pure. intros ->.
  eapply hoare_bind.
  { by apply hoare_never, linked_last_item. }
  intros ?. apply hoare_pure. intros ->.
  eapply hoare_bind.
  { apply outcome_add_edge;
      [by apply head_Some_elem_of|by apply last_Some_elem_of]. }
  intros []. apply hoare_pure. intros [HVa _]. intros σ Hσ.
  unfold polygons_append. split; [by rewrite Hv|].
  intros n [j Hj]%list_elem_of_lookup_1.
  pose proof (lookup_lt_Some _ _ _ Hj) as Hlen.
  destruct (decide (S j < length v_names)%nat) as [Hlt|Hge].
  { apply (Hloop j); [|by left]. apply elem_of_seq. lia. }
  destruct j as [|j].
  { rewrite <- head_lookup in Hj. by simplify_eq. }
  apply (Hloop j); [|by right]. apply elem_of_seq. lia.
Qed.

End outcome.

(** X16: on a well-formed state space, [connect_polygon] with a list of
    names of vertices that is not empty returns; it keeps the vertices,
    appends the polygon to [polygons], and puts each name in the edges of
    the next one of the list and back, and likewise the first and the last
    name. *)
Theorem connect_polygon_links (σ : StateSpace) (v_names : list string)
    (shape_label : option string)
    (Hwf : wf σ)
    (Hne : v_names ≠ [])
    (Hnames : ∀ n, n ∈ v_names → is_Some (dict_get (vertices σ) n)) :
  ∃ σ', connect_polygon v_names shape_label σ = (Ok (), σ')
        ∧ vertices σ' = vertices σ
        ∧ polygons σ' = polygons σ ++ [(shape_label, v_names)]
        ∧ (∀ i a b, v_names !! i = Some a → v_names !! S i = Some b →
             has_edge σ' a b ∧ has_edge σ' b a)
        ∧ (∀ a b, head v_names = Some a → last v_names = Some b →
             has_edge σ' a b ∧ has_edge σ' b a).
Proof.
  pose proof (connect_polygon_linked (vertices σ) (polygons σ) v_names
                shape_label Hne Hnames σ) as Hrun.
  destruct (connect_polygon v_names shape_label σ) as [[[]|e] σ'].
  - exists σ'. split; [done|]. by apply Hrun.
  - destruct Hrun. split; [done|]. split; [done|]. split; [done|]. done.
Qed.

(** X17: how [connect_polygon] ends. It returns only for a list that is not
    empty and holds names of vertices only; it raises [IndexError] only for
    the empty list, [KeyError(n)] only for a name [n] of the list that is no
    vertex, and nothing else. *)
Theorem connect_polygon_outcome (σ : StateSpace) (v_names : list string)
    (shape_label : option string) :
  match (connect_polygon v_names shape_label σ).1 with
  | Ok _ =>
      v_names ≠ [] ∧ ∀ n, n ∈ v_names → is_Some (dict_get (vertices σ) n)
  | Raise (KeyError n) => n ∈ v_names ∧ dict_get (vertices σ) n = None
  | Raise IndexError => v_names = []
  | Raise ZeroDivisionError => False
  end.
Proof.
  pose proof (outcome_connect_polygon (vertices σ) v_names shape_label σ
                eq_refl) as Hrun.
  by destruct (connect_polygon v_names shape_label σ) as [[[]|[n| |]] σ'].
Qed.

(** *** Routes *)

Lemma is_action_true (σ : StateSpace) state action :
  is_action σ state action = true →
  ∃ l, actions σ state = Ok l ∧ action ∈ l.
Proof.
  unfold is_action. destruct (actions σ state) as [l|e]; [|done].
  intros Hl%bool_decide_eq_true. by exists l.
Qed.

Lemma is_route_true (σ : StateSpace) state path target :
  is_route σ state path target = true → route σ state path target.
Proof.
  revert state. induction path as [|action path IH]; intros state; simpl.
  - by intros ?%bool_decide_eq_true.
  - intros [Ha Hp]%andb_true_iff. split; [by apply is_action_true|].
    by apply IH.
Qed.

Lemma dict_get_elem_of {V} (d : list (string * V)) k v :
  dict_get d k = Some v → (k, v) ∈ d.
Proof.
  induction d as [|[k0 v0] d IH]; simpl; [done|].
  destruct (py_eq k0 k) eqn:Hk.
  - apply string_py_eq_true in Hk as ->. intros [= ->]. by left.
  - intros ?%IH. by right.
Qed.

Lemma are_neighbours_mutual_true (σ : StateSpace) :
  are_neighbours_mutual σ = true → neighbours_mutual σ.
Proof.
  unfold are_neighbours_mutual. rewrite forallb_forall.
  intros Hall a b la Ha Hb. unfold actions in Ha.
  destruct (dict_get (vertices σ) a) as [r|] eqn:Hr; [|done].
  injection Ha as <-. apply dict_get_elem_of, list_elem_of_In in Hr.
  specialize (Hall _ Hr). simpl in Hall. rewrite forallb_forall in Hall.
  apply is_action_true, Hall. by apply list_elem_of_In.
Qed.

End state_space_properties.

Lemma example_built : built example.
Proof. repeat apply built_add_vertex. apply built_init. Qed.

Lemma example_wf : wf example.
Proof. apply (built_invariant), example_built. Qed.

Lemma add_edge_missing_vertex_witness :
  ∃ σ', add_edge "a" "c" example = (Raise (KeyError "c"), σ')
        ∧ has_edge σ' "a" "c"
        ∧ vertices σ' = vertices example
        ∧ polygon_edges σ' = polygon_edges example
        ∧ ∀ n, actions σ' n = actions example n.
Proof.
  apply (add_edge_missing_vertex example "a" "c").
  - exact example_wf.
  - by eexists.
  - reflexivity.
Defined.

Lemma assert_reachable_mutual_witness :
  ∃ σ' la lv,
    assert_reachable "a" (inl "b") example = (Ok (), σ')
    ∧ actions σ' "a" = Ok la ∧ "b" ∈ la
    ∧ actions σ' "b" = Ok lv ∧ "a" ∈ lv.
Proof.
  apply (assert_reachable_mutual example "a" "b").
  - exact example_wf.
  - by eexists.
  - by eexists.
Defined.

Lemma assert_reachable_same_location_witness :
  ∃ σ' l' l1,
    assert_reachable "a" (inr ["p"; "q"]) example = (Ok (), σ')
    ∧ actions σ' "a" = Ok l' ∧ "q" ∈ l' ∧ ("p" ∉ l')
    ∧ actions σ' "p" = Ok l1 ∧ "a" ∈ l1.
Proof.
  apply (assert_reachable_same_location example "a" "p" "q"
           0 2 3 []).
  - exact example_wf.
  - done.
  - done.
  - done.
  - reflexivity.
  - reflexivity.
  - reflexivity.
  - reflexivity.
  - reflexivity.
  - reflexivity.
  - by intros ?%elem_of_nil.
Defined.

Lemma connect_polygon_links_witness :
  ∃ σ', connect_polygon ["a"; "b"; "p"] (Some "T") example
        = (Ok (), σ')
        ∧ vertices σ' = vertices example
        ∧ polygons σ' = polygons example ++ [(Some "T", ["a"; "b"; "p"])]
        ∧ (∀ i a b, ["a"; "b"; "p"] !! i = Some a →
             ["a"; "b"; "p"] !! S i = Some b →
             has_edge σ' a b ∧ has_edge σ' b a)
        ∧ (∀ a b, head ["a"; "b"; "p"] = Some a →
             last ["a"; "b"; "p"] = Some b →
             has_edge σ' a b ∧ has_edge σ' b a).
Proof.
  apply (connect_polygon_links example ["a"; "b"; "p"]).
  - exact example_wf.
  - done.
  - intros n Hn. repeat apply elem_of_cons in Hn as [->|Hn];
      [by eexists..|by apply elem_of_nil in Hn].
Defined.

Lemma add_vertex_again_witness :
  Forall (λ method : Z → Z → string → M unit,
            ∃ σ', method 7 7 "b" example = (Ok (), σ')
                  ∧ actions σ' "b" = Ok []
                  ∧ ∀ m, m ≠ "b" → actions σ' m = actions example m)
    [add_vertex; set_start; set_goal].
Proof. apply (add_vertex_again example 7 7 "b"). exact example_wf. Defined.

Lemma neighbours_are_vertices_witness :
  ∃ l', actions (assert_reachable "a" (inl "b") example).2
          (result_ "a" "b") = Ok l'.
Proof.
  apply (neighbours_are_vertices _ "a" "b" ["b"]).
  - apply built_assert_reachable, example_built.
  - reflexivity.
  - by left.
Defined.

(** X18: [build_figure_3_31_env()] returns a state space: no call in it
    raises. In this state space [start] and [goal] are the vertices of the
    names S and G, every vertex is a neighbour of its neighbours, and
    actions lead from S to G. *)
Theorem figure_3_31_env_connected :
  ∃ env,
    build_figure_3_31_env = Ok env
    ∧ is_Some (start env) ∧ start env = dict_get (vertices env) "S"
    ∧ is_Some (goal env) ∧ goal env = dict_get (vertices env) "G"
    ∧ neighbours_mutual env
    ∧ ∃ path, route env "S" path "G".
Proof.
  exists (build_figure_3_31_env_calls StateSpace_init).2.
  split; [|split; [|split; [|split; [|split; [|split]]]]].
  - unfold build_figure_3_31_env.
    destruct (build_figure_3_31_env_calls StateSpace_init)
      as [[[]|e] env] eqn:Hcalls; [done|].
    by vm_compute in Hcalls.
  - vm_compute. by eexists.
  - vm_compute. reflexivity.
  - vm_compute. by eexists.
  - vm_compute. reflexivity.
  - apply are_neighbours_mutual_true. vm_compute. reflexivity.
  - exists ["rec2"; "tri3"; "quad4"; "rec_2_2"; "quad_2_3"; "G"].
    apply is_route_true. vm_compute. reflexivity.
Qed.


(** ** Properties of the geometry *)

(** X19: [segments_intersect] takes its two segments in any order. *)
Theorem segments_intersect_swap (p1 q1 p2 q2 : point) :
  segments_intersect p1 q1 p2 q2 = segments_intersect p2 q2 p1 q1.
Proof.
  unfold segments_intersect.
  destruct (orientation p1 q1 p2 =? orientation p1 q1 q2)%Z,
    (orientation p2 q2 p1 =? orientation p2 q2 q1)%Z,
    (orientation p1 q1 p2 =? 0)%Z, (orientation p1 q1 q2 =? 0)%Z,
    (orientation p2 q2 p1 =? 0)%Z, (orientation p2 q2 q1 =? 0)%Z,
    (on_segment p1 p2 q1), (on_segment p1 q2 q1), (on_segment p2 p1 q2),
    (on_segment p2 q1 q2); reflexivity.
Qed.

Lemma for_return_None {A R} (l : list A) (body : A → result (option R)) :
  for_return l body = Ok None ↔ ∀ x, x ∈ l → body x = Ok None.
Proof.
  induction l as [|x l IH]; simpl.
  - split; [by intros _ ? ?%elem_of_nil|done].
  - split.
    + intros Hrun y [->|Hy]%elem_of_cons.
      * by destruct (body x) as [[v|]|e].
      * destruct (body x) as [[v|]|e]; try done. by apply IH.
    + intros Hall. rewrite (Hall x) by (by left). simpl. apply IH.
      intros y Hy. apply Hall. by right.
Qed.

Lemma for_return_Some {A R} (l : list A) (body : A → result (option R)) v :
  for_return l body = Ok (Some v) → ∃ x, x ∈ l ∧ body x = Ok (Some v).
Proof.
  induction l as [|x l IH]; simpl; [done|].
  destruct (body x) as [[w|]|e] eqn:Hx; simpl; [|..|done].
  - intros [= ->]. exists x. split; [by left|done].
  - intros (y & Hy & Hbody)%IH. exists y. split; [by right|done].
Qed.

Lemma point_in_polygon_body_division x y polygon inside i :
  (i < length polygon)%nat →
  division_only (point_in_polygon_body x y polygon inside i).
Proof.
  intros Hi. unfold point_in_polygon_body, getitem.
  destruct (lookup_lt_is_Some_2 polygon i Hi) as [[x1 y1] ->].
  destruct (lookup_lt_is_Some_2 polygon ((i + 1) mod length polygon))
    as [[x2 y2] ->].
  { apply Nat.mod_upper_bound. lia. }
  simpl. destruct (xorb _ _); [|done]. unfold py_div.
  destruct (_ =? _)%float; [done|]. simpl. by destruct (_ <? _)%float.
Qed.

Lemma point_in_polygon_division (pt : point) (polygon : list point) :
  division_only (point_in_polygon pt polygon).
Proof.
  destruct pt as [x y]. unfold point_in_polygon.
  assert (∀ indices acc,
    (∀ i, i ∈ indices → (i < length polygon)%nat) → division_only acc →
    division_only
      (foldl (λ inside i,
                inside ← inside; point_in_polygon_body x y polygon inside i)
         acc indices)) as Hfold.
  { induction indices as [|i indices IH]; intros acc Hi Hacc; [done|].
    simpl. apply IH; [intros j Hj; apply Hi; by right|].
    destruct acc as [inside|e]; [|done]. simpl.
    apply point_in_polygon_body_division, Hi. by left. }
  apply Hfold; [|done]. by intros i [_ Hi]%elem_of_seq.
Qed.

Lemma for_return_division {A R} (l : list A)
    (body : A → result (option R)) :
  (∀ x, x ∈ l → division_only (body x)) → division_only (for_return l body).
Proof.
  induction l as [|x l IH]; intros Hbody; simpl; [done|].
  pose proof (Hbody x (list_elem_of_here _ _)) as Hx.
  destruct (body x) as [[v|]|e]; simpl; [done| |done].
  apply IH. intros y Hy. apply Hbody. by right.
Qed.

Section line_clear_properties.
Context (int_truediv : Z → Z → float).

Local Abbreviation line_clear := (line_clear int_truediv).
Local Abbreviation sample_line := (sample_line int_truediv).

(** [line_clear] returns [True] when no loop in it returns. *)
Lemma line_clear_True p1 p2 polygons num_samples :
  line_clear p1 p2 polygons num_samples = Ok true ↔
  (∀ poly, poly ∈ polygons → edges_loop p1 p2 poly = Ok None)
  ∧ (∀ pt poly, pt ∈ sample_line p1 p2 num_samples → poly ∈ polygons →
       point_in_polygon pt poly = Ok false).
Proof.
  unfold ShortestPath.line_clear. fold (edges_loop p1 p2).
  set (inner := λ pt : point, for_return (R := bool) polygons _).
  assert (∀ pt, inner pt = Ok None ↔
    ∀ poly, poly ∈ polygons → point_in_polygon pt poly = Ok false)
    as Hinner.
  { intros pt. unfold inner. rewrite for_return_None.
    apply forall_proper. intros poly. apply forall_proper. intros _.
    by destruct (point_in_polygon pt poly) as [[]|e]. }
  assert (∀ pt b, inner pt = Ok (Some b) → b = false) as Hfalse2.
  { intros pt b (poly & _ & Hb)%for_return_Some.
    destruct (point_in_polygon pt poly) as [[]|e]; naive_solver. }
  assert (∀ b, for_return polygons (edges_loop p1 p2) = Ok (Some b) →
    b = false) as Hfalse1.
  { intros b (poly & _ & (i & _ & Hb)%for_return_Some)%for_return_Some.
    destruct (getitem poly i) as [v1|]; [|done].
    destruct (getitem poly _) as [v2|]; [|done]. simpl in Hb.
    destruct (_ || _); [done|].
    destruct (segments_intersect _ _ _ _); naive_solver. }
  rewrite <- for_return_None.
  destruct (for_return polygons (edges_loop p1 p2)) as [[b|]|e] eqn:H1; simpl.
  - rewrite (Hfalse1 b eq_refl). split; [done|]. by intros [? _].
  - destruct (for_return (sample_line p1 p2 num_samples) inner)
      as [[b|]|e] eqn:H2; simpl.
    + apply for_return_Some in H2 as (pt & Hpt & Hb).
      pose proof (Hfalse2 pt b Hb) as ->. split; [done|]. intros [_ Hall].
      assert (inner pt = Ok None) as Hnone by (apply Hinner; eauto).
      congruence.
    + split; [|done]. intros _. split; [done|].
      intros pt poly Hpt Hpoly.
      pose proof (proj1 (for_return_None _ _) H2 pt Hpt) as Hnone.
      by apply (proj1 (Hinner pt) Hnone).
    + split; [done|]. intros [_ Hall]. cut (Raise e = Ok (@None bool)); [done|].
      rewrite <- H2. apply for_return_None. intros pt Hpt. apply Hinner.
      eauto.
  - split; [done|]. by intros [? _].
Qed.

(** X20: a line is clear of a list of polygons exactly when it is clear of
    each polygon of the list alone: the polygons are tested one by one,
    and adding a polygon never makes a line clear. *)
Theorem line_clear_each (p1 p2 : point) (polygons : list (list point))
    (num_samples : Z) :
  line_clear p1 p2 polygons num_samples = Ok true ↔
  ∀ poly, poly ∈ polygons → line_clear p1 p2 [poly] num_samples = Ok true.
Proof.
  rewrite line_clear_True. split.
  - intros [Hedges Hpoints] poly Hpoly. apply line_clear_True. split.
    + intros ? ->%list_elem_of_singleton. by apply Hedges.
    + intros pt ? Hpt ->%list_elem_of_singleton. by apply Hpoints.
  - intros Heach. split.
    + intros poly Hpoly. apply Heach, line_clear_True in Hpoly as [He _].
      apply He. by left.
    + intros pt poly Hpt Hpoly.
      apply Heach, line_clear_True in Hpoly as [_ Hp]. apply Hp; [done|].
      by left.
Qed.

(** X21: [point_in_polygon] and [line_clear] take the items of their
    polygons at indices within bounds: they raise no [IndexError], and no
    exception but the [ZeroDivisionError] of a division. *)
Theorem geometry_indices_in_bounds (pt p1 p2 : point)
    (polygon : list point) (polygons : list (list point))
    (num_samples : Z) :
  division_only (point_in_polygon pt polygon)
  ∧ division_only (line_clear p1 p2 polygons num_samples).
Proof.
  split; [apply point_in_polygon_division|].
  unfold ShortestPath.line_clear.
  assert (division_only
    (for_return (R := bool) polygons (λ poly,
       for_return (seq 0 (length poly)) (λ i,
         v1 ← getitem poly i;
         v2 ← getitem poly ((i + 1) mod length poly);
         if py_eq v1 p1 || py_eq v1 p2 || py_eq v2 p1 || py_eq v2 p2
         then Ok None
         else if segments_intersect p1 p2 v1 v2 then Ok (Some false)
         else Ok None)))) as Hedges.
  { apply for_return_division. intros poly _. apply for_return_division.
    intros i [_ Hi]%elem_of_seq. unfold getitem.
    destruct (lookup_lt_is_Some_2 poly i) as [v1 ->]; [lia|].
    destruct (lookup_lt_is_Some_2 poly ((i + 1) mod length poly))
      as [v2 ->].
    { apply Nat.mod_upper_bound. lia. }
    simpl. destruct (_ || _); [done|]. by destruct (segments_intersect _ _ _ _). }
  destruct (for_return polygons _) as [[b|]|e]; simpl; [done| |done].
  clear Hedges.
  assert (division_only
    (for_return (R := bool) (sample_line p1 p2 num_samples) (λ pt,
       for_return polygons (λ poly,
         inside ← point_in_polygon pt poly;
         if inside : bool then Ok (Some false) else Ok None)))) as Hpoints.
  { apply for_return_division. intros pt' _. apply for_return_division.
    intros poly _. pose proof (point_in_polygon_division pt' poly) as Hp.
    by destruct (point_in_polygon pt' poly) as [[]|e]. }
  by destruct (for_return (sample_line _ _ _) _) as [[b|]|e].
Qed.

End line_clear_properties.

(** ** Properties of the automated connections *)

Section build_automated_connections_properties.
Context (int_truediv : Z → Z → float) (hypot : float → float → float).

Local Abbreviation StateSpace := (@StateSpace float).
Local Abbreviation M := (@M float).
Local Abbreviation hoare := (hoare (num := float)).
Local Abbreviation build_automated_connections :=
  (build_automated_connections int_truediv hypot).

Lemma find_app {A} (f : A → bool) (l1 l2 : list A) :
  find f (l1 ++ l2)
  = match find f l1 with Some x => Some x | None => find f l2 end.
Proof. induction l1 as [|x l1 IH]; simpl; [done|]. by destruct (f x). Qed.

Lemma for_list_cons {A B} (x : A) (l : list A) (f : A → M B)
    (σ : StateSpace) :
  for_list (x :: l) f σ
  = match f x σ with
    | (Ok y, σ') =>
        match for_list l f σ' with
        | (Ok ys, σ'') => (Ok (y :: ys), σ'')
        | (Raise e, σ'') => (Raise e, σ'')
        end
    | (Raise e, σ') => (Raise e, σ')
    end.
Proof. reflexivity. Qed.

Lemma location_lookup (σ : StateSpace) (name : string) :
  (r ← vertices_get name; v ← deref r; mret (location v)) σ
  = match dict_get (vertices σ) name with
    | Some r => (Ok (location (objects σ !!! r)), σ)
    | None => (Raise (KeyError name), σ)
    end.
Proof.
  unfold mbind, M_bind, bind, vertices_get.
  by destruct (dict_get (vertices σ) name).
Qed.

(** The vertex names of [names] are looked up one after the other. *)
Lemma for_list_locations (σ : StateSpace) (names : list string) :
  match find (λ n, bool_decide (dict_get (vertices σ) n = None)) names with
  | Some n =>
      for_list names (λ name,
        r ← vertices_get name; v ← deref r; mret (location v)) σ
      = (Raise (KeyError n), σ)
  | None =>
      ∃ coords,
        for_list names (λ name,
          r ← vertices_get name; v ← deref r; mret (location v)) σ
        = (Ok coords, σ)
  end.
Proof.
  induction names as [|name names IH]; [by eexists|].
  rewrite for_list_cons, location_lookup. cbn [find].
  destruct (dict_get (vertices σ) name) as [r|] eqn:Hname.
  - rewrite bool_decide_eq_false_2 by done.
    destruct (find _ names) as [n|].
    + by rewrite IH.
    + destruct IH as [coords ->]. by eexists.
  - by rewrite bool_decide_eq_true_2.
Qed.

Lemma for_list_polygons (σ : StateSpace) (polygons : list (list string)) :
  match find (λ n, bool_decide (dict_get (vertices σ) n = None))
          (concat polygons) with
  | Some n =>
      for_list polygons (λ poly,
        for_list poly (λ name,
          r ← vertices_get name; v ← deref r; mret (location v))) σ
      = (Raise (KeyError n), σ)
  | None =>
      ∃ coords,
        for_list polygons (λ poly,
          for_list poly (λ name,
            r ← vertices_get name; v ← deref r; mret (location v))) σ
        = (Ok coords, σ)
  end.
Proof.
  induction polygons as [|poly polygons IH]; [by eexists|].
  rewrite for_list_cons. cbn [concat]. rewrite find_app.
  pose proof (for_list_locations σ poly) as Hpoly.
  destruct (find _ poly) as [n|].
  - by rewrite Hpoly.
  - destruct Hpoly as [coords ->]. destruct (find _ (concat polygons)) as [n|].
    + by rewrite IH.
    + destruct IH as [coordss ->]. by eexists.
Qed.

(** X22: [build_automated_connections] looks up the names of [polygons]
    before it changes anything: with a name that is no vertex among them,
    it raises [KeyError] with the first one and leaves the state space as
    it is. *)
Theorem build_automated_connections_KeyError (σ : StateSpace)
    (polygons : list (list string)) (samples : Z) (max_len : float)
    (n : string)
    (Hn : find (λ n, bool_decide (dict_get (vertices σ) n = None))
            (concat polygons) = Some n) :
  build_automated_connections polygons samples max_len σ
  = (Raise (KeyError n), σ).
Proof.
  pose proof (for_list_polygons σ polygons) as Hpolygons.
  rewrite Hn in Hpolygons. unfold ShortestPath.build_automated_connections.
  unfold mbind at 1, M_bind at 1, bind at 1, vertices_keys.
  unfold mbind at 1, M_bind at 1, bind at 1.
  by rewrite Hpolygons.
Qed.

Lemma hoare_for_list {A B} V (l : list A) (f : A → M B) :
  (∀ x, hoare (keeps V) (f x) (λ _, keeps V) (λ _, keeps V)) →
  hoare (keeps V) (for_list l f) (λ _, keeps V) (λ _, keeps V).
Proof.
  intros Hf. induction l as [|x l IH]; simpl; [by intros σ Hσ|].
  eapply hoare_bind; [apply Hf|]. intros y.
  eapply hoare_bind; [apply IH|]. intros ys. by intros σ Hσ.
Qed.

Lemma hoare_call {A} V (r : result A) :
  hoare (keeps V) (call r) (λ _, keeps V) (λ _, keeps V).
Proof. intros σ Hσ. unfold call. by destruct r. Qed.

Lemma hoare_build_automated_connections V polygons samples max_len :
  hoare (keeps V) (build_automated_connections polygons samples max_len)
    (λ _, keeps V) (λ _, keeps V).
Proof.
  unfold ShortestPath.build_automated_connections.
  apply (hoare_bind _ _ _ (λ _, keeps V)); [by intros σ Hσ|]. intros names.
  eapply hoare_bind.
  { apply hoare_for_list. intros poly. apply hoare_for_list. intros name.
    eapply hoare_bind; [apply hoare_vertices_get|]. intros r.
    apply hoare_pure. intros _.
    eapply hoare_bind; [apply hoare_deref|]. intros v. by intros σ Hσ. }
  intros poly_coords. apply hoare_for_each. intros [a b] _.
  eapply hoare_bind; [apply hoare_vertices_get|]. intros ra.
  apply hoare_pure. intros _.
  eapply hoare_bind; [apply hoare_deref|]. intros v.
  destruct (existsb _ _); [by intros σ Hσ|].
  eapply hoare_bind; [apply hoare_vertices_get|]. intros ra'.
  apply hoare_pure. intros _.
  eapply hoare_bind; [apply hoare_deref|]. intros va.
  eapply hoare_bind; [apply hoare_vertices_get|]. intros rb.
  apply hoare_pure. intros _.
  eapply hoare_bind; [apply hoare_deref|]. intros vb. cbn zeta.
  destruct (_ <? _)%float; [by intros σ Hσ|].
  eapply hoare_bind; [apply hoare_call|]. intros [|]; [|by intros σ Hσ].
  apply (hoare_bind _ _ _ (λ _, keeps V)); [by intros σ Hσ|]. intros [].
  apply hoare_assert_reachable.
Qed.

(** X23: [build_automated_connections] on a state space that the methods
    have built keeps its vertices, and every action of a state still is
    the name of a vertex afterwards, whether the call returned or
    raised. *)
Theorem build_automated_connections_neighbours (σ : StateSpace)
    (polygons : list (list string)) (samples : Z) (max_len : float)
    (Hbuilt : built σ) :
  let σ' := (build_automated_connections polygons samples max_len σ).2 in
  vertices σ' = vertices σ
  ∧ ∀ state action l,
      actions σ' state = Ok l → action ∈ l →
      ∃ l', actions σ' (result_ state action) = Ok l'.
Proof.
  apply built_invariant in Hbuilt as [Hwf Hknown].
  pose proof (hoare_build_automated_connections (vertices σ) polygons
                samples max_len σ (conj Hwf (conj Hknown eq_refl))) as Hrun.
  assert (keeps (vertices σ)
            (build_automated_connections polygons samples max_len σ).2)
    as (_ & Hknown' & Hvertices).
  { by destruct (build_automated_connections _ _ _ σ) as [[[]|e] σ']. }
  split; [done|]. intros state action l Hl Haction. unfold actions in *.
  destruct (dict_get (vertices _) state) as [r|] eqn:Hr; [|done].
  injection Hl as <-.
  destruct (Hknown' state r action Hr Haction) as [r' Hr'].
  unfold result_. rewrite Hr'. by eexists.
Qed.

End build_automated_connections_properties.

Lemma build_automated_connections_KeyError_witness :
  build_automated_connections example_truediv example_hypot
    [["b"; "c"]; ["S"; "d"; "e"]] 5 6%float example_float
  = (Raise (KeyError "d"), example_float).
Proof.
  apply (build_automated_connections_KeyError example_truediv example_hypot
           example_float [["b"; "c"]; ["S"; "d"; "e"]] 5 6%float "d").
  reflexivity.
Defined.

Lemma build_automated_connections_neighbours_witness :
  let σ' := (build_automated_connections example_truediv example_hypot
               [["S"; "b"; "c"]] 5 6%float example_float).2 in
  vertices σ' = vertices example_float
  ∧ ∀ state action l,
      actions σ' state = Ok l → action ∈ l →
      ∃ l', actions σ' (result_ state action) = Ok l'.
Proof.
  apply (build_automated_connections_neighbours example_truediv
           example_hypot example_float [["S"; "b"; "c"]] 5 6%float).
  apply built_add_vertex, built_add_vertex, built_set_start, built_init.
Defined.

(** ** Properties of the path cost *)

(** *** Float addition: [c + d >= c] for [d >= 0]

    The mantissas and exponents of the specification of the floats
    ([SpecFloat]): shifting and rounding. *)












Lemma size_log2 (p : positive) :
  Z.pos (Pos.size p) = Z.log2 (Z.pos p) + 1.
Proof. destruct p; simpl; lia. Qed.


Lemma size_mul_pow2 (p q : positive) (k : Z) :
  0 <= k → Z.pos q = Z.pos p * 2 ^ k →
  Z.pos (Pos.size q) = Z.pos (Pos.size p) + k.
Proof.
  intros Hk Hq. rewrite !size_log2, Hq, Z.log2_mul_pow2 by lia. lia.
Qed.







Section greater_or_equal.
(** A float [c] in its format, negative ([true]) or positive. *)
Context (mc : positive) (ec : Z).
Context (Hcanonical : canonical_mantissa prec emax mc ec = true).
Context (Hbounded : ec <= emax - prec).






End greater_or_equal.





(** *** [path_cost] *)




End ShortestPath.
